(** * E3_Streamer/player.py: the streaming playback pipeline

    A shallow embedding of [Player] (src/E3_Streamer/player.py): the
    per-second batch processor ([video_second]), the fetch loop of [run],
    the two consumers ([write_audio_stream], [write_video_stream]) and the
    run flag.

    - Python floats are binary64: they are Rocq's primitive floats.
    - A method of [Player] is a function in a state-and-exception monad
      over the record of the object's attributes.
    - The three threads (the caller of [run] and the two consumers) are an
      interleaving of atomic steps; the thread pool of [video_second] is an
      interleaving of the steps of its tasks, driven by a schedule.
    - What the program does to the outside (queues, sinks, sleeps) is
      recorded in a log of events. *)

From Stdlib Require Import ZArith List Bool Lia Floats.
From stdpp Require Import base list.
Import ListNotations.

Set Default Proof Using "Type".

(** ** Python values *)

(** The exceptions the program can meet. [ModelError] stands for whatever
    the inference engine raises. *)
Inductive exn : Type :=
| StopIteration
| ValueError
| OverflowError
| ZeroDivisionError
| AttributeError
| QueueEmpty
| RuntimeError
| ModelError.

Inductive result (A : Type) : Type :=
| Ok (a : A)
| Raise (e : exn).
Arguments Ok {A} a.
Arguments Raise {A} e.

(** [int(x)] on a float: truncation toward zero; [OverflowError] on an
    infinity and [ValueError] on a NaN. *)
Definition py_int (x : float) : result Z :=
  match Prim2SF x with
  | S754_zero _ => Ok 0%Z
  | S754_infinity _ => Raise OverflowError
  | S754_nan => Raise ValueError
  | S754_finite s m e =>
      let a := if (0 <=? e)%Z then (Z.pos m * 2 ^ e)%Z
               else (Z.pos m / 2 ^ (- e))%Z in
      Ok (if s then (- a)%Z else a)
  end.

(** [x / y] on floats: [ZeroDivisionError] when the divisor is zero. *)
Definition py_div (x y : float) : result float :=
  match Prim2SF y with
  | S754_zero _ => Raise ZeroDivisionError
  | _ => Ok (x / y)%float
  end.

(** [range(n)] runs [max 0 n] times. *)
Definition py_range (n : Z) : nat := Z.to_nat n.

(** [next(it)] on an iterator with the items [it] left. *)
Definition py_next {A : Type} (it : list A) : result (A * list A) :=
  match it with
  | [] => Raise StopIteration
  | x :: rest => Ok (x, rest)
  end.

(** ** Audio samples

    A chunk is the array [iter_chunks] yields: float64 samples, row by row
    (interleaved channels). *)
Definition AudioChunk : Type := list float.

(** [astype("float32")] on one sample: round to nearest even in binary32
    (24 bits of precision, exponents up to 128); zeros, infinities and NaN
    are kept. *)
Definition float32_of (x : float) : spec_float :=
  match Prim2SF x with
  | S754_finite s m e => binary_normalize 24 128 (cond_Zopp s (Z.pos m)) e s
  | other => other
  end.

(** The 32 bits of a binary32 value. *)
Definition bits32 (x : spec_float) : Z :=
  let sign (s : bool) := if s then (2 ^ 31)%Z else 0%Z in
  match x with
  | S754_zero s => sign s
  | S754_infinity s => (sign s + 255 * 2 ^ 23)%Z
  | S754_nan => (255 * 2 ^ 23 + 2 ^ 22)%Z
  | S754_finite s m e =>
      if (Z.pos m <? 2 ^ 23)%Z then (sign s + Z.pos m)%Z
      else (sign s + (e + 150) * 2 ^ 23 + (Z.pos m - 2 ^ 23))%Z
  end.

(** The 64 bits of a binary64 value. *)
Definition bits64 (x : spec_float) : Z :=
  let sign (s : bool) := if s then (2 ^ 63)%Z else 0%Z in
  match x with
  | S754_zero s => sign s
  | S754_infinity s => (sign s + 2047 * 2 ^ 52)%Z
  | S754_nan => (2047 * 2 ^ 52 + 2 ^ 51)%Z
  | S754_finite s m e =>
      if (Z.pos m <? 2 ^ 52)%Z then (sign s + Z.pos m)%Z
      else (sign s + (e + 1075) * 2 ^ 52 + (Z.pos m - 2 ^ 52))%Z
  end.

(** [n] little-endian bytes of [z]. *)
Fixpoint le_bytes (n : nat) (z : Z) : list Z :=
  match n with
  | 0 => []
  | S k => (z mod 256)%Z :: le_bytes k (z / 256)%Z
  end.

(** [audio.astype("float32")]. *)
Definition astype_float32 (audio : AudioChunk) : list spec_float :=
  map float32_of audio.

(** [.tostring()] of a float32 array: four bytes a sample. *)
Definition tostring32 (a : list spec_float) : list Z :=
  flat_map (fun x => le_bytes 4 (bits32 x)) a.

(** [.tostring()] of the float64 array as it was received: eight bytes a
    sample. *)
Definition tostring64 (audio : AudioChunk) : list Z :=
  flat_map (fun x => le_bytes 8 (bits64 (Prim2SF x))) audio.

(** The argument of [self.stream.write] in [write_audio_stream]:
    [audio.astype("float32").tostring()]. *)
Definition stream_payload (audio : AudioChunk) : list Z :=
  tostring32 (astype_float32 audio).

(** The samples the sink reads back from a payload, as floats. *)
Definition samples_written (audio : AudioChunk) : list float :=
  map SF2Prim (astype_float32 audio).

(** ** The player object *)

Inductive thread : Type := Producer | AudioConsumer | VideoConsumer.

(** The image and tensor operations the program calls. A frame is an array
    whatever its shape and element type. *)
Record Imaging (Frame : Type) : Type := {
  (** [np.asarray(Image.fromarray(frame).resize([w, h], Image.BICUBIC),
      dtype="float32")] *)
  resize_bicubic : Z -> Z -> Frame -> Frame;
  (** [tf.expand_dims(frame, 0)] *)
  expand_dims : Frame -> Frame;
  (** [np.squeeze(np.clip(frame.numpy(), 0, 255).astype("uint8"))] *)
  np_clip_squeeze : Frame -> Frame;
  (** [tf.squeeze(tf.cast(tf.clip_by_value(frame, 0, 255), "uint8")).numpy()] *)
  tf_clip_squeeze : Frame -> Frame;
  (** [pygame.surfarray.make_surface(np.rot90(np.fliplr(video_frame)))] *)
  make_surface : Frame -> Frame
}.
Arguments resize_bicubic {Frame}.
Arguments expand_dims {Frame}.
Arguments np_clip_squeeze {Frame}.
Arguments tf_clip_squeeze {Frame}.
Arguments make_surface {Frame}.

(** A [tf.lite.Interpreter] after [allocate_tensors]: the model it runs and
    its input and output tensors. *)
Record Interpreter (Frame : Type) : Type := {
  invoke_model : Frame -> result Frame;
  input_tensor : Frame;
  output_tensor : Frame
}.
Arguments invoke_model {Frame}.
Arguments input_tensor {Frame}.
Arguments output_tensor {Frame}.
Arguments Build_Interpreter {Frame}.

(** What the program does to the outside, one event a call. *)
Inductive event (Frame : Type) : Type :=
| EvRunning                                (* self.running = True *)
| EvAudioPut (audio : AudioChunk)          (* self.audio_queue.put(audio) *)
| EvVideoPut (video : list Frame)          (* self.video_queue.put(video) *)
| EvAudioGet (audio : AudioChunk)          (* self.audio_queue.get(timeout=10) *)
| EvVideoGet (video : list Frame)          (* self.video_queue.get(timeout=10) *)
| EvStreamWrite (data : list Z)            (* self.stream.write(data) *)
| EvFill (r g b : Z)                       (* self.screen.fill((r, g, b)) *)
| EvBlit (surface : Frame) (x y : Z)       (* self.screen.blit(surface, (x, y)) *)
| EvDisplayUpdate                          (* pygame.display.update() *)
| EvSleep (who : thread) (seconds : float) (* time.sleep(seconds) *).
Arguments EvRunning {Frame}.
Arguments EvAudioPut {Frame}.
Arguments EvVideoPut {Frame}.
Arguments EvAudioGet {Frame}.
Arguments EvVideoGet {Frame}.
Arguments EvStreamWrite {Frame}.
Arguments EvFill {Frame}.
Arguments EvBlit {Frame}.
Arguments EvDisplayUpdate {Frame}.
Arguments EvSleep {Frame}.

(** The attributes of a [Player]. The two iterators hold the items they
    have not yielded yet; a queue has its oldest item first; [log] is the
    record of the events so far, the latest first. *)
Record Player (Frame : Type) : Type := {
  video_fps : float;
  video_duration : float;
  tolerance : float;
  running : bool;
  interpreter : option (Interpreter Frame);
  saved_model : option (Frame -> result Frame);
  lock : bool;
  video_iterator : list Frame;
  audio_iterator : list AudioChunk;
  video_queue : list (list Frame);
  audio_queue : list AudioChunk;
  screen_size : Z * Z;
  log : list (event Frame)
}.
Arguments video_fps {Frame}.
Arguments video_duration {Frame}.
Arguments tolerance {Frame}.
Arguments running {Frame}.
Arguments interpreter {Frame}.
Arguments saved_model {Frame}.
Arguments lock {Frame}.
Arguments video_iterator {Frame}.
Arguments audio_iterator {Frame}.
Arguments video_queue {Frame}.
Arguments audio_queue {Frame}.
Arguments screen_size {Frame}.
Arguments log {Frame}.
Arguments Build_Player {Frame}.

Definition BUFFER_SIZE : nat := 8.

(** The size of the pool of [video_second]: [ThreadPool(30)]. *)
Definition POOL_THREADS : nat := 30.

(** The timeout of both [get] calls, in seconds. *)
Definition GET_TIMEOUT : nat := 10.

(** [time.sleep(0.1)] in [run]: the float nearest to 0.1. *)
Definition FETCH_PAUSE : float := 0x1.999999999999ap-4%float.

Section Streamer.

Context {Frame : Type}.
Variable lib : Imaging Frame.

Abbreviation Player := (Player Frame).
Abbreviation Interpreter := (Interpreter Frame).
Abbreviation event := (event Frame).

(** *** Attribute updates *)

Definition set_running (b : bool) (p : Player) : Player :=
  Build_Player (video_fps p) (video_duration p) (tolerance p) b
    (interpreter p) (saved_model p) (lock p) (video_iterator p)
    (audio_iterator p) (video_queue p) (audio_queue p) (screen_size p) (log p).

Definition set_interpreter (i : option Interpreter) (p : Player) : Player :=
  Build_Player (video_fps p) (video_duration p) (tolerance p) (running p)
    i (saved_model p) (lock p) (video_iterator p)
    (audio_iterator p) (video_queue p) (audio_queue p) (screen_size p) (log p).

Definition set_lock (b : bool) (p : Player) : Player :=
  Build_Player (video_fps p) (video_duration p) (tolerance p) (running p)
    (interpreter p) (saved_model p) b (video_iterator p)
    (audio_iterator p) (video_queue p) (audio_queue p) (screen_size p) (log p).

Definition set_video_iterator (it : list Frame) (p : Player) : Player :=
  Build_Player (video_fps p) (video_duration p) (tolerance p) (running p)
    (interpreter p) (saved_model p) (lock p) it
    (audio_iterator p) (video_queue p) (audio_queue p) (screen_size p) (log p).

Definition set_audio_iterator (it : list AudioChunk) (p : Player) : Player :=
  Build_Player (video_fps p) (video_duration p) (tolerance p) (running p)
    (interpreter p) (saved_model p) (lock p) (video_iterator p)
    it (video_queue p) (audio_queue p) (screen_size p) (log p).

Definition set_video_queue (q : list (list Frame)) (p : Player) : Player :=
  Build_Player (video_fps p) (video_duration p) (tolerance p) (running p)
    (interpreter p) (saved_model p) (lock p) (video_iterator p)
    (audio_iterator p) q (audio_queue p) (screen_size p) (log p).

Definition set_audio_queue (q : list AudioChunk) (p : Player) : Player :=
  Build_Player (video_fps p) (video_duration p) (tolerance p) (running p)
    (interpreter p) (saved_model p) (lock p) (video_iterator p)
    (audio_iterator p) (video_queue p) q (screen_size p) (log p).

Definition emit (ev : event) (p : Player) : Player :=
  Build_Player (video_fps p) (video_duration p) (tolerance p) (running p)
    (interpreter p) (saved_model p) (lock p) (video_iterator p)
    (audio_iterator p) (video_queue p) (audio_queue p) (screen_size p)
    (ev :: log p).

(** The events in the order they happened. *)
Definition history (p : Player) : list event := rev (log p).

(** *** [Player.__init__]

    [clip_*] are what [editor.VideoFileClip(videofile)] gives: the frame
    rate and duration, the frames of [iter_frames()] and the chunks of
    [audio.iter_chunks(int(audio.fps))]. [tflite] and [model] are the loaded
    interpreter and SavedModel, [None] for an empty path. *)
Definition Player_init (clip_fps clip_duration : float)
    (clip_frames : list Frame) (clip_chunks : list AudioChunk)
    (tflite : option Interpreter) (model : option (Frame -> result Frame))
  : Player :=
  {| video_fps := clip_fps;
     video_duration := clip_duration;
     tolerance := 2.25%float;
     running := false;
     interpreter := tflite;
     saved_model := model;
     lock := false;
     video_iterator := clip_frames;
     audio_iterator := clip_chunks;
     video_queue := [];
     audio_queue := [];
     screen_size :=
       match model, tflite with
       | None, None => (320, 180)%Z      (* int(1280 * 0.25), int(720 * 0.25) *)
       | _, _ => (1280, 720)%Z
       end;
     log := [] |}.

(** *** Methods: state and exceptions *)

Definition M (A : Type) : Type := Player -> result A * Player.

Definition ret {A : Type} (a : A) : M A := fun p => (Ok a, p).

Definition bind {A B : Type} (c : M A) (k : A -> M B) : M B :=
  fun p =>
    match c p with
    | (Ok a, p') => k a p'
    | (Raise e, p') => (Raise e, p')
    end.

Definition lift {A : Type} (r : result A) : M A := fun p => (r, p).

Definition reads {A : Type} (f : Player -> A) : M A := fun p => (Ok (f p), p).

Definition update (f : Player -> Player) : M unit := fun p => (Ok tt, f p).

Notation "x <- c ;; k" := (bind c (fun x => k))
  (at level 100, c at next level, right associativity).
Notation "c ;;; k" := (bind c (fun _ => k))
  (at level 100, right associativity).

(** [next(self.video_iterator)] *)
Definition next_video_frame : M Frame :=
  fun p =>
    match py_next (video_iterator p) with
    | Ok (frame, rest) => (Ok frame, set_video_iterator rest p)
    | Raise e => (Raise e, p)
    end.

(** [next(self.audio_iterator)] *)
Definition next_audio_chunk : M AudioChunk :=
  fun p =>
    match py_next (audio_iterator p) with
    | Ok (audio, rest) => (Ok audio, set_audio_iterator rest p)
    | Raise e => (Raise e, p)
    end.

(** [self.audio_queue.put(audio)] and [self.video_queue.put(video)] *)
Definition put_audio (audio : AudioChunk) : M unit :=
  update (fun p => emit (EvAudioPut audio)
                     (set_audio_queue (audio_queue p ++ [audio]) p)).

Definition put_video (video : list Frame) : M unit :=
  update (fun p => emit (EvVideoPut video)
                     (set_video_queue (video_queue p ++ [video]) p)).

(** [time.sleep(seconds)]: the call is logged; a negative or NaN argument
    raises [ValueError]. *)
Definition sleep (who : thread) (seconds : float) : M unit :=
  fun p =>
    let p' := emit (EvSleep who seconds) p in
    if (0 <=? seconds)%float then (Ok tt, p') else (Raise ValueError, p').

(** *** The two resolution functions *)

(** [saved_model_super_resolve]: one call of the SavedModel when there is
    one, then clip, cast and squeeze. *)
Definition saved_model_super_resolve
    (model : option (Frame -> result Frame)) (frame : Frame) : result Frame :=
  match model with
  | Some call =>
      match call frame with
      | Ok out => Ok (np_clip_squeeze lib out)
      | Raise e => Raise e
      end
  | None => Ok (np_clip_squeeze lib frame)
  end.

(** The three calls of [tflite_super_resolve] on the interpreter. *)
Definition set_tensor (frame : Frame) (it : Interpreter) : Interpreter :=
  Build_Interpreter (invoke_model it) frame (output_tensor it).

Definition invoke (it : Interpreter) : result Interpreter :=
  match invoke_model it (input_tensor it) with
  | Ok out => Ok (Build_Interpreter (invoke_model it) (input_tensor it) out)
  | Raise e => Raise e
  end.

Definition get_tensor (it : Interpreter) : Frame := output_tensor it.

(** [tflite_super_resolve] run by one thread alone. *)
Definition tflite_super_resolve (frame : Frame) (it : Interpreter)
  : result Frame * Interpreter :=
  let it1 := set_tensor frame it in
  match invoke it1 with
  | Ok it2 => (Ok (tf_clip_squeeze lib (get_tensor it2)), it2)
  | Raise e => (Raise e, it1)
  end.

(** [resolution_fn] as [video_second] chooses it. *)
Inductive resolution : Type := ByTflite | BySavedModel.

Definition resolution_fn (p : Player) : resolution :=
  match interpreter p, saved_model p with
  | Some _, None => ByTflite
  | _, _ => BySavedModel
  end.

(** *** The thread pool of [video_second]

    [pool.map(resolution_fn, frames)] makes one task of each frame (for
    more than 120 frames the library groups neighbours into one task, which
    does not change where a result goes). A task is run by one of the
    [POOL_THREADS] threads; the steps of the tasks in flight interleave.
    [saved_model_super_resolve] is one step. [tflite_super_resolve] is
    three steps on the interpreter all tasks share: [set_tensor], [invoke],
    [get_tensor]. The result of task [i] goes to place [i]; the first
    exception to arrive is the one [map] raises. *)

Inductive task : Type :=
| Pending (frame : Frame)   (* not started *)
| Invoking                  (* after set_tensor *)
| Reading                   (* after invoke *)
| Finished (r : result Frame).

Record pool : Type := {
  tasks : list task;
  shared : option Interpreter;   (* self.interpreter *)
  first_exn : option exn
}.

Definition busy (t : task) : bool :=
  match t with
  | Invoking | Reading => true
  | Pending _ | Finished _ => false
  end.

Fixpoint in_flight (ts : list task) : nat :=
  match ts with
  | [] => 0
  | t :: rest => (if busy t then 1 else 0) + in_flight rest
  end.

Definition finish (i : nat) (r : result Frame) (s : pool) : pool :=
  {| tasks := <[i := Finished r]> (tasks s);
     shared := shared s;
     first_exn := match first_exn s, r with
                  | None, Raise e => Some e
                  | old, _ => old
                  end |}.

Definition move (i : nat) (t : task) (it : Interpreter) (s : pool) : pool :=
  {| tasks := <[i := t]> (tasks s);
     shared := Some it;
     first_exn := first_exn s |}.

(** One step of task [i]. A task starts only when a thread is free. *)
Definition task_step (fn : resolution) (model : option (Frame -> result Frame))
    (i : nat) (s : pool) : pool :=
  match tasks s !! i with
  | Some (Pending frame) =>
      if in_flight (tasks s) <? POOL_THREADS then
        match fn with
        | BySavedModel => finish i (saved_model_super_resolve model frame) s
        | ByTflite =>
            match shared s with
            | Some it => move i Invoking (set_tensor frame it) s
            | None => finish i (Raise AttributeError) s
            end
        end
      else s
  | Some Invoking =>
      match shared s with
      | Some it =>
          match invoke it with
          | Ok it' => move i Reading it' s
          | Raise e => finish i (Raise e) s
          end
      | None => finish i (Raise AttributeError) s
      end
  | Some Reading =>
      match shared s with
      | Some it => finish i (Ok (tf_clip_squeeze lib (get_tensor it))) s
      | None => finish i (Raise AttributeError) s
      end
  | Some (Finished _) | None => s
  end.

(** The steps a schedule picks, in its order. *)
Definition run_schedule (fn : resolution) (model : option (Frame -> result Frame))
    (sched : list nat) (s : pool) : pool :=
  fold_left (fun s i => task_step fn model i s) sched s.

(** [map] blocks until every task is done: after the schedule the tasks in
    flight run to their end, then the tasks not started run one by one. *)
Definition advance (fn : resolution) (model : option (Frame -> result Frame))
    (i : nat) (s : pool) : pool :=
  match tasks s !! i with
  | Some Invoking | Some Reading => task_step fn model i s
  | _ => s
  end.

Definition settle (fn : resolution) (model : option (Frame -> result Frame))
    (s : pool) : pool :=
  fold_left (fun s i => advance fn model i (advance fn model i s))
    (seq 0 (length (tasks s))) s.

Definition serve (fn : resolution) (model : option (Frame -> result Frame))
    (s : pool) : pool :=
  fold_left
    (fun s i => task_step fn model i (task_step fn model i (task_step fn model i s)))
    (seq 0 (length (tasks s))) s.

Definition pool_join (fn : resolution) (model : option (Frame -> result Frame))
    (s : pool) : pool :=
  serve fn model (settle fn model s).

Fixpoint results_of (ts : list task) : list Frame :=
  match ts with
  | [] => []
  | Finished (Ok out) :: rest => out :: results_of rest
  | _ :: rest => results_of rest
  end.

Definition collect (s : pool) : result (list Frame) :=
  match first_exn s with
  | Some e => Raise e
  | None => Ok (results_of (tasks s))
  end.

Definition pool_start (frames : list Frame) (it : option Interpreter) : pool :=
  {| tasks := Pending <$> frames; shared := it; first_exn := None |}.

(** The pool when [map] returns or raises. *)
Definition pool_run (fn : resolution) (model : option (Frame -> result Frame))
    (sched : list nat) (frames : list Frame) (it : option Interpreter) : pool :=
  pool_join fn model (run_schedule fn model sched (pool_start frames it)).

Definition pool_map (fn : resolution) (model : option (Frame -> result Frame))
    (sched : list nat) (frames : list Frame) (it : option Interpreter)
  : result (list Frame) * option Interpreter :=
  let s := pool_run fn model sched frames it in
  (collect s, shared s).

(** *** [video_second] and [fetch_video] *)

(** The loop of [video_second]: [n] frames are pulled, resized and given a
    batch dimension. *)
Fixpoint fetch_frames (n : nat) (frames : list Frame) : M (list Frame) :=
  match n with
  | 0 => ret frames
  | S k =>
      frame <- next_video_frame ;;
      let frame := resize_bicubic lib (1280 / 4) (720 / 4) frame in
      fetch_frames k (frames ++ [expand_dims lib frame])
  end.

(** [video_second]; [sched] is how the pool interleaves this time. *)
Definition video_second (sched : list nat) : M (list Frame) :=
  n <- (fun p => (py_int (video_fps p), p)) ;;
  frames <- fetch_frames (py_range n) [] ;;
  fun p =>
    let (r, it) := pool_map (resolution_fn p) (saved_model p) sched frames
                     (interpreter p) in
    (r, set_interpreter it p).

(** The first two lines of [fetch_video]: nothing is put yet. *)
Definition fetch_pull (sched : list nat) : M (AudioChunk * list Frame) :=
  audio <- next_audio_chunk ;;
  video <- video_second sched ;;
  ret (audio, video).

Definition fetch_video (sched : list nat) : M unit :=
  audio <- next_audio_chunk ;;
  video <- video_second sched ;;
  put_audio audio ;;;
  put_video video.

(** The loop of [run] from iteration [i], [n] iterations to go; [oracle i]
    is the pool's schedule in iteration [i]. *)
Fixpoint fetch_loop (n i : nat) (oracle : nat -> list nat) : M unit :=
  match n with
  | 0 => ret tt
  | S k =>
      fetch_video (oracle i) ;;;
      sleep Producer FETCH_PAUSE ;;;
      fetch_loop k (S i) oracle
  end.

(** [for _ in range(int(self.video.duration)): ...] *)
Definition run_fetch_loop (oracle : nat -> list nat) : M unit :=
  n <- (fun p => (py_int (video_duration p), p)) ;;
  fetch_loop (py_range n) 0 oracle.

(** ** The three threads of a session

    The thread that calls [run] and the two consumer threads, each with
    the place it has reached; a step of one thread is one call on the
    shared queues, flag, lock or sinks. *)

(** Where [run] is. [PFetch i n] is the head of the loop at iteration [i]
    of [n]; the two puts of [fetch_video] are steps of their own. *)
Inductive producer_pc : Type :=
| PAcquire1                     (* with self.lock: *)
| PGuard1                       (* if not self.running: self.running = True *)
| PRelease1
| PStartAudio                   (* self.audio_thread.start() *)
| PStartVideo                   (* self.video_thread.start() *)
| PRange                        (* range(int(self.video.duration)) *)
| PFetch (i n : nat)            (* audio = next(...); video = self.video_second() *)
| PPutAudio (i n : nat) (audio : AudioChunk) (video : list Frame)
| PPutVideo (i n : nat) (video : list Frame)
| PPause (i n : nat)            (* time.sleep(0.1) *)
| PAcquire2
| PGuard2
| PRelease2
| PJoinAudio                    (* self.audio_thread.join() *)
| PJoinVideo                    (* self.video_thread.join() *)
| PReturned
| PRaised (e : exn).

(** Where [write_audio_stream] is. [AGet waited]: inside
    [get(timeout=10)], [waited] seconds gone. *)
Inductive audio_pc : Type :=
| ANotStarted
| ABuffering                    (* while self.audio_queue.qsize() < BUFFER_SIZE *)
| ATest                         (* while self.running *)
| AGet (waited : nat)
| AWrite (audio : AudioChunk)   (* self.stream.write(...) *)
| AReturned
| ARaised (e : exn).

(** Where [write_video_stream] is. [VFrame rest]: the head of the [for]
    over the batch, [rest] still to show; [VPace rest]: a frame is on the
    display, the sleep is next. *)
Inductive video_pc : Type :=
| VNotStarted
| VBuffering
| VTest
| VGet (waited : nat)
| VFrame (rest : list Frame)
| VPace (rest : list Frame)
| VReturned
| VRaised (e : exn).

Record World : Type := {
  self : Player;
  main : producer_pc;
  audio_thread : audio_pc;
  video_thread : video_pc
}.

Definition at_main (p : Player) (pc : producer_pc) (w : World) : World :=
  {| self := p; main := pc;
     audio_thread := audio_thread w; video_thread := video_thread w |}.

Definition at_audio (p : Player) (pc : audio_pc) (w : World) : World :=
  {| self := p; main := main w;
     audio_thread := pc; video_thread := video_thread w |}.

Definition at_video (p : Player) (pc : video_pc) (w : World) : World :=
  {| self := p; main := main w;
     audio_thread := audio_thread w; video_thread := pc |}.

(** [if not self.running: self.running = True] *)
Definition start_transition (p : Player) : Player :=
  if running p then p else emit EvRunning (set_running true p).

Definition audio_ended (pc : audio_pc) : bool :=
  match pc with
  | AReturned | ARaised _ => true
  | _ => false
  end.

Definition video_ended (pc : video_pc) : bool :=
  match pc with
  | VReturned | VRaised _ => true
  | _ => false
  end.

(** One step of [run]; [sched] is the pool's schedule, used by a fetch. *)
Definition run_step (sched : list nat) (w : World) : World :=
  let p := self w in
  match main w with
  | PAcquire1 => if lock p then w else at_main (set_lock true p) PGuard1 w
  | PGuard1 => at_main (start_transition p) PRelease1 w
  | PRelease1 => at_main (set_lock false p) PStartAudio w
  | PStartAudio =>
      match audio_thread w with
      | ANotStarted =>
          {| self := p; main := PStartVideo;
             audio_thread := ABuffering; video_thread := video_thread w |}
      | _ => at_main p (PRaised RuntimeError) w
      end
  | PStartVideo =>
      match video_thread w with
      | VNotStarted =>
          {| self := p; main := PRange;
             audio_thread := audio_thread w; video_thread := VBuffering |}
      | _ => at_main p (PRaised RuntimeError) w
      end
  | PRange =>
      match py_int (video_duration p) with
      | Ok n => at_main p (PFetch 0 (py_range n)) w
      | Raise e => at_main p (PRaised e) w
      end
  | PFetch i n =>
      if i <? n then
        match fetch_pull sched p with
        | (Ok (audio, video), p') => at_main p' (PPutAudio i n audio video) w
        | (Raise e, p') => at_main p' (PRaised e) w
        end
      else at_main p PAcquire2 w
  | PPutAudio i n audio video =>
      at_main (snd (put_audio audio p)) (PPutVideo i n video) w
  | PPutVideo i n video =>
      at_main (snd (put_video video p)) (PPause i n) w
  | PPause i n =>
      match sleep Producer FETCH_PAUSE p with
      | (Ok _, p') => at_main p' (PFetch (S i) n) w
      | (Raise e, p') => at_main p' (PRaised e) w
      end
  | PAcquire2 => if lock p then w else at_main (set_lock true p) PGuard2 w
  | PGuard2 => at_main (start_transition p) PRelease2 w
  | PRelease2 => at_main (set_lock false p) PJoinAudio w
  | PJoinAudio =>
      if audio_ended (audio_thread w) then at_main p PJoinVideo w else w
  | PJoinVideo =>
      if video_ended (video_thread w) then at_main p PReturned w else w
  | PReturned | PRaised _ => w
  end.

(** One step of [write_audio_stream]. An exception is raised again by the
    handler and ends the thread. *)
Definition write_audio_stream_step (w : World) : World :=
  let p := self w in
  match audio_thread w with
  | ANotStarted => w
  | ABuffering =>
      if length (audio_queue p) <? BUFFER_SIZE then w else at_audio p ATest w
  | ATest =>
      if running p then at_audio p (AGet 0) w else at_audio p AReturned w
  | AGet waited =>
      match audio_queue p with
      | audio :: rest =>
          at_audio (emit (EvAudioGet audio) (set_audio_queue rest p))
            (AWrite audio) w
      | [] =>
          if waited <? GET_TIMEOUT then at_audio p (AGet (S waited)) w
          else at_audio p (ARaised QueueEmpty) w
      end
  | AWrite audio =>
      at_audio (emit (EvStreamWrite (stream_payload audio)) p) ATest w
  | AReturned | ARaised _ => w
  end.

(** [(1000 / self.video.fps - self.tolerance) / 1000] *)
Definition frame_interval (p : Player) : result float :=
  match py_div 1000 (video_fps p) with
  | Ok q => Ok ((q - tolerance p) / 1000)%float
  | Raise e => Raise e
  end.

(** Fill, blit and update for one frame. *)
Definition present (frame : Frame) (p : Player) : Player :=
  let surface := make_surface lib frame in
  emit EvDisplayUpdate (emit (EvBlit surface 0 0) (emit (EvFill 0 0 2) p)).

(** One step of [write_video_stream]. *)
Definition write_video_stream_step (w : World) : World :=
  let p := self w in
  match video_thread w with
  | VNotStarted => w
  | VBuffering =>
      if length (video_queue p) <? BUFFER_SIZE then w else at_video p VTest w
  | VTest =>
      if running p then at_video p (VGet 0) w else at_video p VReturned w
  | VGet waited =>
      match video_queue p with
      | video :: rest =>
          at_video (emit (EvVideoGet video) (set_video_queue rest p))
            (VFrame video) w
      | [] =>
          if waited <? GET_TIMEOUT then at_video p (VGet (S waited)) w
          else at_video p (VRaised QueueEmpty) w
      end
  | VFrame [] => at_video p VTest w
  | VFrame (frame :: rest) => at_video (present frame p) (VPace rest) w
  | VPace rest =>
      match frame_interval p with
      | Ok seconds =>
          match sleep VideoConsumer seconds p with
          | (Ok _, p') => at_video p' (VFrame rest) w
          | (Raise e, p') => at_video p' (VRaised e) w
          end
      | Raise e => at_video p (VRaised e) w
      end
  | VReturned | VRaised _ => w
  end.

(** Which thread moves; a run step carries the pool's schedule. *)
Inductive label : Type :=
| Run (sched : list nat)
| Audio
| Video.

Definition step (l : label) (w : World) : World :=
  match l with
  | Run sched => run_step sched w
  | Audio => write_audio_stream_step w
  | Video => write_video_stream_step w
  end.

Definition steps (ls : list label) (w : World) : World :=
  fold_left (fun w l => step l w) ls w.

(** A player on which [run] has just been called. *)
Definition session (p : Player) : World :=
  {| self := p; main := PAcquire1;
     audio_thread := ANotStarted; video_thread := VNotStarted |}.

(** The states of a session of a freshly made player. *)
Inductive reachable (p0 : Player) : World -> Prop :=
| reach_start : reachable p0 (session p0)
| reach_step l w : reachable p0 w -> reachable p0 (step l w).

(** *** Reading the log *)

Definition is_audio_put (ev : event) : bool :=
  match ev with EvAudioPut _ => true | _ => false end.

Definition is_video_put (ev : event) : bool :=
  match ev with EvVideoPut _ => true | _ => false end.

(** What the audio consumer does: a dequeue or a write to the sink. *)
Definition is_audio_drain (ev : event) : bool :=
  match ev with EvAudioGet _ | EvStreamWrite _ => true | _ => false end.

(** What the video consumer does: a dequeue or a call on the display. *)
Definition is_video_drain (ev : event) : bool :=
  match ev with
  | EvVideoGet _ | EvFill _ _ _ | EvBlit _ _ _ | EvDisplayUpdate => true
  | _ => false
  end.

Definition is_running_set (ev : event) : bool :=
  match ev with EvRunning => true | _ => false end.

Fixpoint count (f : event -> bool) (l : list event) : nat :=
  match l with
  | [] => 0
  | ev :: rest => (if f ev then 1 else 0) + count f rest
  end.

(** Every event that satisfies [f] has at least [n] events that satisfy
    [g] before it (the log has the latest event first). *)
Fixpoint preceded_by (f g : event -> bool) (n : nat) (l : list event) : Prop :=
  match l with
  | [] => True
  | ev :: before =>
      (f ev = true -> n <= count g before) /\ preceded_by f g n before
  end.

(** The chunks put on the audio queue, the chunks taken from it and the
    payloads written to the stream, each list the oldest first. *)
Fixpoint audio_puts (l : list event) : list AudioChunk :=
  match l with
  | [] => []
  | EvAudioPut audio :: before => audio_puts before ++ [audio]
  | _ :: before => audio_puts before
  end.

Fixpoint audio_gets (l : list event) : list AudioChunk :=
  match l with
  | [] => []
  | EvAudioGet audio :: before => audio_gets before ++ [audio]
  | _ :: before => audio_gets before
  end.

Fixpoint stream_writes (l : list event) : list (list Z) :=
  match l with
  | [] => []
  | EvStreamWrite data :: before => stream_writes before ++ [data]
  | _ :: before => stream_writes before
  end.

(** The batches put on the video queue, the batches taken from it and the
    surfaces drawn on the screen, each list the oldest first. *)
Fixpoint video_puts (l : list event) : list (list Frame) :=
  match l with
  | [] => []
  | EvVideoPut video :: before => video_puts before ++ [video]
  | _ :: before => video_puts before
  end.

Fixpoint video_gets (l : list event) : list (list Frame) :=
  match l with
  | [] => []
  | EvVideoGet video :: before => video_gets before ++ [video]
  | _ :: before => video_gets before
  end.

Fixpoint blits (l : list event) : list Frame :=
  match l with
  | [] => []
  | EvBlit surface _ _ :: before => blits before ++ [surface]
  | _ :: before => blits before
  end.

(** At every point of the log there are at least as many audio puts as
    video puts, and at most one more. *)
Fixpoint audio_leads (l : list event) : Prop :=
  match l with
  | [] => True
  | ev :: before =>
      (count is_video_put (ev :: before) <= count is_audio_put (ev :: before)
       /\ count is_audio_put (ev :: before) <= count is_video_put (ev :: before) + 1)
      /\ audio_leads before
  end.

(** ** What the proofs speak of

    The state of the pool and of a session at a point of a run, as the
    invariants below need it. *)

Implicit Types (s : pool) (p : Player) (w : World) (fn : resolution)
  (i j : nat) (model : option (Frame -> result Frame)) (sched : list nat).

(** Task [j] is not in the middle of a call: it has not started or it is
    done. *)
Definition quiet s j : Prop :=
  forall t, tasks s !! j = Some t -> busy t = false.

(** Task [j] is done. *)
Definition finished_at s j : Prop :=
  exists r, tasks s !! j = Some (Finished r).

(** A task that ended in an exception has left one in [first_exn]. *)
Definition exn_recorded s : Prop :=
  forall j e, tasks s !! j = Some (Finished (Raise e)) -> first_exn s <> None.

(** On the SavedModel path a task is not started, or it is done with the
    resolution of its own frame. *)
Definition one_call model (frames : list Frame) s : Prop :=
  forall j t, tasks s !! j = Some t ->
    exists x, frames !! j = Some x /\
      (t = Pending x \/ t = Finished (saved_model_super_resolve model x)).

(** The frame [video_second] hands to the pool for a decoded frame. *)
Definition prepared (frame : Frame) : Frame :=
  expand_dims lib (resize_bicubic lib (1280 / 4) (720 / 4) frame).

(** What a fetch leaves alone: everything but the two iterators and the
    tensors of the interpreter. *)
Definition pulls p p' : Prop :=
  video_fps p' = video_fps p /\
  video_duration p' = video_duration p /\
  tolerance p' = tolerance p /\
  running p' = running p /\
  saved_model p' = saved_model p /\
  lock p' = lock p /\
  video_queue p' = video_queue p /\
  audio_queue p' = audio_queue p /\
  log p' = log p /\
  invoke_model <$> interpreter p' = invoke_model <$> interpreter p.

(** Neither model of the player raises, whatever the frame. *)
Definition never_raises p : Prop :=
  (forall call x, saved_model p = Some call -> exists y, call x = Ok y) /\
  (forall it x, interpreter p = Some it -> exists y, invoke_model it x = Ok y).

(** One iteration of the loop of [run], as events in the order they
    happen. *)
Definition iteration_events (ab : AudioChunk * list Frame) : list event :=
  [EvAudioPut (fst ab); EvVideoPut (snd ab); EvSleep Producer FETCH_PAUSE].

(** A player as [__init__] leaves it. *)
Definition new_player p : Prop :=
  log p = [] /\ audio_queue p = [] /\ video_queue p = [] /\
  running p = false /\ lock p = false /\ tolerance p = 2.25%float.

(** The puts so far, by where [run] is: one audio put ahead between the
    two puts of a fetch, level everywhere else. *)
Definition order_at (pc : producer_pc) (audio_puts video_puts : nat) : Prop :=
  match pc with
  | PPutVideo _ _ _ => audio_puts = S video_puts
  | _ => audio_puts = video_puts
  end.

(** The invariant of C10. *)
Definition order_inv w : Prop :=
  audio_leads (log (self w)) /\
  order_at (main w) (count is_audio_put (log (self w)))
    (count is_video_put (log (self w))).

(** A consumer that has left its buffering loop has seen its queue hold
    [BUFFER_SIZE] items: so many puts have been made. *)
Definition audio_gate_at (pc : audio_pc) (puts : nat) : Prop :=
  match pc with
  | ANotStarted | ABuffering => True
  | _ => BUFFER_SIZE <= puts
  end.

Definition video_gate_at (pc : video_pc) (puts : nat) : Prop :=
  match pc with
  | VNotStarted | VBuffering => True
  | _ => BUFFER_SIZE <= puts
  end.

(** The invariant of C2: a queue holds no more than was put, and no
    consumer is past its buffering loop before [BUFFER_SIZE] puts. *)
Definition gate_inv w : Prop :=
  preceded_by is_audio_drain is_audio_put BUFFER_SIZE (log (self w)) /\
  preceded_by is_video_drain is_video_put BUFFER_SIZE (log (self w)) /\
  length (audio_queue (self w)) <= count is_audio_put (log (self w)) /\
  length (video_queue (self w)) <= count is_video_put (log (self w)) /\
  audio_gate_at (audio_thread w) (count is_audio_put (log (self w))) /\
  video_gate_at (video_thread w) (count is_video_put (log (self w))).

(** The run flag, the number of times it was set and the lock, by where
    [run] is. *)
Definition flag_at (pc : producer_pc) (flag : bool) (sets : nat)
    (held : bool) : Prop :=
  match pc with
  | PAcquire1 => flag = false /\ sets = 0 /\ held = false
  | PGuard1 => flag = false /\ sets = 0 /\ held = true
  | PRelease1 | PGuard2 | PRelease2 => flag = true /\ sets = 1 /\ held = true
  | _ => flag = true /\ sets = 1 /\ held = false
  end.

(** The invariant of C8. *)
Definition flag_inv w : Prop :=
  flag_at (main w) (running (self w))
    (count is_running_set (log (self w))) (lock (self w)).

(** The invariant of C9: no [get] waits past its timeout. *)
Definition wait_inv w : Prop :=
  (forall t, audio_thread w = AGet t -> t <= GET_TIMEOUT) /\
  (forall t, video_thread w = VGet t -> t <= GET_TIMEOUT).

(** The frame rate can be divided by. *)
Definition live (fps : float) : Prop := exists q, py_div 1000 fps = Ok q.

(** A batch with a frame in it was cut at a frame rate of 1 or more. *)
Definition batch_ok (fps : float) (b : list Frame) : Prop := b <> [] -> live fps.

(** The batch [run] holds between the fetch and the put. *)
Definition pace_at_main (fps : float) (pc : producer_pc) : Prop :=
  match pc with
  | PPutAudio _ _ _ video | PPutVideo _ _ video => batch_ok fps video
  | _ => True
  end.

(** The batch the video consumer is showing. *)
Definition pace_at_video (fps : float) (pc : video_pc) : Prop :=
  match pc with
  | VFrame rest => batch_ok fps rest
  | VPace _ => live fps
  | _ => True
  end.

(** [d] is the interval the player computes from its frame rate. *)
Definition paced p0 (d : float) : Prop := frame_interval p0 = Ok d.

(** The invariant of C7: frame rate and tolerance are those of the start,
    every batch in the session is [batch_ok], and every sleep of the video
    consumer so far is [paced]. *)
Definition pace_inv p0 w : Prop :=
  video_fps (self w) = video_fps p0 /\
  tolerance (self w) = tolerance p0 /\
  Forall (batch_ok (video_fps p0)) (video_queue (self w)) /\
  pace_at_main (video_fps p0) (main w) /\
  pace_at_video (video_fps p0) (video_thread w) /\
  (forall d, In (EvSleep VideoConsumer d) (log (self w)) -> paced p0 d).

(** The number of iterations [run] is to make: [int(duration)], none when
    [int] raises. *)
Definition iterations p : nat :=
  match py_int (video_duration p) with
  | Ok d => py_range d
  | Raise _ => 0
  end.

(** The audio puts and the video puts made, by where [run] is; [total] is
    the number of iterations to make. *)
Definition iter_at (pc : producer_pc) (total audio_puts video_puts : nat)
  : Prop :=
  match pc with
  | PAcquire1 | PGuard1 | PRelease1 | PStartAudio | PStartVideo | PRange =>
      audio_puts = 0 /\ video_puts = 0
  | PFetch i n => n = total /\ i <= n /\ audio_puts = i /\ video_puts = i
  | PPutAudio i n _ _ => n = total /\ i < n /\ audio_puts = i /\ video_puts = i
  | PPutVideo i n _ => n = total /\ i < n /\ audio_puts = S i /\ video_puts = i
  | PPause i n => n = total /\ i < n /\ audio_puts = S i /\ video_puts = S i
  | PAcquire2 | PGuard2 | PRelease2 | PJoinAudio | PJoinVideo | PReturned =>
      audio_puts = total /\ video_puts = total
  | PRaised _ => audio_puts = video_puts /\ audio_puts <= total
  end.

Definition iter_inv p0 w : Prop :=
  video_duration (self w) = video_duration p0 /\
  iter_at (main w) (iterations p0)
    (count is_audio_put (log (self w))) (count is_video_put (log (self w))).

(** The payloads of the chunks dequeued are those written, and the one
    about to be. *)
Definition audio_sink_at (pc : audio_pc) (taken written : list (list Z)) : Prop :=
  match pc with
  | AWrite audio => taken = written ++ [stream_payload audio]
  | _ => taken = written
  end.

(** The surfaces of the frames dequeued are those drawn, and those of the
    batch being shown; a consumer that has raised has drawn a part of
    them. *)
Definition video_sink_at (pc : video_pc) (taken drawn : list Frame) : Prop :=
  match pc with
  | VFrame rest | VPace rest => taken = drawn ++ map (make_surface lib) rest
  | VRaised _ => drawn `prefix_of` taken
  | _ => taken = drawn
  end.

(** The invariant of the queues: a queue holds what was put and not yet
    taken, in the order of the puts. *)
Definition fifo_inv w : Prop :=
  audio_puts (log (self w)) = audio_gets (log (self w)) ++ audio_queue (self w) /\
  video_puts (log (self w)) = video_gets (log (self w)) ++ video_queue (self w) /\
  audio_sink_at (audio_thread w)
    (map stream_payload (audio_gets (log (self w))))
    (stream_writes (log (self w))) /\
  video_sink_at (video_thread w)
    (map (make_surface lib) (concat (video_gets (log (self w)))))
    (blits (log (self w))).

(** Some call of the resolution function raised while the pool ran. *)
Definition stage_raised sched p (frames : list Frame) : Prop :=
  exists j e,
    tasks (pool_run (resolution_fn p) (saved_model p) sched frames
             (interpreter p)) !! j = Some (Finished (Raise e)).

(** A consumer that runs, or that has ended in the timeout of [get]. *)
Definition audio_alive (a : audio_pc) : Prop :=
  match a with
  | ANotStarted | AReturned => False
  | ARaised e => e = QueueEmpty
  | _ => True
  end.

(** The video consumer can also end in a sleep of negative length. *)
Definition video_alive (negative : Prop) (v : video_pc) : Prop :=
  match v with
  | VNotStarted | VReturned => False
  | VRaised e => e = QueueEmpty \/ (e = ValueError /\ negative)
  | _ => True
  end.

(** The audio thread by where [run] is: not started before [start()], and
    ended once [join()] has returned. *)
Definition audio_life_at (pc : producer_pc) (a : audio_pc) : Prop :=
  match pc with
  | PAcquire1 | PGuard1 | PRelease1 | PStartAudio => a = ANotStarted
  | PJoinVideo | PReturned => a = ARaised QueueEmpty
  | _ => audio_alive a
  end.

Definition video_life_at (negative : Prop) (pc : producer_pc)
    (v : video_pc) : Prop :=
  match pc with
  | PAcquire1 | PGuard1 | PRelease1 | PStartAudio | PStartVideo =>
      v = VNotStarted
  | PReturned => video_alive negative v /\ exists e, v = VRaised e
  | _ => video_alive negative v
  end.

(** The interval between two frames is below zero. *)
Definition interval_negative p : Prop :=
  exists d, frame_interval p = Ok d /\ (0 <=? d)%float = false.

Definition life_inv p0 w : Prop :=
  audio_life_at (main w) (audio_thread w) /\
  video_life_at (interval_negative p0) (main w) (video_thread w).

(** The surfaces drawn so far, by where the video consumer is, when the
    interval is negative. *)
Definition one_frame_at (v : video_pc) (drawn : nat) : Prop :=
  match v with
  | VPace _ | VRaised _ => drawn <= 1
  | _ => drawn = 0
  end.

(** The chunk and the batch [run] holds between the fetch and the puts. *)
Definition held_audio (pc : producer_pc) : list AudioChunk :=
  match pc with
  | PPutAudio _ _ audio _ => [audio]
  | _ => []
  end.

Definition held_video (pc : producer_pc) : list Frame :=
  match pc with
  | PPutAudio _ _ _ video | PPutVideo _ _ video => video
  | _ => []
  end.

Definition raised (pc : producer_pc) : bool :=
  match pc with
  | PRaised _ => true
  | _ => false
  end.

(** [seen] are the items pulled from an iterator that started as [clip]
    and has [left] now; after an exception more may have been pulled. *)
Definition pulled {A : Type} (pc : producer_pc) (clip seen left : list A)
  : Prop :=
  if raised pc then seen `prefix_of` clip else clip = seen ++ left.

(** [out] is what [saved_model_super_resolve] makes of a decoded frame. *)
Definition enhanced model (out frame : Frame) : Prop :=
  saved_model_super_resolve model (prepared frame) = Ok out.

(** The chunks fetched so far are the first chunks of the clip; on the
    SavedModel path the interpreter is as it was made and the frames
    fetched are the enhanced first frames of the clip. *)
Definition source_inv p0 w : Prop :=
  resolution_fn (self w) = resolution_fn p0 /\
  saved_model (self w) = saved_model p0 /\
  pulled (main w) (audio_iterator p0)
    (audio_puts (log (self w)) ++ held_audio (main w))
    (audio_iterator (self w)) /\
  (resolution_fn p0 = BySavedModel ->
   interpreter (self w) = interpreter p0 /\
   exists seen,
     Forall2 (enhanced (saved_model p0))
       (concat (video_puts (log (self w))) ++ held_video (main w)) seen /\
     pulled (main w) (video_iterator p0) seen (video_iterator (self w))).

(** The surface drawn for a decoded frame on the SavedModel path. *)
Definition shown model (surface frame : Frame) : Prop :=
  exists out, enhanced model out frame /\ surface = make_surface lib out.

(** [y] is the enhancement of one of [frames] by the model of [it0]. *)
Definition tflite_out (it0 : Interpreter) (frames : list Frame) (y : Frame)
  : Prop :=
  exists x out,
    x ∈ frames /\ invoke_model it0 x = Ok out /\ y = tf_clip_squeeze lib out.

(** The pool of a TFLite batch while its tasks run: the interpreter keeps
    its model; while a task is between [set_tensor] and [invoke] the input
    tensor holds a frame of the batch; while a task is between [invoke]
    and [get_tensor] the output tensor holds what the model makes of a
    frame of the batch; a result is the enhancement of a frame of the
    batch. *)
Definition own_batch (it0 : Interpreter) (frames : list Frame) s : Prop :=
  (exists it, shared s = Some it /\ invoke_model it = invoke_model it0) /\
  (forall i x, tasks s !! i = Some (Pending x) -> x ∈ frames) /\
  ((exists i, tasks s !! i = Some Invoking) ->
   exists it, shared s = Some it /\ input_tensor it ∈ frames) /\
  ((exists i, tasks s !! i = Some Reading) ->
   exists it x, shared s = Some it /\ x ∈ frames /\
     invoke_model it0 x = Ok (output_tensor it)) /\
  (forall i y, tasks s !! i = Some (Finished (Ok y)) -> tflite_out it0 frames y).

(** What [tflite_super_resolve] returns for a frame when no other call
    comes between its three. *)
Definition tflite_result (it0 : Interpreter) (x : Frame) : result Frame :=
  match invoke_model it0 x with
  | Ok out => Ok (tf_clip_squeeze lib out)
  | Raise e => Raise e
  end.

(** The pool when the tasks before [k] have run one after the other and
    the others have not started. *)
Definition served (it0 : Interpreter) (frames : list Frame) (k : nat) s : Prop :=
  length (tasks s) = length frames /\
  (exists it, shared s = Some it /\ invoke_model it = invoke_model it0) /\
  forall j x, frames !! j = Some x ->
    tasks s !! j
    = Some (if j <? k then Finished (tflite_result it0 x) else Pending x).

(** The queue, the dequeues and the sink of each consumer; what the
    producer works on; what no thread changes. *)
Definition audio_side p : list AudioChunk * list AudioChunk * list (list Z) :=
  (audio_queue p, audio_gets (log p), stream_writes (log p)).

Definition video_side p : list (list Frame) * list (list Frame) * list Frame :=
  (video_queue p, video_gets (log p), blits (log p)).

Definition producer_side p :=
  (audio_iterator p, video_iterator p, interpreter p, running p, lock p,
   audio_puts (log p), video_puts (log p)).

Definition clip_side p :=
  (video_fps p, video_duration p, tolerance p, saved_model p, screen_size p).

(** The steps of the video consumer on a queue: a test, a [get] and the
    end of the [for] for a batch, a draw and a sleep for a frame. *)
Fixpoint show_steps (q : list (list Frame)) : nat :=
  match q with
  | [] => 0
  | b :: rest => 2 * length b + 3 + show_steps rest
  end.

(** A session in which [run] works to its first [join], then the audio
    consumer to its end, then the video consumer to its end, then [run]
    to its return; [chunks] and [batches] are what the loop of [run]
    puts. *)
Definition whole_playback (chunks : nat) (batches : list (list Frame))
  : list label :=
  repeat (Run []) (6 + 4 * chunks + 4) ++
  repeat Audio (1 + (3 * chunks + 12)) ++
  repeat Video (1 + (show_steps batches + 12)) ++
  [Run []; Run []].

(** The frames [video_second] pulls for a second: [int(fps)], none when
    [int] raises. *)
Definition frames_per_second p : nat :=
  match py_int (video_fps p) with
  | Ok n => py_range n
  | Raise _ => 0
  end.

(** The fetches that have returned, by where [run] is; [total] is the
    number of iterations to make. *)
Definition fetched (pc : producer_pc) (total : nat) : nat :=
  match pc with
  | PAcquire1 | PGuard1 | PRelease1 | PStartAudio | PStartVideo | PRange => 0
  | PFetch i _ => i
  | PPutAudio i _ _ _ | PPutVideo i _ _ | PPause i _ => S i
  | PAcquire2 | PGuard2 | PRelease2 | PJoinAudio | PJoinVideo | PReturned =>
      total
  | PRaised _ => 0
  end.

(** While [run] has not raised, each fetch has taken one chunk and
    [int(fps)] frames from the front of the clip. *)
Definition cut_inv p0 w : Prop :=
  video_fps (self w) = video_fps p0 /\
  (raised (main w) = false ->
   audio_iterator (self w)
     = drop (fetched (main w) (iterations p0)) (audio_iterator p0) /\
   video_iterator (self w)
     = drop (fetched (main w) (iterations p0) * frames_per_second p0)
         (video_iterator p0)).

(** The exception [map] raises is that of one of the tasks. *)
Definition exn_from_task s : Prop :=
  forall e, first_exn s = Some e ->
    exists j, tasks s !! j = Some (Finished (Raise e)).

(** On the TFLite path a task ends in the exception the model raised on a
    frame of the batch. *)
Definition tflite_raise_ok (it0 : Interpreter) (frames : list Frame) s : Prop :=
  forall j e, tasks s !! j = Some (Finished (Raise e)) ->
    exists x, x ∈ frames /\ invoke_model it0 x = Raise e.

(** The resolution function of the player raises [e] on a decoded
    frame. *)
Definition resolution_raises p (frame : Frame) (e : exn) : Prop :=
  match resolution_fn p with
  | BySavedModel =>
      saved_model_super_resolve (saved_model p) (prepared frame) = Raise e
  | ByTflite =>
      exists it, interpreter p = Some it /\
        invoke_model it (prepared frame) = Raise e
  end.

(** The levels the main block lists, from the least to the most verbose. *)
Inductive log_level : Type := FATAL | WARNING | INFO | DEBUG.

Definition log_levels : list log_level := [FATAL; WARNING; INFO; DEBUG].

(** [l[k]] on a Python list: a negative index counts from the end;
    [None] stands for [IndexError]. *)
Definition py_getitem {A : Type} (l : list A) (k : Z) : option A :=
  if (0 <=? k)%Z then l !! Z.to_nat k
  else if (- Z.of_nat (length l) <=? k)%Z
       then l !! Z.to_nat (Z.of_nat (length l) + k)
       else None.

(** [log_levels[min(len(log_levels) - 1, FLAGS.verbose)]]; [verbose] is
    the number of [-v] flags. *)
Definition current_log_level (verbose : Z) : option log_level :=
  py_getitem log_levels (Z.min (Z.of_nat (length log_levels) - 1) verbose).

End Streamer.

Arguments Pending {Frame}.
Arguments Invoking {Frame}.
Arguments Reading {Frame}.
Arguments Finished {Frame}.
Arguments PFetch {Frame}.
Arguments PAcquire1 {Frame}.
Arguments PGuard1 {Frame}.
Arguments PGuard2 {Frame}.
Arguments PRaised {Frame}.
Arguments PReturned {Frame}.
Arguments VNotStarted {Frame}.
Arguments PRange {Frame}.
Arguments PAcquire2 {Frame}.
Arguments PJoinAudio {Frame}.
Arguments PJoinVideo {Frame}.
Arguments PStartAudio {Frame}.
Arguments PStartVideo {Frame}.
Arguments PRelease1 {Frame}.
Arguments PRelease2 {Frame}.
Arguments PPause {Frame}.
Arguments VBuffering {Frame}.
Arguments VTest {Frame}.
Arguments VGet {Frame}.
Arguments VReturned {Frame}.
Arguments VRaised {Frame}.

(** ** Sample sessions

    Frames stand as numbers; the image operations leave them as they are. *)

Definition sample_lib : Imaging nat :=
  {| resize_bicubic := fun _ _ frame => frame;
     expand_dims := fun frame => frame;
     np_clip_squeeze := fun frame => frame;
     tf_clip_squeeze := fun frame => frame;
     make_surface := fun frame => frame |}.

(** A TFLite model that adds 100 to a frame. *)
Definition sample_tflite : Interpreter nat :=
  {| invoke_model := fun x => Ok (x + 100);
     input_tensor := 0;
     output_tensor := 0 |}.

(** One second of two frames, played through the TFLite interpreter. *)
Definition tflite_player : Player nat :=
  Player_init 2 1 [1; 2] [[0.5%float]] (Some sample_tflite) None.

(** Both tasks call [set_tensor] before either calls [invoke]. *)
Definition race_schedule : list nat := [0; 1; 0; 0; 1; 1].

(** A SavedModel that doubles a frame and raises on frame 3. *)
Definition failing_model (x : nat) : result nat :=
  if x =? 3 then Raise ModelError else Ok (2 * x).

(** Two seconds of two frames; the model raises in the second one. *)
Definition failing_player : Player nat :=
  Player_init 2 2 [1; 2; 3; 4] [[0.5%float]; [0.25%float]] None
    (Some failing_model).

(** Two seconds of two frames and a SavedModel that doubles. *)
Definition doubling_player : Player nat :=
  Player_init 2 2 [1; 2; 3; 4] [[0.5%float]; [0.25%float]] None
    (Some (fun x => Ok (2 * x))).

(** Nine seconds of one frame, no model. *)
Definition plain_player : Player nat :=
  Player_init 1 9 [1; 2; 3; 4; 5; 6; 7; 8; 9] (repeat [0.5%float] 9) None None.

(** [run] alone for [n] steps, then the consumers in turn for [m] rounds. *)
Definition sample_schedule (n m : nat) : list label :=
  repeat (Run []) n ++ concat (repeat [Audio; Video] m).

(** Nine seconds at 500 frames a second: the interval is -0.25 ms. *)
Definition fast_player : Player nat :=
  Player_init 500 9 (seq 0 4500) (repeat [0.5%float] 9) None None.

(** Three seconds at half a frame a second. *)
Definition slow_player : Player nat :=
  Player_init 0.5 3 [1; 2] (repeat [0.5%float] 3) None None.

(** One second of two frames of which the clip has one. *)
Definition cut_player : Player nat :=
  Player_init 2 1 [1] [[0.5%float]] None None.

(** One second of two frames on the first of which the model raises. *)
Definition raising_player : Player nat :=
  Player_init 2 1 [3; 4] [[0.5%float]] None (Some failing_model).

(** The session of [fast_player] when the video consumer has drawn its
    first frame. *)
Definition fast_session : @World nat :=
  steps sample_lib (sample_schedule 45 4) (session fast_player).

(** * Facts *)

Section Facts.

Context {Frame : Type}.
Variable lib : Imaging Frame.

Abbreviation pool' := (@pool Frame).
Abbreviation task' := (@task Frame).
Abbreviation Player' := (Player Frame).
Abbreviation World' := (@World Frame).
Abbreviation event' := (event Frame).

Arguments pool_map : simpl never.
Arguments pool_run : simpl never.
Arguments video_second : simpl never.
Arguments fetch_pull : simpl never.

Implicit Types (s : pool') (fn : resolution) (i j : nat)
  (model : option (Frame -> result Frame)).

(** ** The pool: a step touches one task *)

Lemma task_step_length fn model i s :
  length (tasks (task_step lib fn model i s)) = length (tasks s).
Proof.
  unfold task_step, finish, move.
  repeat case_match; simpl; rewrite ?length_insert; reflexivity.
Qed.

Lemma task_step_other fn model i j s :
  i <> j -> tasks (task_step lib fn model i s) !! j = tasks s !! j.
Proof.
  intros Hij. unfold task_step, finish, move.
  repeat case_match; simpl; rewrite ?list_lookup_insert_ne by assumption;
    reflexivity.
Qed.

Lemma task_step_finished fn model i j r s :
  tasks s !! j = Some (Finished r) ->
  tasks (task_step lib fn model i s) !! j = Some (Finished r).
Proof.
  intros Hj. destruct (decide (i = j)) as [->|Hij].
  - unfold task_step. rewrite Hj. exact Hj.
  - rewrite task_step_other by assumption. exact Hj.
Qed.

Lemma advance_cases fn model i s :
  advance lib fn model i s = s \/
  advance lib fn model i s = task_step lib fn model i s.
Proof. unfold advance. repeat case_match; auto. Qed.

Lemma fold_left_preserves {A B : Type} (P : A -> Prop) (f : A -> B -> A) :
  (forall a b, P a -> P (f a b)) ->
  forall l a, P a -> P (fold_left f l a).
Proof.
  intros Hf l. induction l as [|b l IH]; simpl; intros a Ha.
  - exact Ha.
  - apply IH, Hf, Ha.
Qed.

(** Whatever holds at the start and after any one step holds when [map]
    is over, for every schedule. *)
Lemma pool_run_ind (P : pool' -> Prop) fn model sched frames it :
  P (pool_start frames it) ->
  (forall i s, P s -> P (task_step lib fn model i s)) ->
  P (pool_run lib fn model sched frames it).
Proof.
  intros H0 Hstep.
  assert (Hadv : forall i s, P s -> P (advance lib fn model i s)).
  { intros i s Hs. destruct (advance_cases fn model i s) as [-> | ->]; auto. }
  unfold pool_run, pool_join, serve, settle, run_schedule.
  apply fold_left_preserves; [intros; auto|].
  apply fold_left_preserves; [intros; auto|].
  apply fold_left_preserves; [intros; auto|].
  exact H0.
Qed.

Lemma pool_run_length fn model sched frames it :
  length (tasks (pool_run lib fn model sched frames it)) = length frames.
Proof.
  apply (pool_run_ind (fun s => length (tasks s) = length frames)).
  - simpl. apply length_fmap.
  - intros i s Hs. rewrite task_step_length. exact Hs.
Qed.

(** ** The pool: [map] comes back with every task done *)

Lemma lookup_insert_same (ts : list task') i t t' :
  ts !! i = Some t -> <[i := t']> ts !! i = Some t'.
Proof. intros H. apply list_lookup_insert_eq. eapply lookup_lt_Some, H. Qed.

Lemma advance_other fn model i j s :
  i <> j -> tasks (advance lib fn model i s) !! j = tasks s !! j.
Proof.
  intros Hij. destruct (advance_cases fn model i s) as [-> | ->].
  - reflexivity.
  - apply task_step_other, Hij.
Qed.

Lemma advance_idle fn model i s :
  (forall t, tasks s !! i = Some t -> busy t = false) ->
  advance lib fn model i s = s.
Proof.
  intros H. unfold advance.
  destruct (tasks s !! i) as [[x| | |r]|]; try reflexivity;
    specialize (H _ eq_refl); discriminate H.
Qed.

Lemma task_step_invoking fn model i s :
  tasks s !! i = Some Invoking ->
  tasks (task_step lib fn model i s) !! i = Some Reading \/
  finished_at (task_step lib fn model i s) i.
Proof.
  intros Hi. unfold task_step, finished_at. rewrite Hi.
  destruct (shared s) as [it|]; [destruct (invoke it) as [it'|e]|];
    unfold finish, move; simpl;
    rewrite (lookup_insert_same _ _ _ _ Hi); eauto.
Qed.

Lemma task_step_reading fn model i s :
  tasks s !! i = Some Reading ->
  finished_at (task_step lib fn model i s) i.
Proof.
  intros Hi. unfold task_step, finished_at. rewrite Hi.
  destruct (shared s) as [it|]; unfold finish; simpl;
    rewrite (lookup_insert_same _ _ _ _ Hi); eauto.
Qed.

Lemma task_step_pending fn model i s x :
  tasks s !! i = Some (Pending x) ->
  in_flight (tasks s) = 0 ->
  tasks (task_step lib fn model i s) !! i = Some Invoking \/
  finished_at (task_step lib fn model i s) i.
Proof.
  intros Hi H0. unfold task_step, finished_at. rewrite Hi, H0. simpl.
  destruct fn; [destruct (shared s) as [it|]|];
    unfold finish, move; simpl;
    rewrite (lookup_insert_same _ _ _ _ Hi); eauto.
Qed.

Lemma finished_quiet s j : finished_at s j -> quiet s j.
Proof. intros [r Hr] t Ht. rewrite Hr in Ht. injection Ht as <-. reflexivity. Qed.

Lemma advance_finished fn model i j s :
  finished_at s j -> finished_at (advance lib fn model i s) j.
Proof.
  intros [r Hr]. exists r.
  destruct (advance_cases fn model i s) as [-> | ->];
    [exact Hr | apply task_step_finished, Hr].
Qed.

Lemma advance_twice_quiet fn model i s :
  quiet (advance lib fn model i (advance lib fn model i s)) i.
Proof.
  destruct (tasks s !! i) as [[x| | |r]|] eqn:Hi.
  - rewrite (advance_idle _ _ _ s).
    + rewrite advance_idle; intros t; rewrite Hi; intros [= <-]; reflexivity.
    + intros t; rewrite Hi; intros [= <-]; reflexivity.
  - unfold advance at 2. rewrite Hi.
    destruct (task_step_invoking fn model i s Hi) as [Hr | Hf].
    + unfold advance. rewrite Hr.
      apply finished_quiet, task_step_reading, Hr.
    + apply finished_quiet, advance_finished, Hf.
  - unfold advance at 2. rewrite Hi.
    apply finished_quiet, advance_finished, task_step_reading, Hi.
  - apply finished_quiet, advance_finished, advance_finished. exists r. exact Hi.
  - rewrite (advance_idle _ _ _ s).
    + rewrite advance_idle; intros t; rewrite Hi; intros [=].
    + intros t; rewrite Hi; intros [=].
Qed.

Lemma advance_quiet fn model i j s :
  quiet s j -> quiet (advance lib fn model i (advance lib fn model i s)) j.
Proof.
  intros Hq. destruct (decide (i = j)) as [->|Hij].
  - apply advance_twice_quiet.
  - intros t. rewrite !advance_other by assumption. apply Hq.
Qed.

Lemma settle_sweep fn model (l : list nat) :
  forall s j, j ∈ l \/ quiet s j ->
    quiet (fold_left (fun s i => advance lib fn model i (advance lib fn model i s))
             l s) j.
Proof.
  induction l as [|i l IH]; simpl; intros s j Hj.
  - destruct Hj as [Hj|Hj]; [inversion Hj | exact Hj].
  - apply IH. destruct Hj as [Hj|Hj].
    + apply elem_of_cons in Hj as [-> | Hj]; [right | left; exact Hj].
      apply advance_twice_quiet.
    + right. apply advance_quiet, Hj.
Qed.

Lemma settle_quiet fn model s j : quiet (settle lib fn model s) j.
Proof.
  unfold settle. apply settle_sweep.
  destruct (decide (j < length (tasks s))) as [Hlt|Hge].
  - left. apply elem_of_seq. lia.
  - right. intros t Ht. apply lookup_lt_Some in Ht. lia.
Qed.

Lemma in_flight_quiet s : (forall j, quiet s j) -> in_flight (tasks s) = 0.
Proof.
  intros Hq.
  assert (H : Forall (fun t => busy t = false) (tasks s)).
  { apply Forall_lookup. intros j t Ht. exact (Hq j t Ht). }
  induction H as [|t ts Ht _ IH]; simpl; [reflexivity|].
  rewrite Ht, IH. reflexivity.
Qed.

Abbreviation step3 fn model i s :=
  (task_step lib fn model i (task_step lib fn model i (task_step lib fn model i s))).

Lemma step3_finishes fn model i s :
  (forall j, quiet s j) -> i < length (tasks s) -> finished_at (step3 fn model i s) i.
Proof.
  intros Hq Hi. apply lookup_lt_is_Some_2 in Hi as [t Ht].
  assert (Hfin : forall s', finished_at s' i ->
            finished_at (task_step lib fn model i s') i).
  { intros s' [r Hr]. exists r. apply task_step_finished, Hr. }
  destruct t as [x| | |r].
  - destruct (task_step_pending fn model i s x Ht (in_flight_quiet s Hq))
      as [H1 | H1]; [|auto].
    destruct (task_step_invoking fn model i _ H1) as [H2 | H2]; [|auto].
    apply task_step_reading, H2.
  - specialize (Hq i _ Ht). discriminate Hq.
  - specialize (Hq i _ Ht). discriminate Hq.
  - apply Hfin, Hfin, Hfin. exists r. exact Ht.
Qed.

Lemma step3_other fn model i j s :
  i <> j -> tasks (step3 fn model i s) !! j = tasks s !! j.
Proof. intros Hij. rewrite !task_step_other by assumption. reflexivity. Qed.

Lemma step3_length fn model i s :
  length (tasks (step3 fn model i s)) = length (tasks s).
Proof. rewrite !task_step_length. reflexivity. Qed.

Lemma serve_sweep fn model (l : list nat) :
  forall s, (forall j, quiet s j) -> (forall i, i ∈ l -> i < length (tasks s)) ->
    forall j, j ∈ l \/ finished_at s j ->
      finished_at
        (fold_left (fun s i => step3 fn model i s) l s) j.
Proof.
  induction l as [|i l IH]; simpl; intros s Hq Hl j Hj.
  - destruct Hj as [Hj|Hj]; [inversion Hj | exact Hj].
  - assert (Hfi : finished_at (step3 fn model i s) i).
    { apply step3_finishes; [exact Hq | apply Hl; left]. }
    apply IH.
    + intros k. destruct (decide (i = k)) as [<-|Hik].
      * apply finished_quiet, Hfi.
      * intros t. rewrite step3_other by assumption. apply Hq.
    + intros k Hk. rewrite step3_length. apply Hl. right. exact Hk.
    + destruct Hj as [Hj|[r Hr]].
      * apply elem_of_cons in Hj as [-> | Hj]; [right; exact Hfi | left; exact Hj].
      * right. exists r. do 3 apply task_step_finished. exact Hr.
Qed.

(** Every task is finished when [map] is over. *)
Lemma pool_run_finished fn model sched frames it j :
  j < length frames -> finished_at (pool_run lib fn model sched frames it) j.
Proof.
  intros Hj. unfold pool_run, pool_join, serve.
  set (s := settle lib fn model _).
  assert (Hlen : length (tasks s) = length frames).
  { unfold s, settle.
    apply (fold_left_preserves (fun s => length (tasks s) = length frames)).
    - intros a b Ha. destruct (advance_cases fn model b a) as [E|E].
      + rewrite E. destruct (advance_cases fn model b a) as [-> | ->];
          rewrite ?task_step_length; exact Ha.
      + destruct (advance_cases fn model b (advance lib fn model b a)) as [-> | ->];
          rewrite ?task_step_length;
          destruct (advance_cases fn model b a) as [-> | ->];
          rewrite ?task_step_length; exact Ha.
    - unfold run_schedule.
      apply (fold_left_preserves (fun s => length (tasks s) = length frames)).
      + intros a b Ha. rewrite task_step_length. exact Ha.
      + simpl. apply length_fmap. }
  apply serve_sweep.
  - intros k. apply settle_quiet.
  - intros i Hi. apply elem_of_seq in Hi. lia.
  - left. apply elem_of_seq. lia.
Qed.

(** ** The pool: exceptions and results *)

Lemma finish_keeps_exn i r s :
  first_exn s <> None -> first_exn (finish i r s) <> None.
Proof. unfold finish; simpl. destruct (first_exn s), r; congruence. Qed.

Lemma finish_raise_exn i e s : first_exn (finish i (Raise e) s) <> None.
Proof. unfold finish; simpl. destruct (first_exn s); congruence. Qed.

Lemma task_step_keeps_exn fn model i s :
  first_exn s <> None -> first_exn (task_step lib fn model i s) <> None.
Proof.
  intros H. unfold task_step.
  repeat case_match; try assumption; try (apply finish_keeps_exn, H).
Qed.

Lemma task_step_exn_recorded fn model i s :
  exn_recorded s -> exn_recorded (task_step lib fn model i s).
Proof.
  intros Hrec j e Hj. destruct (decide (i = j)) as [<-|Hij].
  - destruct (tasks s !! i) as [t|] eqn:Hi.
    + destruct t as [x| | |r].
      * revert Hj. unfold task_step. rewrite Hi.
        destruct (in_flight (tasks s) <? POOL_THREADS); [|congruence].
        destruct fn; [destruct (shared s)|];
          unfold finish, move; simpl;
          rewrite (lookup_insert_same _ _ _ _ Hi); intros [= Hr];
          try rewrite Hr; destruct (first_exn s); congruence.
      * revert Hj. unfold task_step. rewrite Hi.
        destruct (shared s) as [it|]; [destruct (invoke it)|];
          unfold finish, move; simpl;
          rewrite (lookup_insert_same _ _ _ _ Hi); intros [= Hr];
          destruct (first_exn s); congruence.
      * revert Hj. unfold task_step. rewrite Hi.
        destruct (shared s) as [it|];
          unfold finish, move; simpl;
          rewrite (lookup_insert_same _ _ _ _ Hi); intros [= Hr];
          destruct (first_exn s); congruence.
      * apply task_step_keeps_exn, (Hrec i e).
        revert Hj. unfold task_step. rewrite Hi. rewrite Hi. auto.
    + revert Hj. unfold task_step. rewrite Hi. rewrite Hi. congruence.
  - rewrite task_step_other in Hj by assumption.
    apply task_step_keeps_exn, (Hrec j e Hj).
Qed.

Lemma pool_run_exn_recorded fn model sched frames it :
  exn_recorded (pool_run lib fn model sched frames it).
Proof.
  apply pool_run_ind.
  - intros j e. simpl. rewrite list_lookup_fmap.
    destruct (frames !! j); simpl; congruence.
  - intros i s. apply task_step_exn_recorded.
Qed.

Lemma results_of_all_ok (ts : list task') :
  (forall j t, ts !! j = Some t -> exists y, t = Finished (Ok y)) ->
  length (results_of ts) = length ts /\
  forall j y, results_of ts !! j = Some y <-> ts !! j = Some (Finished (Ok y)).
Proof.
  induction ts as [|t ts IH]; intros Hall.
  - split; [reflexivity|]. intros j y. simpl. rewrite !lookup_nil. split; congruence.
  - destruct (Hall 0 t eq_refl) as [y0 ->].
    destruct IH as [IHlen IHnth].
    { intros j t Hj. apply (Hall (S j) t). exact Hj. }
    split; [simpl; rewrite IHlen; reflexivity|].
    intros [|j] y; simpl.
    + split; congruence.
    + apply IHnth.
Qed.

(** When [map] returns, the list has one result a frame, and the result
    at place [j] is the result of task [j]. *)
Lemma pool_map_returns fn model sched frames it ys it' :
  pool_map lib fn model sched frames it = (Ok ys, it') ->
  length ys = length frames /\
  forall j y, ys !! j = Some y <->
    tasks (pool_run lib fn model sched frames it) !! j = Some (Finished (Ok y)).
Proof.
  unfold pool_map, collect. set (s := pool_run lib fn model sched frames it).
  destruct (first_exn s) eqn:Hex; [congruence|]. intros [= <- _].
  destruct (results_of_all_ok (tasks s)) as [Hlen Hnth].
  - intros j t Hj.
    destruct (pool_run_finished fn model sched frames it j) as [r Hr].
    { apply lookup_lt_Some in Hj. unfold s in Hj.
      rewrite pool_run_length in Hj. exact Hj. }
    fold s in Hr. rewrite Hj in Hr. injection Hr as ->.
    destruct r as [y|e]; [eauto|].
    exfalso. apply (pool_run_exn_recorded fn model sched frames it j e); assumption.
  - split; [|exact Hnth].
    rewrite Hlen. apply pool_run_length.
Qed.

(** When a task ended in an exception, [map] raises. *)
Lemma pool_map_raises fn model sched frames it j e :
  tasks (pool_run lib fn model sched frames it) !! j = Some (Finished (Raise e)) ->
  exists e', fst (pool_map lib fn model sched frames it) = Raise e'.
Proof.
  intros Hj. unfold pool_map, collect; simpl.
  destruct (first_exn _) as [e'|] eqn:Hex; [eauto|].
  exfalso. apply (pool_run_exn_recorded fn model sched frames it j e); assumption.
Qed.

(** ** The pool on the SavedModel path: one step a task *)

Lemma task_step_one_call model frames i s :
  one_call lib model frames s ->
  one_call lib model frames (task_step lib BySavedModel model i s).
Proof.
  intros Hone j t Hj. destruct (decide (i = j)) as [<-|Hij].
  - destruct (tasks s !! i) as [t0|] eqn:Hi.
    + destruct (Hone i t0 Hi) as (x & Hx & [-> | ->]).
      * exists x. split; [exact Hx|]. revert Hj. unfold task_step. rewrite Hi.
        destruct (in_flight (tasks s) <? POOL_THREADS).
        -- unfold finish; simpl. rewrite (lookup_insert_same _ _ _ _ Hi).
           intros [= <-]. right. reflexivity.
        -- rewrite Hi. intros [= <-]. left. reflexivity.
      * exists x. split; [exact Hx|]. revert Hj. unfold task_step. rewrite Hi, Hi.
        intros [= <-]. right. reflexivity.
    + revert Hj. unfold task_step. rewrite Hi, Hi. congruence.
  - rewrite task_step_other in Hj by assumption. apply (Hone j t Hj).
Qed.

Lemma pool_run_one_call model sched frames it :
  one_call lib model frames (pool_run lib BySavedModel model sched frames it).
Proof.
  apply pool_run_ind.
  - intros j t. simpl. rewrite list_lookup_fmap.
    destruct (frames !! j) as [x|]; simpl; [|congruence].
    intros [= <-]. eauto.
  - intros i s. apply task_step_one_call.
Qed.

(** On the SavedModel path the result at place [j] is the resolution of
    frame [j], for every schedule. *)
Lemma pool_map_saved_model_order model sched frames it ys it' :
  pool_map lib BySavedModel model sched frames it = (Ok ys, it') ->
  length ys = length frames /\
  forall j x, frames !! j = Some x ->
    exists y, ys !! j = Some y /\ saved_model_super_resolve lib model x = Ok y.
Proof.
  intros Hmap. destruct (pool_map_returns _ _ _ _ _ _ _ Hmap) as [Hlen Hnth].
  split; [exact Hlen|]. intros j x Hx.
  destruct (ys !! j) as [y|] eqn:Hy.
  - exists y. split; [reflexivity|].
    apply Hnth in Hy.
    destruct (pool_run_one_call model sched frames it j _ Hy) as (x' & Hx' & [H|H]).
    + discriminate H.
    + rewrite Hx in Hx'. injection Hx' as <-. injection H as H. symmetry. exact H.
  - apply lookup_ge_None_1 in Hy. apply lookup_lt_Some in Hx. lia.
Qed.

(** A task that runs alone makes the three calls of
    [tflite_super_resolve] one after the other. *)
Lemma tflite_task_alone model i s x it :
  tasks s !! i = Some (Pending x) ->
  in_flight (tasks s) = 0 ->
  shared s = Some it ->
  tasks (step3 ByTflite model i s) !! i
    = Some (Finished (fst (tflite_super_resolve lib x it))) /\
  shared (step3 ByTflite model i s)
    = Some (snd (tflite_super_resolve lib x it)).
Proof.
  intros Hi H0 Hs.
  set (s1 := move i Invoking (set_tensor x it) s).
  assert (H1 : task_step lib ByTflite model i s = s1).
  { unfold task_step. rewrite Hi, H0, Hs. reflexivity. }
  assert (Hi1 : tasks s1 !! i = Some Invoking)
    by (apply (lookup_insert_same _ _ _ _ Hi)).
  assert (H2 : task_step lib ByTflite model i s1 =
               match invoke (set_tensor x it) with
               | Ok it' => move i Reading it' s1
               | Raise e => finish i (Raise e) s1
               end).
  { unfold task_step. rewrite Hi1. reflexivity. }
  rewrite H1, H2. unfold tflite_super_resolve.
  destruct (invoke (set_tensor x it)) as [it2|e].
  - assert (Hi2 : tasks (move i Reading it2 s1) !! i = Some Reading)
      by (apply (lookup_insert_same _ _ _ _ Hi1)).
    unfold task_step. rewrite Hi2. cbn [shared move finish tasks fst snd].
    split; [|reflexivity].
    apply (lookup_insert_same _ _ _ _ Hi2).
  - assert (Hi2 : tasks (finish i (Raise e) s1) !! i
                  = Some (Finished (Raise e)))
      by (apply (lookup_insert_same _ _ _ _ Hi1)).
    unfold task_step. rewrite Hi2. cbn [shared move finish tasks fst snd].
    split; [exact Hi2 | reflexivity].
Qed.

(** ** Fetching

    What [video_second] and [fetch_video] return, and what they leave
    alone. *)

Implicit Types (p : Player') (sched : list nat).

Lemma pulls_refl p : pulls p p.
Proof. repeat split. Qed.

Lemma pulls_trans p1 p2 p3 : pulls p1 p2 -> pulls p2 p3 -> pulls p1 p3.
Proof.
  unfold pulls. intros H1 H2.
  destruct H1 as (?&?&?&?&?&?&?&?&?&?), H2 as (?&?&?&?&?&?&?&?&?&?).
  repeat split; congruence.
Qed.

Lemma fetch_frames_enough n : forall acc p,
  n <= length (video_iterator p) ->
  exists p', fetch_frames lib n acc p =
    (Ok (acc ++ map (prepared lib) (take n (video_iterator p))), p') /\
    video_iterator p' = drop n (video_iterator p) /\
    audio_iterator p' = audio_iterator p /\
    interpreter p' = interpreter p /\
    pulls p p'.
Proof.
  induction n as [|n IH]; intros acc p Hn.
  - exists p. simpl. rewrite app_nil_r, drop_0.
    repeat split; reflexivity.
  - destruct (video_iterator p) as [|f rest] eqn:Hit; [simpl in Hn; lia|].
    simpl in Hn.
    destruct (IH (acc ++ [prepared lib f]) (set_video_iterator rest p))
      as (p' & Hrun & Hvi & Hai & Hint & Hp); [simpl; lia|].
    exists p'. simpl. unfold bind, next_video_frame. rewrite Hit. simpl.
    fold (prepared lib f). rewrite Hrun. simpl. rewrite <- app_assoc. simpl.
    repeat split; try assumption; apply Hp.
Qed.

Lemma fetch_frames_short n : forall acc p,
  length (video_iterator p) < n ->
  exists p', fetch_frames lib n acc p = (Raise StopIteration, p') /\
    audio_iterator p' = audio_iterator p /\
    interpreter p' = interpreter p /\
    pulls p p'.
Proof.
  induction n as [|n IH]; intros acc p Hn; [lia|].
  destruct (video_iterator p) as [|f rest] eqn:Hit.
  - exists p. simpl. unfold bind, next_video_frame. rewrite Hit. simpl.
    repeat split; reflexivity.
  - simpl in Hn.
    destruct (IH (acc ++ [prepared lib f]) (set_video_iterator rest p))
      as (p' & Hrun & Hai & Hint & Hp); [simpl; lia|].
    exists p'. simpl. unfold bind, next_video_frame. rewrite Hit. simpl.
    fold (prepared lib f). rewrite Hrun.
    repeat split; try assumption; apply Hp.
Qed.

Lemma fetch_frames_pulls n acc p :
  pulls p (snd (fetch_frames lib n acc p)) /\
  audio_iterator (snd (fetch_frames lib n acc p)) = audio_iterator p /\
  interpreter (snd (fetch_frames lib n acc p)) = interpreter p.
Proof.
  destruct (le_lt_dec n (length (video_iterator p))) as [Hle|Hlt].
  - destruct (fetch_frames_enough n acc p Hle) as (p' & -> & _ & ? & ? & ?).
    simpl. auto.
  - destruct (fetch_frames_short n acc p Hlt) as (p' & -> & ? & ? & ?).
    simpl. auto.
Qed.

Lemma fetch_frames_length n acc p frames p' :
  fetch_frames lib n acc p = (Ok frames, p') -> length frames = length acc + n.
Proof.
  intros Hrun.
  destruct (le_lt_dec n (length (video_iterator p))) as [Hle|Hlt].
  - destruct (fetch_frames_enough n acc p Hle) as (p1 & Hp1 & _).
    rewrite Hp1 in Hrun. injection Hrun as <- _.
    rewrite length_app, length_map, length_take. lia.
  - destruct (fetch_frames_short n acc p Hlt) as (p1 & Hp1 & _).
    rewrite Hp1 in Hrun. discriminate Hrun.
Qed.

(** The interpreter keeps its model through the pool. *)
Lemma pool_run_model fn model sched frames it :
  invoke_model <$> shared (pool_run lib fn model sched frames it) =
  invoke_model <$> it.
Proof.
  apply (pool_run_ind (fun s => invoke_model <$> shared s = invoke_model <$> it)).
  - reflexivity.
  - intros i s Hs. unfold task_step, finish, move, invoke, set_tensor.
    repeat case_match; simpl; try assumption; simplify_eq; simpl;
      rewrite <- Hs; simpl; reflexivity.
Qed.

Lemma pool_run_shared_saved_model model sched frames it :
  shared (pool_run lib BySavedModel model sched frames it) = it.
Proof.
  enough (H : shared (pool_run lib BySavedModel model sched frames it) = it /\
              one_call lib model frames
                (pool_run lib BySavedModel model sched frames it))
    by apply H.
  apply (pool_run_ind (fun s => shared s = it /\ one_call lib model frames s)).
  - split; [reflexivity|].
    intros j t. simpl. rewrite list_lookup_fmap.
    destruct (frames !! j) as [x|]; simpl; [|congruence].
    intros [= <-]. eauto.
  - intros i s [Hs Hone]. split; [|apply task_step_one_call, Hone].
    unfold task_step.
    destruct (tasks s !! i) as [t|] eqn:Hi; [|exact Hs].
    destruct (Hone i t Hi) as (x & _ & [-> | ->]); [|exact Hs].
    destruct (in_flight (tasks s) <? POOL_THREADS); exact Hs.
Qed.

(** [video_second] unfolded: the frames are pulled, then the pool runs. *)
Lemma video_second_eq sched p :
  video_second lib sched p =
  match py_int (video_fps p) with
  | Ok n =>
      match fetch_frames lib (py_range n) [] p with
      | (Ok frames, p1) =>
          (fst (pool_map lib (resolution_fn p) (saved_model p) sched frames
                  (interpreter p)),
           set_interpreter
             (snd (pool_map lib (resolution_fn p) (saved_model p) sched frames
                     (interpreter p))) p1)
      | (Raise e, p1) => (Raise e, p1)
      end
  | Raise e => (Raise e, p)
  end.
Proof.
  unfold video_second, bind.
  destruct (py_int (video_fps p)) as [n|e]; [|reflexivity].
  pose proof (fetch_frames_pulls (py_range n) [] p) as (Hp & _ & Hint).
  destruct (fetch_frames lib (py_range n) [] p) as [[frames|e] p1]; [|reflexivity].
  simpl in Hp, Hint.
  destruct Hp as (_ & _ & _ & _ & Hsm & _).
  unfold resolution_fn. rewrite Hint, Hsm.
  destruct (pool_map _ _ _ _ _ _) as [r it']. reflexivity.
Qed.

Lemma video_second_pulls sched p :
  pulls p (snd (video_second lib sched p)) /\
  audio_iterator (snd (video_second lib sched p)) = audio_iterator p.
Proof.
  rewrite video_second_eq.
  destruct (py_int (video_fps p)) as [n|e]; [|split; [apply pulls_refl|reflexivity]].
  pose proof (fetch_frames_pulls (py_range n) [] p) as (Hp & Hai & Hint).
  destruct (fetch_frames lib (py_range n) [] p) as [[frames|e] p1];
    simpl in *; [|auto].
  split; [|exact Hai].
  destruct Hp as (?&?&?&?&?&?&?&?&?&?).
  repeat split; simpl; try assumption.
  unfold pool_map; simpl. apply pool_run_model.
Qed.

Lemma py_range_of_nat (n : Z) : (0 <= n)%Z -> Z.of_nat (py_range n) = n.
Proof. intros H. unfold py_range. lia. Qed.

(** [video_second] returns as many frames as it pulls. *)
Lemma video_second_frames sched p n batch p' :
  py_int (video_fps p) = Ok n ->
  video_second lib sched p = (Ok batch, p') ->
  length batch = py_range n /\ py_range n <= length (video_iterator p).
Proof.
  intros Hn Hrun. rewrite video_second_eq, Hn in Hrun.
  destruct (le_lt_dec (py_range n) (length (video_iterator p))) as [Hle|Hlt].
  - destruct (fetch_frames_enough (py_range n) [] p Hle) as (p1 & Hp1 & _).
    rewrite Hp1 in Hrun. rewrite app_nil_l in Hrun.
    destruct (pool_map lib _ _ _ _ _) as [r it'] eqn:Hmap.
    injection Hrun as -> _.
    apply pool_map_returns in Hmap as [Hlen _].
    rewrite length_map, length_take in Hlen. lia.
  - destruct (fetch_frames_short (py_range n) [] p Hlt) as (p1 & Hp1 & _).
    rewrite Hp1 in Hrun. discriminate Hrun.
Qed.

(** The batch [video_second] makes from enough frames: the pool's result
    on the first [int(fps)] frames, prepared. *)
Lemma video_second_enough sched p n :
  py_int (video_fps p) = Ok n ->
  py_range n <= length (video_iterator p) ->
  exists p',
    video_second lib sched p =
      (fst (pool_map lib (resolution_fn p) (saved_model p) sched
              (map (prepared lib) (take (py_range n) (video_iterator p)))
              (interpreter p)), p') /\
    video_iterator p' = drop (py_range n) (video_iterator p).
Proof.
  intros Hn Hle. rewrite video_second_eq, Hn.
  destruct (fetch_frames_enough (py_range n) [] p Hle) as (p1 & Hp1 & Hvi & _).
  rewrite Hp1. rewrite app_nil_l. eexists. split; [reflexivity|]. exact Hvi.
Qed.

(** A fetch that raises has put nothing. *)
Lemma fetch_video_raise_untouched sched p e p' :
  fetch_video lib sched p = (Raise e, p') ->
  video_queue p' = video_queue p /\
  audio_queue p' = audio_queue p /\
  log p' = log p.
Proof.
  unfold fetch_video, bind, next_audio_chunk.
  destruct (py_next (audio_iterator p)) as [[audio rest]|e0].
  - pose proof (video_second_pulls sched (set_audio_iterator rest p)) as [Hp _].
    destruct (video_second lib sched _) as [[video|e1] p1]; simpl in *.
    + discriminate.
    + intros [= _ <-]. destruct Hp as (_&_&_&_&_&_&?&?&?&_). auto.
  - intros [= _ <-]. auto.
Qed.

(** A fetch that returns has put one chunk, then one batch. *)
Lemma fetch_video_returns sched p p' :
  fetch_video lib sched p = (Ok tt, p') ->
  exists audio video,
    video_second lib sched (set_audio_iterator (tail (audio_iterator p)) p)
      = (Ok video, set_video_queue (video_queue p)
                     (set_audio_queue (audio_queue p)
                        (Build_Player (video_fps p') (video_duration p')
                           (tolerance p') (running p') (interpreter p')
                           (saved_model p') (lock p') (video_iterator p')
                           (audio_iterator p') [] [] (screen_size p') (log p)))) /\
    head (audio_iterator p) = Some audio /\
    audio_queue p' = audio_queue p ++ [audio] /\
    video_queue p' = video_queue p ++ [video] /\
    log p' = EvVideoPut video :: EvAudioPut audio :: log p.
Proof.
  unfold fetch_video, bind, next_audio_chunk.
  destruct (audio_iterator p) as [|audio rest]; simpl; [discriminate|].
  pose proof (video_second_pulls sched (set_audio_iterator rest p)) as [Hp _].
  destruct (video_second lib sched _) as [[video|e1] p1]; simpl in *;
    [|discriminate].
  intros [= <-]. exists audio, video. simpl.
  destruct Hp as (_&_&_&_&_&_&Hvq&Haq&Hlog&_). simpl in *.
  rewrite Hvq, Haq, Hlog.
  repeat split. destruct p1; simpl in *. subst. reflexivity.
Qed.

(** *** A stage that never raises *)

Lemma never_raises_pulls p p' : pulls p p' -> never_raises p -> never_raises p'.
Proof.
  intros (_&_&_&_&Hsm&_&_&_&_&Hit) [H1 H2]. split.
  - intros call x Hc. rewrite Hsm in Hc. eauto.
  - intros it x Hi. rewrite Hi in Hit. simpl in Hit.
    destruct (interpreter p) as [it0|] eqn:Hi0; [|discriminate].
    simpl in Hit. injection Hit as Hit. rewrite Hit. eauto.
Qed.

Lemma pool_run_saved_model_no_exn model sched frames it :
  (forall call x, model = Some call -> exists y, call x = Ok y) ->
  first_exn (pool_run lib BySavedModel model sched frames it) = None.
Proof.
  intros Hsm.
  enough (H : first_exn (pool_run lib BySavedModel model sched frames it) = None /\
              one_call lib model frames (pool_run lib BySavedModel model sched frames it))
    by apply H.
  apply (pool_run_ind (fun s => first_exn s = None /\ one_call lib model frames s)).
  - split; [reflexivity|].
    intros j t; simpl; rewrite list_lookup_fmap.
    destruct (frames !! j) as [x|]; simpl; [|congruence].
    intros [= <-]; eauto.
  - intros i s [Hs Hone]; split; [|apply task_step_one_call, Hone].
    unfold task_step.
    destruct (tasks s !! i) as [t|] eqn:Hti; [|exact Hs].
    destruct (Hone i t Hti) as (x & _ & [-> | ->]); [|exact Hs].
    destruct (in_flight (tasks s) <? POOL_THREADS); [|exact Hs].
    unfold finish, saved_model_super_resolve; simpl; rewrite Hs.
    destruct model as [c|]; [|reflexivity].
    destruct (Hsm c x eq_refl) as [y ->]; reflexivity.
Qed.

Lemma pool_run_tflite_no_exn model sched frames it0 :
  (forall x, exists y, invoke_model it0 x = Ok y) ->
  first_exn (pool_run lib ByTflite model sched frames (Some it0)) = None.
Proof.
  intros Hit.
  enough (H : first_exn (pool_run lib ByTflite model sched frames (Some it0)) = None /\
              exists it', shared (pool_run lib ByTflite model sched frames (Some it0))
                          = Some it' /\ invoke_model it' = invoke_model it0)
    by apply H.
  apply (pool_run_ind (fun s => first_exn s = None /\
            exists it', shared s = Some it' /\ invoke_model it' = invoke_model it0)).
  - split; [reflexivity|]. exists it0. split; reflexivity.
  - intros i s (Hs & it' & Hsh & Hm). unfold task_step. rewrite Hsh.
    destruct (tasks s !! i) as [[x| | |r]|].
    + destruct (in_flight (tasks s) <? POOL_THREADS); [unfold move; simpl|];
        eauto.
    + unfold invoke. rewrite Hm.
      destruct (Hit (input_tensor it')) as [y ->].
      unfold move; simpl. eauto.
    + unfold finish; simpl. rewrite Hs. eauto.
    + eauto.
    + eauto.
Qed.

Lemma pool_map_never_raises sched frames p :
  never_raises p ->
  exists ys it', pool_map lib (resolution_fn p) (saved_model p) sched frames
                   (interpreter p) = (Ok ys, it').
Proof.
  intros [Hsm Hit]. unfold pool_map, collect.
  enough (H : first_exn (pool_run lib (resolution_fn p) (saved_model p) sched
                           frames (interpreter p)) = None)
    by (rewrite H; eauto).
  unfold resolution_fn.
  destruct (interpreter p) as [it0|] eqn:Hi.
  - destruct (saved_model p) as [call|] eqn:Hc.
    + apply pool_run_saved_model_no_exn. intros c x [= <-]. eauto.
    + apply pool_run_tflite_no_exn. intros x. eauto.
  - apply pool_run_saved_model_no_exn. intros c x Hcx.
    destruct (saved_model p); [|discriminate]. injection Hcx as <-. eauto.
Qed.

Lemma fetch_pause_ok : (0 <=? FETCH_PAUSE)%float = true.
Proof. reflexivity. Qed.

Lemma sleep_producer p :
  sleep Producer FETCH_PAUSE p = (Ok tt, emit (EvSleep Producer FETCH_PAUSE) p).
Proof. unfold sleep. rewrite fetch_pause_ok. reflexivity. Qed.

Lemma fetch_video_ok sched p n audio rest :
  never_raises p ->
  py_int (video_fps p) = Ok n ->
  audio_iterator p = audio :: rest ->
  py_range n <= length (video_iterator p) ->
  exists video p',
    fetch_video lib sched p = (Ok tt, p') /\
    length video = py_range n /\
    audio_iterator p' = rest /\
    video_iterator p' = drop (py_range n) (video_iterator p) /\
    audio_queue p' = audio_queue p ++ [audio] /\
    video_queue p' = video_queue p ++ [video] /\
    log p' = EvVideoPut video :: EvAudioPut audio :: log p /\
    video_fps p' = video_fps p /\
    video_duration p' = video_duration p /\
    never_raises p'.
Proof.
  intros Hnr Hn Hai Hle.
  unfold fetch_video, bind, next_audio_chunk. rewrite Hai. simpl.
  set (p1 := set_audio_iterator rest p).
  pose proof (video_second_pulls sched p1) as [Hp Hai1].
  destruct (video_second_enough sched p1 n Hn Hle) as (p2 & Hrun & Hvi).
  destruct (pool_map_never_raises sched
              (map (prepared lib) (take (py_range n) (video_iterator p1))) p1)
    as (ys & it' & Hmap); [exact Hnr|].
  rewrite Hmap in Hrun. simpl in Hrun. rewrite Hrun in Hp, Hai1 |- *.
  simpl in Hp, Hai1 |- *.
  apply pool_map_returns in Hmap as [Hlen _].
  rewrite length_map, length_take in Hlen.
  destruct Hp as (Hfps&Hdur&?&?&?&?&Hvq&Haq&Hlog&?).
  eexists ys, _. split; [reflexivity|]. simpl.
  rewrite Hvq, Haq, Hlog.
  assert (Hnr2 : never_raises p2).
  { apply (never_raises_pulls p1); [|exact Hnr].
    repeat split; simpl; assumption. }
  subst p1. simpl in *.
  split_and!; try assumption; try reflexivity; try lia.
Qed.

Lemma fetch_loop_ok oracle n k : forall i p,
  never_raises p ->
  py_int (video_fps p) = Ok n ->
  k <= length (audio_iterator p) ->
  k * py_range n <= length (video_iterator p) ->
  exists batches p',
    fetch_loop lib k i oracle p = (Ok tt, p') /\
    length batches = k /\
    Forall (fun b => length b = py_range n) batches /\
    audio_queue p' = audio_queue p ++ take k (audio_iterator p) /\
    video_queue p' = video_queue p ++ batches /\
    history p' =
      history p ++
      flat_map iteration_events (combine (take k (audio_iterator p)) batches).
Proof.
  induction k as [|k IH]; intros i p Hnr Hn Hka Hkv.
  - exists [], p. simpl. rewrite !app_nil_r. split_and!; try reflexivity.
    constructor.
  - destruct (audio_iterator p) as [|audio rest] eqn:Hai; [simpl in Hka; lia|].
    destruct (fetch_video_ok (oracle i) p n audio rest Hnr Hn Hai)
      as (video & p1 & Hrun & Hlen & Hai1 & Hvi1 & Haq1 & Hvq1 & Hlog1 &
          Hfps1 & _ & Hnr1); [simpl in Hkv; lia|].
    set (p2 := emit (EvSleep Producer FETCH_PAUSE) p1).
    destruct (IH (S i) p2) as (batches & p' & Hloop & Hb & Hall & Haq & Hvq & Hh).
    + exact Hnr1.
    + simpl. rewrite Hfps1. exact Hn.
    + simpl. rewrite Hai1. simpl in Hka. lia.
    + simpl. rewrite Hvi1, length_drop. simpl in Hkv. lia.
    + exists (video :: batches), p'.
      simpl. unfold bind. rewrite Hrun, sleep_producer. fold p2. rewrite Hloop.
      simpl in Haq, Hvq, Hh.
      rewrite Hai1 in Haq, Hh. rewrite Haq1 in Haq. rewrite Hvq1 in Hvq.
      split_and!.
      * reflexivity.
      * simpl. rewrite Hb. reflexivity.
      * constructor; assumption.
      * rewrite Haq, <- app_assoc. reflexivity.
      * rewrite Hvq, <- app_assoc. reflexivity.
      * rewrite Hh. unfold history, p2. simpl. rewrite Hlog1. simpl.
        rewrite <- !app_assoc. reflexivity.
Qed.

(** X3. Whatever the session, the loop of [run] logs whole iterations
    only (an audio put, a video put, a sleep): it returns when all [k] are
    made and raises when fewer are. *)
Theorem fetch_loop_whole_iterations oracle k : forall i p,
  exists made : list (AudioChunk * list Frame),
    history (snd (fetch_loop lib k i oracle p)) =
      history p ++ flat_map iteration_events made /\
    length made <= k /\
    (fst (fetch_loop lib k i oracle p) = Ok tt <-> length made = k).
Proof.
  induction k as [|k IH]; intros i p.
  - exists []. simpl. rewrite app_nil_r. split_and!; [reflexivity | lia |].
    split; reflexivity.
  - simpl. unfold bind.
    destruct (fetch_video lib (oracle i) p) as [[[]|e] p1] eqn:Hf.
    + destruct (fetch_video_returns _ _ _ Hf)
        as (audio & video & _ & _ & _ & _ & Hlog).
      rewrite sleep_producer.
      destruct (IH (S i) (emit (EvSleep Producer FETCH_PAUSE) p1))
        as (made & Hh & Hlen & Hiff).
      exists ((audio, video) :: made). simpl. split_and!.
      * rewrite Hh. unfold history. simpl. rewrite Hlog. simpl.
        rewrite <- !app_assoc. reflexivity.
      * lia.
      * rewrite Hiff. split; lia.
    + destruct (fetch_video_raise_untouched _ _ _ _ Hf) as (_ & _ & Hlog).
      exists []. simpl. unfold history. rewrite Hlog, app_nil_r.
      split_and!; [reflexivity | lia |]. split; [discriminate | lia].
Qed.

(** ** Sessions *)

Implicit Types (w : World') (l : label).

Lemma reachable_steps p0 ls : reachable lib p0 (steps lib ls (session p0)).
Proof.
  unfold steps. generalize (session p0) (reach_start lib p0).
  induction ls as [|l ls IH]; simpl; intros w Hw.
  - exact Hw.
  - apply IH. apply reach_step, Hw.
Qed.

Lemma steps_app ls1 ls2 w :
  steps lib (ls1 ++ ls2) w = steps lib ls2 (steps lib ls1 w).
Proof. unfold steps. apply fold_left_app. Qed.

Lemma fetch_pull_eq sched p :
  fetch_pull lib sched p =
  match py_next (audio_iterator p) with
  | Ok (audio, rest) =>
      match video_second lib sched (set_audio_iterator rest p) with
      | (Ok video, p') => (Ok (audio, video), p')
      | (Raise e, p') => (Raise e, p')
      end
  | Raise e => (Raise e, p)
  end.
Proof.
  unfold fetch_pull, bind, next_audio_chunk.
  destruct (py_next (audio_iterator p)) as [[audio rest]|e]; [|reflexivity].
  destruct (video_second lib sched _) as [[video|e] p']; reflexivity.
Qed.

Lemma fetch_pull_pulls sched p : pulls p (snd (fetch_pull lib sched p)).
Proof.
  rewrite fetch_pull_eq.
  destruct (py_next (audio_iterator p)) as [[audio rest]|e]; [|apply pulls_refl].
  pose proof (video_second_pulls sched (set_audio_iterator rest p)) as [Hp _].
  destruct (video_second lib sched _) as [[video|e] p']; exact Hp.
Qed.

Lemma fetch_pull_batch sched p audio video p' :
  fetch_pull lib sched p = (Ok (audio, video), p') ->
  exists n, py_int (video_fps p) = Ok n /\ length video = py_range n.
Proof.
  rewrite fetch_pull_eq.
  destruct (py_next (audio_iterator p)) as [[a rest]|e]; [|discriminate].
  destruct (video_second lib sched _) as [[v|e] p1] eqn:Hv; [|discriminate].
  intros [= -> -> ->].
  destruct (py_int (video_fps p)) as [n|e] eqn:Hn.
  - exists n. split; [reflexivity|].
    apply (video_second_frames sched (set_audio_iterator rest p) n _ _ Hn Hv).
  - rewrite video_second_eq in Hv. simpl in Hv. rewrite Hn in Hv. discriminate.
Qed.

(** The fetch of the step relation and the two puts make [fetch_video]. *)
Lemma fetch_video_pull sched p :
  fetch_video lib sched p =
  match fetch_pull lib sched p with
  | (Ok (audio, video), p') =>
      put_video video (snd (put_audio audio p'))
  | (Raise e, p') => (Raise e, p')
  end.
Proof.
  unfold fetch_video, fetch_pull, bind.
  destruct (next_audio_chunk p) as [[audio|e] p1]; [|reflexivity].
  destruct (video_second lib sched p1) as [[video|e] p2]; reflexivity.
Qed.

Lemma Player_init_new clip_fps clip_duration clip_frames clip_chunks tflite model :
  new_player (Player_init clip_fps clip_duration clip_frames clip_chunks tflite model).
Proof. repeat split. Qed.

(** Case analysis on one step of a world. *)
Ltac fetch_case sched w :=
  let Hf := fresh "Hfetch" in
  let Hp := fresh "Hpulls" in
  pose proof (fetch_pull_pulls sched (self w)) as Hp;
  destruct (fetch_pull lib sched (self w)) as [[[? ?]|?] ?] eqn:Hf;
  cbn [snd] in Hp;
  destruct Hp as (?&?&?&?&?&?&?&?&?&?).

Ltac place w :=
  try match goal with H : main w = _ |- _ => rewrite H in * end;
  try match goal with H : audio_thread w = _ |- _ => rewrite H in * end;
  try match goal with H : video_thread w = _ |- _ => rewrite H in * end.

Ltac step_cases l w :=
  let sched := fresh "sched" in
  destruct l as [sched| |]; cbn [step];
  [ unfold run_step; destruct (main w) eqn:?;
    try match goal with
        | |- context [fetch_pull lib sched (self w)] =>
            match goal with
            | |- context [?i <? ?n] => destruct (i <? n) eqn:?
            end; [fetch_case sched w|]
        end;
    rewrite ?sleep_producer; unfold start_transition
  | unfold write_audio_stream_step; destruct (audio_thread w) eqn:?
  | unfold write_video_stream_step, present, frame_interval, sleep;
    destruct (video_thread w) eqn:? ];
  repeat (place w; cbn -[count audio_leads preceded_by Nat.ltb concat] in *; case_match);
  place w; simplify_eq; cbn -[count audio_leads preceded_by Nat.ltb concat] in *.

(** ** C10: the audio put comes first *)

Lemma order_at_bounds (pc : @producer_pc Frame) a v : order_at pc a v -> v <= a /\ a <= v + 1.
Proof. destruct pc; simpl; lia. Qed.

Lemma order_inv_step l w : order_inv w -> order_inv (step lib l w).
Proof.
  unfold order_inv.
  step_cases l w; intros [Hlead Hcount];
    repeat match goal with H : log _ = log _ |- _ => rewrite H in * end;
    try (split; assumption);
    try (apply order_at_bounds in Hcount as Hb);
    unfold order_at in *; cbn in *;
    try (split; [try split; try assumption; lia | lia]);
    repeat split; try assumption; try lia.
Qed.

Lemma order_inv_reachable p0 w :
  new_player p0 -> reachable lib p0 w -> order_inv w.
Proof.
  intros (Hlog & _) Hreach. induction Hreach as [|l w _ IH].
  - unfold order_inv. simpl. rewrite Hlog. simpl. auto.
  - apply order_inv_step, IH.
Qed.

(** ** C2: nothing is drained before the eighth put *)

Lemma gate_inv_step l w : gate_inv w -> gate_inv (step lib l w).
Proof.
  unfold gate_inv.
  step_cases l w; intros (Ha & Hv & Hqa & Hqv & Hga & Hgv);
    repeat match goal with
           | H : log _ = log _ |- _ => rewrite H in *
           | H : audio_queue _ = audio_queue _ |- _ => rewrite H in *
           | H : video_queue _ = video_queue _ |- _ => rewrite H in *
           | H : audio_queue _ = _ :: _ |- _ => rewrite H in *
           | H : video_queue _ = _ :: _ |- _ => rewrite H in *
           | H : audio_queue _ = [] |- _ => rewrite H in *
           | H : video_queue _ = [] |- _ => rewrite H in *
           | H : (_ <? _) = false |- _ => apply Nat.ltb_ge in H
           end;
    unfold audio_gate_at, video_gate_at in *; place w;
    rewrite ?length_app in *; cbn -[Nat.ltb] in *;
    try (split_and!; try assumption; try lia; try (intros; discriminate);
         try (intros _; assumption); fail).
  all: try (destruct (audio_thread w)); try (destruct (video_thread w));
    split_and!; try assumption; try lia; try (intros; discriminate);
    try (intros _; assumption).
Qed.

Lemma gate_inv_reachable p0 w :
  new_player p0 -> reachable lib p0 w -> gate_inv w.
Proof.
  intros (Hlog & Haq & Hvq & _) Hreach. induction Hreach as [|l w _ IH].
  - unfold gate_inv. simpl. rewrite Hlog, Haq, Hvq. simpl. split_and!; auto.
  - apply gate_inv_step, IH.
Qed.

(** ** C8: the run flag *)

Lemma flag_inv_step l w : flag_inv w -> flag_inv (step lib l w).
Proof.
  unfold flag_inv.
  step_cases l w; intros Hf;
    repeat match goal with
           | H : log _ = log _ |- _ => rewrite H in *
           | H : running _ = running _ |- _ => rewrite H in *
           | H : lock _ = lock _ |- _ => rewrite H in *
           | H : lock _ = true |- _ => rewrite H in *
           | H : lock _ = false |- _ => rewrite H in *
           | H : running _ = true |- _ => rewrite H in *
           | H : running _ = false |- _ => rewrite H in *
           end;
    unfold flag_at in *; place w; cbn in *;
    try (destruct Hf as (? & ? & ?); split_and!; congruence);
    try assumption.
  all: destruct (main w); cbn in *; assumption.
Qed.

Lemma flag_inv_reachable p0 w :
  new_player p0 -> reachable lib p0 w -> flag_inv w.
Proof.
  intros (Hlog & _ & _ & Hrun & Hlock & _) Hreach.
  induction Hreach as [|l w _ IH].
  - unfold flag_inv. simpl. rewrite Hlog, Hrun, Hlock. simpl. auto.
  - apply flag_inv_step, IH.
Qed.

(** The flag is not cleared by any step. *)
Lemma running_stays l w :
  running (self w) = true -> running (self (step lib l w)) = true.
Proof.
  step_cases l w; intros Hr;
    repeat match goal with
           | H : running _ = running _ |- _ => rewrite H in *
           end;
    try assumption; try reflexivity; try congruence.
Qed.

(** ** C9: the timeout of [get] *)

Lemma wait_inv_step l w : wait_inv w -> wait_inv (step lib l w).
Proof.
  unfold wait_inv.
  step_cases l w; intros [Ha Hv];
    repeat match goal with
           | H : (_ <? _) = true |- _ => apply Nat.ltb_lt in H
           end;
    try (split; assumption);
    split; intros t Ht; place w; simplify_eq; try lia; auto;
    unfold GET_TIMEOUT in *; lia.
Qed.

Lemma wait_inv_reachable p0 w : reachable lib p0 w -> wait_inv w.
Proof.
  intros Hreach. induction Hreach as [|l w _ IH].
  - split; intros t Ht; discriminate Ht.
  - apply wait_inv_step, IH.
Qed.

(** A consumer that has raised stays so, and drains nothing more. *)
Lemma audio_raised_step l w e :
  audio_thread w = ARaised e ->
  audio_thread (step lib l w) = ARaised e /\
  count is_audio_drain (log (self (step lib l w))) =
  count is_audio_drain (log (self w)).
Proof.
  step_cases l w; intros Hr;
    repeat match goal with
           | H : log _ = log _ |- _ => rewrite H in *
           end;
    simplify_eq; split; try reflexivity; try assumption.
Qed.

Lemma video_raised_step l w e :
  video_thread w = VRaised e ->
  video_thread (step lib l w) = VRaised e /\
  count is_video_drain (log (self (step lib l w))) =
  count is_video_drain (log (self w)).
Proof.
  step_cases l w; intros Hr;
    repeat match goal with
           | H : log _ = log _ |- _ => rewrite H in *
           end;
    simplify_eq; split; try reflexivity; try assumption.
Qed.

Lemma audio_raised_forever ls : forall w e,
  audio_thread w = ARaised e ->
  audio_thread (steps lib ls w) = ARaised e /\
  count is_audio_drain (log (self (steps lib ls w))) =
  count is_audio_drain (log (self w)).
Proof.
  induction ls as [|l ls IH]; intros w e Hr; [split; [exact Hr | reflexivity]|].
  destruct (audio_raised_step l w e Hr) as [H1 H2].
  destruct (IH _ e H1) as [H3 H4].
  split; [exact H3|]. unfold steps in *. simpl. rewrite H4. exact H2.
Qed.

Lemma video_raised_forever ls : forall w e,
  video_thread w = VRaised e ->
  video_thread (steps lib ls w) = VRaised e /\
  count is_video_drain (log (self (steps lib ls w))) =
  count is_video_drain (log (self w)).
Proof.
  induction ls as [|l ls IH]; intros w e Hr; [split; [exact Hr | reflexivity]|].
  destruct (video_raised_step l w e Hr) as [H1 H2].
  destruct (IH _ e H1) as [H3 H4].
  split; [exact H3|]. unfold steps in *. simpl. rewrite H4. exact H2.
Qed.

(** Once [run] has raised nothing more is put. *)
Lemma main_raised_step l w e :
  main w = PRaised e ->
  main (step lib l w) = PRaised e /\
  video_puts (log (self (step lib l w))) = video_puts (log (self w)) /\
  audio_puts (log (self (step lib l w))) = audio_puts (log (self w)).
Proof.
  step_cases l w; intros Hr;
    repeat match goal with
           | H : log _ = log _ |- _ => rewrite H in *
           end;
    simplify_eq; split_and!; try reflexivity; try assumption.
Qed.

Lemma main_raised_forever ls : forall w e,
  main w = PRaised e ->
  main (steps lib ls w) = PRaised e /\
  video_puts (log (self (steps lib ls w))) = video_puts (log (self w)) /\
  audio_puts (log (self (steps lib ls w))) = audio_puts (log (self w)).
Proof.
  induction ls as [|l ls IH]; intros w e Hr; [split_and!; [exact Hr | | ]; reflexivity|].
  destruct (main_raised_step l w e Hr) as (H1 & H2 & H3).
  destruct (IH _ e H1) as (H4 & H5 & H6).
  split_and!; [exact H4 | |]; unfold steps in *; simpl; congruence.
Qed.

(** ** C7: the pace of the display *)

Lemma py_int_positive_live x n : py_int x = Ok n -> (0 < n)%Z -> live x.
Proof.
  unfold live, py_int, py_div.
  destruct (Prim2SF x); intros H Hn; simplify_eq; eauto; exfalso; lia.
Qed.

Lemma fetch_pull_batch_ok sched p audio video p' :
  fetch_pull lib sched p = (Ok (audio, video), p') ->
  batch_ok (video_fps p) video.
Proof.
  intros Hf Hne.
  destruct (fetch_pull_batch sched p audio video p' Hf) as (n & Hn & Hlen).
  apply (py_int_positive_live _ n Hn).
  destruct video; [congruence|]. simpl in Hlen. unfold py_range in Hlen. lia.
Qed.

Lemma pace_inv_step p0 l w : pace_inv p0 w -> pace_inv p0 (step lib l w).
Proof.
  unfold pace_inv.
  step_cases l w; intros (Hfps & Htol & Hq & Hm & Hvt & Hs);
    try match goal with
        | H : fetch_pull _ _ _ = (Ok _, _) |- _ =>
            apply fetch_pull_batch_ok in H; rewrite Hfps in H
        end;
    repeat match goal with
           | H : log _ = log _ |- _ => rewrite H in *
           | H : video_fps _ = video_fps (self w) |- _ => rewrite H in *
           | H : tolerance _ = tolerance (self w) |- _ => rewrite H in *
           | H : video_queue _ = video_queue _ |- _ => rewrite H in *
           | H : video_queue _ = _ :: _ |- _ => rewrite H in *
           | H : video_queue _ = [] |- _ => rewrite H in *
           end;
    unfold pace_at_main, pace_at_video in *; place w; cbn in *;
    try (split_and!; try assumption; try exact I; fail).
  all: try match goal with
           | |- context [main ?w'] => destruct (main w'); cbn in *
           end;
       try match goal with
           | |- context [video_thread ?w'] => destruct (video_thread w'); cbn in *
           end.
  all: split_and!; try assumption; try exact I;
    try (intros d Hd; repeat (destruct Hd as [Hd|Hd]; [try discriminate Hd|]);
         try (apply Hs; assumption));
    try (apply Forall_app; split; [assumption | repeat constructor; assumption]);
    try (inversion Hq; subst; assumption);
    try (apply Hvt; discriminate);
    try (intros _; exact Hvt);
    try (injection Hd as <-; unfold paced, frame_interval;
         rewrite <- Hfps, <- Htol;
         match goal with H : py_div _ _ = Ok _ |- _ => rewrite H end;
         reflexivity).
Qed.

Lemma pace_inv_reachable p0 w :
  new_player p0 -> reachable lib p0 w -> pace_inv p0 w.
Proof.
  intros (Hlog & _ & Hvq & _) Hreach. induction Hreach as [|l w _ IH].
  - unfold pace_inv. simpl. rewrite Hlog, Hvq. simpl.
    split_and!; auto. intros d [].
  - apply pace_inv_step, IH.
Qed.

(** ** The iterations of [run] *)

Lemma iterations_eq p p0 d :
  video_duration p = video_duration p0 ->
  py_int (video_duration p) = Ok d -> iterations p0 = py_range d.
Proof. unfold iterations. intros <- ->. reflexivity. Qed.

Lemma iter_inv_step p0 l w : iter_inv p0 w -> iter_inv p0 (step lib l w).
Proof.
  unfold iter_inv. generalize (iterations_eq (self w) p0).
  generalize (iterations p0). intros total Htotal.
  step_cases l w; intros (Hd & Hat);
    repeat match goal with
           | H : log _ = log _ |- _ => rewrite H in *
           | H : video_duration _ = video_duration (self w) |- _ => rewrite H in *
           | H : (_ <? _) = true |- _ => apply Nat.ltb_lt in H
           | H : (_ <? _) = false |- _ => apply Nat.ltb_ge in H
           end;
    (split; [exact Hd|]);
    unfold iter_at in *; place w; cbn -[Nat.ltb] in *;
    try assumption; try lia.
  pose proof (Htotal _ Hd eq_refl). lia.
Qed.

Lemma iter_inv_reachable p0 w :
  new_player p0 -> reachable lib p0 w -> iter_inv p0 w.
Proof.
  intros (Hlog & _) Hreach. induction Hreach as [|l w _ IH].
  - unfold iter_inv. simpl. rewrite Hlog. simpl. auto.
  - apply iter_inv_step, IH.
Qed.

(** ** First in, first out: what reaches the sinks *)

Lemma fifo_inv_step l w : fifo_inv lib w -> fifo_inv lib (step lib l w).
Proof.
  unfold fifo_inv.
  step_cases l w; intros (Ha & Hv & Hsa & Hsv);
    repeat match goal with
           | H : log _ = log _ |- _ => rewrite H in *
           | H : audio_queue _ = audio_queue _ |- _ => rewrite H in *
           | H : video_queue _ = video_queue _ |- _ => rewrite H in *
           | H : audio_queue _ = _ :: _ |- _ => rewrite H in *
           | H : video_queue _ = _ :: _ |- _ => rewrite H in *
           | H : audio_queue _ = [] |- _ => rewrite H in *
           | H : video_queue _ = [] |- _ => rewrite H in *
           end;
    unfold audio_sink_at, video_sink_at in *; place w;
    cbn -[Nat.ltb] in *;
    try (split_and!; assumption).
  all: split_and!; try assumption;
    rewrite ?map_app, ?concat_app, <- ?app_assoc; simpl;
    rewrite ?app_nil_r in *; try assumption; try congruence;
    try (exists []; rewrite app_nil_r; congruence);
    try (eexists; eassumption).
  - rewrite Ha, <- app_assoc. reflexivity.
  - rewrite Hv, <- app_assoc. reflexivity.
  - rewrite map_app, Hsv. reflexivity.
Qed.

Lemma fifo_inv_reachable p0 w :
  new_player p0 -> reachable lib p0 w -> fifo_inv lib w.
Proof.
  intros (Hlog & Haq & Hvq & _) Hreach. induction Hreach as [|l w _ IH].
  - unfold fifo_inv. simpl. rewrite Hlog, Haq, Hvq. simpl. auto.
  - apply fifo_inv_step, IH.
Qed.

Lemma audio_sink_prefix (pc : audio_pc) taken written :
  audio_sink_at pc taken written -> written `prefix_of` taken.
Proof.
  destruct pc; simpl; intros ->; try reflexivity.
  eexists. reflexivity.
Qed.

Lemma video_sink_prefix (pc : @video_pc Frame) taken drawn :
  video_sink_at lib pc taken drawn -> drawn `prefix_of` taken.
Proof.
  destruct pc; simpl; try (intros ->; reflexivity);
    try (intros ->; eexists; reflexivity); auto.
Qed.

(** * The claims *)

Lemma count_app (f : event' -> bool) (evs1 evs2 : list event') :
  count f (evs1 ++ evs2) = count f evs1 + count f evs2.
Proof.
  induction evs1 as [|ev evs1 IH]; simpl; [reflexivity|]. rewrite IH. lia.
Qed.

Lemma count_rev (f : event' -> bool) (evs : list event') :
  count f (rev evs) = count f evs.
Proof.
  induction evs as [|ev evs IH]; simpl; [reflexivity|].
  rewrite count_app, IH. simpl. lia.
Qed.

Lemma count_iterations (abs : list (AudioChunk * list Frame)) :
  count is_audio_put (flat_map iteration_events abs) = length abs /\
  count is_video_put (flat_map iteration_events abs) = length abs.
Proof.
  induction abs as [|ab abs [IHa IHv]]; simpl; [split; reflexivity|].
  rewrite IHa, IHv. split; reflexivity.
Qed.

(** C1, as amended. In a session whose stage never raises and whose
    source has [int(duration)] chunks and [int(duration) * int(fps)]
    frames, the loop of [run] returns after exactly [int(duration)]
    iterations, and each iteration puts exactly one chunk on the audio
    queue and then one batch on the video queue, in the order of the
    source. *)
Theorem run_fetch_loop_complete oracle p d n :
  never_raises p ->
  py_int (video_duration p) = Ok d ->
  py_int (video_fps p) = Ok n ->
  py_range d <= length (audio_iterator p) ->
  py_range d * py_range n <= length (video_iterator p) ->
  exists batches p',
    run_fetch_loop lib oracle p = (Ok tt, p') /\
    length batches = py_range d /\
    Forall (fun b => length b = py_range n) batches /\
    history p' =
      history p ++
      flat_map iteration_events
        (combine (take (py_range d) (audio_iterator p)) batches) /\
    count is_audio_put (log p') = count is_audio_put (log p) + py_range d /\
    count is_video_put (log p') = count is_video_put (log p) + py_range d /\
    audio_queue p' = audio_queue p ++ take (py_range d) (audio_iterator p) /\
    video_queue p' = video_queue p ++ batches.
Proof.
  intros Hnr Hd Hn Ha Hv.
  destruct (fetch_loop_ok oracle n (py_range d) 0 p Hnr Hn Ha Hv)
    as (batches & p' & Hrun & Hlen & Hall & Haq & Hvq & Hh).
  exists batches, p'. unfold run_fetch_loop, bind. rewrite Hd, Hrun.
  assert (Hc : length (combine (take (py_range d) (audio_iterator p)) batches)
               = py_range d).
  { rewrite length_combine, length_take, Hlen. lia. }
  destruct (count_iterations
              (combine (take (py_range d) (audio_iterator p)) batches))
    as [Hca Hcv].
  split_and!; try assumption; try reflexivity.
  - rewrite <- (count_rev _ (log p')). fold (history p'). rewrite Hh.
    rewrite count_app, Hca, Hc. unfold history. rewrite count_rev. reflexivity.
  - rewrite <- (count_rev _ (log p')). fold (history p'). rewrite Hh.
    rewrite count_app, Hcv, Hc. unfold history. rewrite count_rev. reflexivity.
Qed.

Lemma preceded_by_split (f g : event' -> bool) n (evs : list event') :
  preceded_by f g n evs ->
  forall later ev before, evs = later ++ ev :: before ->
    f ev = true -> n <= count g before.
Proof.
  intros Hl later. revert evs Hl.
  induction later as [|ev' later IH]; intros evs Hl ev before ->; simpl in Hl.
  - apply Hl.
  - apply (IH _ (proj2 Hl) ev before eq_refl).
Qed.

(** C2. In every session, whatever the interleaving, an event of the
    audio consumer (a dequeue or a write to the stream) has at least 8
    audio puts before it, and an event of the video consumer (a dequeue or
    a call on the display) has at least 8 video puts before it. *)
Theorem consumers_wait_for_buffer clip_fps clip_duration clip_frames
    clip_chunks tflite model ls later ev before :
  log (self (steps lib ls
               (session (Player_init clip_fps clip_duration clip_frames
                           clip_chunks tflite model))))
    = later ++ ev :: before ->
  BUFFER_SIZE = 8 /\
  (is_audio_drain ev = true -> 8 <= count is_audio_put before) /\
  (is_video_drain ev = true -> 8 <= count is_video_put before).
Proof.
  intros Hlog.
  pose proof (gate_inv_reachable _ _
                (Player_init_new clip_fps clip_duration clip_frames
                   clip_chunks tflite model)
                (reachable_steps _ ls)) as (Ha & Hv & _).
  split_and!; [reflexivity | |].
  - apply (preceded_by_split _ _ _ _ Ha _ _ _ Hlog).
  - apply (preceded_by_split _ _ _ _ Hv _ _ _ Hlog).
Qed.

(** C4. Every batch [video_second] returns has exactly [int(fps)] frames,
    whichever second it is: the loop pulls [int(fps)] frames each time, and
    when fewer are left (a partial last second) no shorter batch is made,
    [next] raises [StopIteration]. *)
Theorem video_second_batch_size sched p n :
  py_int (video_fps p) = Ok n ->
  (forall batch p', video_second lib sched p = (Ok batch, p') ->
     length batch = py_range n /\
     ((0 <= n)%Z -> Z.of_nat (length batch) = n) /\
     py_range n <= length (video_iterator p)) /\
  (length (video_iterator p) < py_range n ->
     exists p', video_second lib sched p = (Raise StopIteration, p')).
Proof.
  intros Hn. split.
  - intros batch p' Hrun.
    destruct (video_second_frames sched p n batch p' Hn Hrun) as [Hlen Hle].
    split_and!; [exact Hlen | | exact Hle].
    intros H0. rewrite Hlen. apply py_range_of_nat, H0.
  - intros Hlt. rewrite video_second_eq, Hn.
    destruct (fetch_frames_short (py_range n) [] p Hlt) as (p1 & Hp1 & _).
    rewrite Hp1. eauto.
Qed.

(** On the SavedModel path the stage has raised as soon as the resolution
    of one frame of the batch raises, whatever the schedule. *)
Lemma saved_model_raise_stage_raised sched p (frames : list Frame) j x e :
  resolution_fn p = BySavedModel ->
  frames !! j = Some x ->
  saved_model_super_resolve lib (saved_model p) x = Raise e ->
  stage_raised lib sched p frames.
Proof.
  intros Hfn Hx He. exists j, e. rewrite Hfn.
  destruct (pool_run_finished BySavedModel (saved_model p) sched frames
              (interpreter p) j) as [r Hr].
  { eapply lookup_lt_Some, Hx. }
  destruct (pool_run_one_call (saved_model p) sched frames (interpreter p) j _ Hr)
    as (x' & Hx' & [H | H]); [discriminate H|].
  rewrite Hx in Hx'. injection Hx' as <-. rewrite He in H. rewrite Hr, H.
  reflexivity.
Qed.

Lemma count_video_puts (evs : list event') :
  count is_video_put evs = length (video_puts evs).
Proof.
  induction evs as [|ev evs IH]; [reflexivity|].
  destruct ev; simpl; rewrite ?length_app; simpl; lia.
Qed.

(** C5. When the enhancement of any frame of a batch raises, the fetch
    raises as a whole: [run] ends there, neither queue and nothing of the
    log has changed; and whatever steps follow, no batch is put any more,
    and all the display ever draws are frames of the batches put before:
    no frame of the failed batch is enqueued or reaches the display. *)
Theorem failed_batch_never_enqueued clip_fps clip_duration clip_frames
    clip_chunks tflite model before sched i n audio rest fps_n :
  let w := steps lib before
             (session (Player_init clip_fps clip_duration clip_frames
                         clip_chunks tflite model)) in
  main w = PFetch i n ->
  i < n ->
  audio_iterator (self w) = audio :: rest ->
  py_int (video_fps (self w)) = Ok fps_n ->
  py_range fps_n <= length (video_iterator (self w)) ->
  stage_raised lib sched (self w)
    (map (prepared lib) (take (py_range fps_n) (video_iterator (self w)))) ->
  (exists e p', fetch_video lib sched (self w) = (Raise e, p')) /\
  (exists e, main (step lib (Run sched) w) = PRaised e) /\
  video_queue (self (step lib (Run sched) w)) = video_queue (self w) /\
  audio_queue (self (step lib (Run sched) w)) = audio_queue (self w) /\
  log (self (step lib (Run sched) w)) = log (self w) /\
  forall after,
    video_puts (log (self (steps lib after (step lib (Run sched) w))))
      = video_puts (log (self w)) /\
    count is_video_put (log (self (steps lib after (step lib (Run sched) w))))
      = count is_video_put (log (self w)) /\
    blits (log (self (steps lib after (step lib (Run sched) w))))
      `prefix_of`
      map (make_surface lib) (concat (video_puts (log (self w)))).
Proof.
  intros w Hmain Hin Hai Hn Hle (j & e & Hj).
  set (p1 := set_audio_iterator rest (self w)).
  assert (Hpull : exists e' p', fetch_pull lib sched (self w) = (Raise e', p')).
  { rewrite fetch_pull_eq, Hai. simpl. fold p1.
    destruct (video_second_enough sched p1 fps_n Hn Hle) as (p2 & -> & _).
    destruct (pool_map_raises _ _ _ _ _ _ _ Hj) as [e' He'].
    assert (He'' : fst (pool_map lib (resolution_fn p1) (saved_model p1) sched
                          (map (prepared lib) (take (py_range fps_n) (video_iterator p1)))
                          (interpreter p1)) = Raise e') by exact He'.
    rewrite He''. eauto. }
  destruct Hpull as (e' & p' & Hpull).
  pose proof (fetch_pull_pulls sched (self w)) as Hp. rewrite Hpull in Hp.
  destruct Hp as (_&_&_&_&_&_&Hvq&Haq&Hlog&_). simpl in Hvq, Haq, Hlog.
  assert (Hstep : step lib (Run sched) w = at_main p' (PRaised e') w).
  { simpl. unfold run_step. rewrite Hmain.
    apply Nat.ltb_lt in Hin. rewrite Hin, Hpull. reflexivity. }
  split_and!.
  - rewrite fetch_video_pull, Hpull. eauto.
  - rewrite Hstep. simpl. eauto.
  - rewrite Hstep. exact Hvq.
  - rewrite Hstep. exact Haq.
  - rewrite Hstep. exact Hlog.
  - intros after.
    assert (Hputs : video_puts
              (log (self (steps lib after (step lib (Run sched) w))))
              = video_puts (log (self w))).
    { rewrite Hstep.
      destruct (main_raised_forever after (at_main p' (PRaised e') w) e' eq_refl)
        as (_ & Hc & _).
      rewrite Hc. simpl. rewrite Hlog. reflexivity. }
    split_and!; [exact Hputs | rewrite !count_video_puts, Hputs; reflexivity |].
    pose proof (fifo_inv_reachable _ _
                  (Player_init_new clip_fps clip_duration clip_frames
                     clip_chunks tflite model)
                  (reachable_steps _ (before ++ [Run sched] ++ after)))
      as (_ & Hfifo & _ & Hsink).
    rewrite !steps_app in Hfifo, Hsink. fold w in Hfifo, Hsink.
    change (steps lib [Run sched] w) with (step lib (Run sched) w)
      in Hfifo, Hsink.
    apply video_sink_prefix in Hsink. rewrite <- Hputs, Hfifo.
    rewrite concat_app, map_app.
    destruct Hsink as [k Hk]. rewrite Hk. exists (k ++ map (make_surface lib)
      (concat (video_queue (self (steps lib after (step lib (Run sched) w)))))).
    rewrite app_assoc. reflexivity.
Qed.

Lemma le_bytes_length n z : length (le_bytes n z) = n.
Proof.
  revert z. induction n as [|n IH]; intros z; simpl; [reflexivity|].
  rewrite IH. reflexivity.
Qed.

Lemma tostring32_length (a : list spec_float) :
  length (tostring32 a) = 4 * length a.
Proof.
  unfold tostring32. induction a as [|x a IH]; [reflexivity|].
  cbn [flat_map]. rewrite length_app, le_bytes_length, IH. simpl. lia.
Qed.

(** C6, as amended. In every session the payloads written to the stream
    are, in their order, those of the chunks dequeued, one write a chunk,
    the last chunk dequeued being the only one that may still be unwritten:
    the write follows the dequeue at once. What is written for a chunk is
    the chunk cast to float32 and serialised, four bytes a sample: each
    sample is rounded to binary32, and the number and the order of the
    samples are unchanged (no resampling). *)
Theorem audio_written_as_float32 clip_fps clip_duration clip_frames
    clip_chunks tflite model ls :
  let w := steps lib ls
             (session (Player_init clip_fps clip_duration clip_frames
                         clip_chunks tflite model)) in
  (exists unwritten,
     map stream_payload (audio_gets (log (self w)))
       = stream_writes (log (self w)) ++ unwritten /\
     length unwritten <= 1) /\
  (forall waited audio rest,
     audio_thread w = AGet waited ->
     audio_queue (self w) = audio :: rest ->
     audio_thread (step lib Audio w) = AWrite audio /\
     audio_queue (self (step lib Audio w)) = rest /\
     log (self (step lib Audio w)) = EvAudioGet audio :: log (self w) /\
     log (self (step lib Audio (step lib Audio w))) =
       EvStreamWrite (stream_payload audio)
       :: EvAudioGet audio :: log (self w) /\
     audio_thread (step lib Audio (step lib Audio w)) = ATest) /\
  (forall audio,
     stream_payload audio = tostring32 (map float32_of audio) /\
     length (map float32_of audio) = length audio /\
     length (stream_payload audio) = 4 * length audio).
Proof.
  intros w. split_and!.
  - pose proof (fifo_inv_reachable _ _
                  (Player_init_new clip_fps clip_duration clip_frames
                     clip_chunks tflite model)
                  (reachable_steps _ ls)) as (_ & _ & Hsink & _).
    fold w in Hsink. unfold audio_sink_at in Hsink.
    destruct (audio_thread w);
      try (exists []; rewrite app_nil_r; split; [exact Hsink | simpl; lia]).
    eexists. split; [exact Hsink | simpl; lia].
  - intros waited audio rest Hpc Hq.
    assert (H1 : step lib Audio w =
                 at_audio (emit (EvAudioGet audio) (set_audio_queue rest (self w)))
                   (AWrite audio) w).
    { simpl. unfold write_audio_stream_step. rewrite Hpc, Hq. reflexivity. }
    rewrite H1. simpl. split_and!; reflexivity.
  - intros audio. split_and!; try reflexivity.
    + apply length_map.
    + unfold stream_payload. rewrite tostring32_length.
      unfold astype_float32. rewrite length_map. reflexivity.
Qed.

Lemma frame_interval_value p d :
  frame_interval p = Ok d ->
  d = ((1000 / video_fps p - tolerance p) / 1000)%float.
Proof.
  unfold frame_interval, py_div.
  destruct (Prim2SF (video_fps p)); intros H; simplify_eq; reflexivity.
Qed.

(** C7, as amended. In every session, whatever the interleaving: the step
    that shows a frame (fill, blit, update) leads to the call of
    [time.sleep], made with exactly [(1000 / fps - 2.25) / 1000], the
    tolerance being the constant 2.25 of [__init__]; every such call in the
    log has this one argument, computed from the frame rate alone and not
    from any measured time. When the argument is not negative the consumer
    sleeps and goes on with the frames left of the batch; when it is
    negative the call raises [ValueError], the consumer ends there, and no
    frame is taken or drawn after the one on the display. *)
Theorem video_pacing clip_fps clip_duration clip_frames clip_chunks tflite
    model ls :
  let w := steps lib ls
             (session (Player_init clip_fps clip_duration clip_frames
                         clip_chunks tflite model)) in
  let d := ((1000 / clip_fps - 2.25) / 1000)%float in
  tolerance (self w) = 2.25%float /\
  video_fps (self w) = clip_fps /\
  (forall frame rest, video_thread w = VFrame (frame :: rest) ->
     video_thread (step lib Video w) = VPace rest /\
     log (self (step lib Video w)) =
       EvDisplayUpdate :: EvBlit (make_surface lib frame) 0 0 :: EvFill 0 0 2
       :: log (self w)) /\
  (forall rest, video_thread w = VPace rest ->
     log (self (step lib Video w)) = EvSleep VideoConsumer d :: log (self w) /\
     video_thread (step lib Video w) =
       if (0 <=? d)%float then VFrame rest else VRaised ValueError) /\
  (forall d', In (EvSleep VideoConsumer d') (log (self w)) -> d' = d) /\
  ((0 <=? d)%float = false ->
   forall rest more, video_thread w = VPace rest ->
     video_thread (steps lib more (step lib Video w)) = VRaised ValueError /\
     count is_video_drain (log (self (steps lib more (step lib Video w))))
       = count is_video_drain (log (self w))).
Proof.
  intros w d.
  pose proof (pace_inv_reachable _ _
                (Player_init_new clip_fps clip_duration clip_frames
                   clip_chunks tflite model)
                (reachable_steps _ ls)) as (Hfps & Htol & _ & _ & Hvt & Hs).
  fold w in Hfps, Htol, Hvt, Hs. simpl in Hfps, Htol.
  assert (Hpace : forall rest, video_thread w = VPace rest ->
            log (self (step lib Video w))
              = EvSleep VideoConsumer d :: log (self w) /\
            video_thread (step lib Video w) =
              if (0 <=? d)%float then VFrame rest else VRaised ValueError).
  { intros rest Hpc. rewrite Hpc in Hvt. simpl in Hvt.
    destruct Hvt as [q Hq]. simpl in Hq.
    assert (Hd : frame_interval (self w) = Ok d).
    { unfold frame_interval. rewrite Hfps, Htol, Hq.
      unfold py_div in Hq. destruct (Prim2SF clip_fps); simplify_eq; reflexivity. }
    simpl. unfold write_video_stream_step. rewrite Hpc, Hd. unfold sleep.
    destruct (0 <=? d)%float; simpl; split; reflexivity. }
  split_and!; try assumption.
  - intros frame rest Hpc. simpl. unfold write_video_stream_step.
    rewrite Hpc. simpl. split; reflexivity.
  - intros d' Hin. apply Hs in Hin. apply frame_interval_value in Hin.
    exact Hin.
  - intros Hneg rest more Hpc. destruct (Hpace rest Hpc) as [Hlog Hth].
    rewrite Hneg in Hth.
    destruct (video_raised_forever more (step lib Video w) ValueError Hth)
      as [H1 H2].
    split; [exact H1|]. rewrite H2, Hlog. reflexivity.
Qed.

Lemma start_transition_idempotent (p : Player') :
  start_transition (start_transition p) = start_transition p.
Proof.
  unfold start_transition. destruct (running p) eqn:Hr.
  - rewrite Hr. reflexivity.
  - reflexivity.
Qed.

(** C8. The run flag is false when the player is made; in every session
    it is set exactly once, by the guarded assignment at the start of
    [run], under the lock; no step of any thread clears it; and the second
    guarded assignment, at the end of [run], changes nothing: the guarded
    assignment is idempotent. *)
Theorem run_flag_set_once clip_fps clip_duration clip_frames clip_chunks
    tflite model ls :
  let p0 := Player_init clip_fps clip_duration clip_frames clip_chunks
              tflite model in
  let w := steps lib ls (session p0) in
  running p0 = false /\
  count is_running_set (log (self w)) = (if running (self w) then 1 else 0) /\
  (running (self w) = false <-> main w = PAcquire1 \/ main w = PGuard1) /\
  (forall l, running (self w) = true -> running (self (step lib l w)) = true) /\
  (main w = PGuard1 ->
     lock (self w) = true /\
     forall sched,
       running (self (step lib (Run sched) w)) = true /\
       log (self (step lib (Run sched) w)) = EvRunning :: log (self w)) /\
  (main w = PGuard2 ->
     lock (self w) = true /\
     forall sched, self (step lib (Run sched) w) = self w) /\
  (forall p, start_transition (start_transition p) = start_transition p).
Proof.
  intros p0 w.
  pose proof (flag_inv_reachable _ _
                (Player_init_new clip_fps clip_duration clip_frames
                   clip_chunks tflite model)
                (reachable_steps _ ls)) as Hf.
  fold p0 w in Hf. unfold flag_inv, flag_at in Hf.
  split_and!.
  - reflexivity.
  - destruct (main w); destruct Hf as (-> & -> & _); reflexivity.
  - split.
    + intros Hr. destruct (main w); destruct Hf as (Hf & _); auto; congruence.
    + intros [Hm | Hm]; rewrite Hm in Hf; apply Hf.
  - intros l. apply running_stays.
  - intros Hm. rewrite Hm in Hf. destruct Hf as (Hr & _ & Hl).
    split; [exact Hl|]. intros sched. simpl. unfold run_step. rewrite Hm.
    simpl. unfold start_transition. rewrite Hr. simpl. split; reflexivity.
  - intros Hm. rewrite Hm in Hf. destruct Hf as (Hr & _ & Hl).
    split; [exact Hl|]. intros sched. simpl. unfold run_step. rewrite Hm.
    simpl. unfold start_transition. rewrite Hr. reflexivity.
  - apply start_transition_idempotent.
Qed.

Lemma audio_get_times_out k : forall w waited,
  waited + k = GET_TIMEOUT ->
  audio_thread w = AGet waited ->
  audio_queue (self w) = [] ->
  audio_thread (steps lib (repeat Audio (S k)) w) = ARaised QueueEmpty.
Proof.
  induction k as [|k IH]; intros w waited Hk Hpc Hq.
  - unfold steps. simpl. unfold write_audio_stream_step. rewrite Hpc, Hq.
    replace (waited <? GET_TIMEOUT) with false
      by (symmetry; apply Nat.ltb_ge; lia).
    reflexivity.
  - change (repeat Audio (S (S k))) with ([Audio] ++ repeat Audio (S k)).
    rewrite steps_app. apply (IH _ (S waited)); [lia | |].
    + unfold steps. simpl. unfold write_audio_stream_step. rewrite Hpc, Hq.
      replace (waited <? GET_TIMEOUT) with true
        by (symmetry; apply Nat.ltb_lt; lia).
      reflexivity.
    + unfold steps. simpl. unfold write_audio_stream_step. rewrite Hpc, Hq.
      destruct (waited <? GET_TIMEOUT); exact Hq.
Qed.

Lemma video_get_times_out k : forall w waited,
  waited + k = GET_TIMEOUT ->
  video_thread w = VGet waited ->
  video_queue (self w) = [] ->
  video_thread (steps lib (repeat Video (S k)) w) = VRaised QueueEmpty.
Proof.
  induction k as [|k IH]; intros w waited Hk Hpc Hq.
  - unfold steps. simpl. unfold write_video_stream_step. rewrite Hpc, Hq.
    replace (waited <? GET_TIMEOUT) with false
      by (symmetry; apply Nat.ltb_ge; lia).
    reflexivity.
  - change (repeat Video (S (S k))) with ([Video] ++ repeat Video (S k)).
    rewrite steps_app. apply (IH _ (S waited)); [lia | |].
    + unfold steps. simpl. unfold write_video_stream_step. rewrite Hpc, Hq.
      replace (waited <? GET_TIMEOUT) with true
        by (symmetry; apply Nat.ltb_lt; lia).
      reflexivity.
    + unfold steps. simpl. unfold write_video_stream_step. rewrite Hpc, Hq.
      destruct (waited <? GET_TIMEOUT); exact Hq.
Qed.

(** C9. In every session a consumer inside [get(timeout=10)] has waited
    at most 10 seconds; when it starts to wait and no item arrives, after
    10 seconds the [get] raises [queue.Empty]; the handler raises it again,
    so the consumer thread ends there: whatever steps follow, it stays
    ended and dequeues and writes nothing more (no retry). *)
Theorem get_timeout_is_fatal clip_fps clip_duration clip_frames clip_chunks
    tflite model ls :
  let w := steps lib ls
             (session (Player_init clip_fps clip_duration clip_frames
                         clip_chunks tflite model)) in
  GET_TIMEOUT = 10 /\
  (forall waited, audio_thread w = AGet waited -> waited <= 10) /\
  (forall waited, video_thread w = VGet waited -> waited <= 10) /\
  (audio_thread w = AGet 0 -> audio_queue (self w) = [] ->
     audio_thread (steps lib (repeat Audio 11) w) = ARaised QueueEmpty) /\
  (video_thread w = VGet 0 -> video_queue (self w) = [] ->
     video_thread (steps lib (repeat Video 11) w) = VRaised QueueEmpty) /\
  (forall e more, audio_thread w = ARaised e ->
     audio_thread (steps lib more w) = ARaised e /\
     count is_audio_drain (log (self (steps lib more w))) =
       count is_audio_drain (log (self w))) /\
  (forall e more, video_thread w = VRaised e ->
     video_thread (steps lib more w) = VRaised e /\
     count is_video_drain (log (self (steps lib more w))) =
       count is_video_drain (log (self w))).
Proof.
  intros w.
  pose proof (wait_inv_reachable _ _ (reachable_steps
                (Player_init clip_fps clip_duration clip_frames
                   clip_chunks tflite model) ls)) as [Ha Hv].
  fold w in Ha, Hv.
  split_and!.
  - reflexivity.
  - exact Ha.
  - exact Hv.
  - intros Hpc Hq. apply (audio_get_times_out 10 w 0); [reflexivity | |]; assumption.
  - intros Hpc Hq. apply (video_get_times_out 10 w 0); [reflexivity | |]; assumption.
  - intros e more Hr. apply audio_raised_forever, Hr.
  - intros e more Hr. apply video_raised_forever, Hr.
Qed.

(** C10. A fetch that returns has put the chunk, then the batch of the
    same second; and in every session, at every point of the log, the
    audio puts are at least as many as the video puts (and at most one
    more). *)
Theorem audio_put_comes_first clip_fps clip_duration clip_frames clip_chunks
    tflite model ls :
  let w := steps lib ls
             (session (Player_init clip_fps clip_duration clip_frames
                         clip_chunks tflite model)) in
  (forall sched p p', fetch_video lib sched p = (Ok tt, p') ->
     exists audio video,
       log p' = EvVideoPut video :: EvAudioPut audio :: log p) /\
  audio_leads (log (self w)) /\
  count is_video_put (log (self w)) <= count is_audio_put (log (self w)) /\
  count is_audio_put (log (self w)) <= count is_video_put (log (self w)) + 1.
Proof.
  intros w.
  pose proof (order_inv_reachable _ _
                (Player_init_new clip_fps clip_duration clip_frames
                   clip_chunks tflite model)
                (reachable_steps _ ls)) as [Hlead Hat].
  fold w in Hlead, Hat. apply order_at_bounds in Hat.
  split_and!; try assumption; try apply Hat.
  intros sched p p' Hrun.
  destruct (fetch_video_returns sched p p' Hrun) as (audio & video & _ & _ & _ & _ & Hlog).
  eauto.
Qed.

(** X1. On the SavedModel path (a SavedModel, or no model at all) the batch
    [video_second] returns has, at place [j], the resolution of the frame
    at place [j], for every schedule of the pool. *)
Theorem saved_model_batch_in_order sched p n batch p' :
  resolution_fn p = BySavedModel ->
  py_int (video_fps p) = Ok n ->
  video_second lib sched p = (Ok batch, p') ->
  length batch = py_range n /\
  forall j frame, j < py_range n -> video_iterator p !! j = Some frame ->
    exists out, batch !! j = Some out /\
      saved_model_super_resolve lib (saved_model p) (prepared lib frame) = Ok out.
Proof.
  intros Hfn Hn Hrun.
  destruct (video_second_frames sched p n batch p' Hn Hrun) as (Hlen & Hle).
  split; [exact Hlen|]. intros j frame Hj Hframe.
  destruct (video_second_enough sched p n Hn Hle) as (p1 & Hrun1 & _).
  rewrite Hrun, Hfn in Hrun1.
  destruct (pool_map lib BySavedModel (saved_model p) sched
              (map (prepared lib) (take (py_range n) (video_iterator p)))
              (interpreter p)) as [r it'] eqn:Hmap.
  cbn [fst] in Hrun1. injection Hrun1 as <- _.
  apply pool_map_saved_model_order in Hmap as [_ Hnth].
  apply (Hnth j (prepared lib frame)).
  change (map (prepared lib) (take (py_range n) (video_iterator p)))
    with (prepared lib <$> take (py_range n) (video_iterator p)).
  rewrite list_lookup_fmap, lookup_take_lt by exact Hj.
  rewrite Hframe. reflexivity.
Qed.

(** X4. In every session, whatever the interleaving, each queue holds what
    was put and not yet taken, in the order of the puts; the stream is
    written the payloads of the chunks put, in that order, and the screen
    is drawn the surfaces of the frames of the batches put, batch after
    batch and frame after frame. *)
Theorem sinks_follow_queues clip_fps clip_duration clip_frames clip_chunks
    tflite model ls :
  let w := steps lib ls
             (session (Player_init clip_fps clip_duration clip_frames
                         clip_chunks tflite model)) in
  audio_puts (log (self w)) = audio_gets (log (self w)) ++ audio_queue (self w) /\
  video_puts (log (self w)) = video_gets (log (self w)) ++ video_queue (self w) /\
  stream_writes (log (self w))
    `prefix_of` map stream_payload (audio_puts (log (self w))) /\
  blits (log (self w))
    `prefix_of` map (make_surface lib) (concat (video_puts (log (self w)))).
Proof.
  intros w.
  pose proof (fifo_inv_reachable _ _
                (Player_init_new clip_fps clip_duration clip_frames
                   clip_chunks tflite model)
                (reachable_steps _ ls)) as (Ha & Hv & Hsa & Hsv).
  fold w in Ha, Hv, Hsa, Hsv.
  apply audio_sink_prefix in Hsa as [ka Hka].
  apply video_sink_prefix in Hsv as [kv Hkv].
  split_and!; [exact Ha | exact Hv | |].
  - rewrite Ha, map_app, Hka. eexists. rewrite <- app_assoc. reflexivity.
  - rewrite Hv, concat_app, map_app, Hkv. eexists.
    rewrite <- app_assoc. reflexivity.
Qed.

(** X6. In every session, whatever the interleaving: at the head of
    iteration [i] of the loop of [run], [i] chunks and [i] batches have
    been put and the loop is to make [int(duration)] iterations; once
    [run] is past its loop, [int(duration)] of each have been put; and a
    [run] that raised has put as many chunks as batches, no more than
    [int(duration)]. *)
Theorem run_loop_counts clip_fps clip_duration clip_frames clip_chunks
    tflite model ls :
  let p0 := Player_init clip_fps clip_duration clip_frames clip_chunks
              tflite model in
  let w := steps lib ls (session p0) in
  let a := count is_audio_put (log (self w)) in
  let v := count is_video_put (log (self w)) in
  (forall i n, main w = PFetch i n -> n = iterations p0 /\ a = i /\ v = i) /\
  (main w = PReturned -> a = iterations p0 /\ v = iterations p0) /\
  (forall e, main w = PRaised e -> a = v /\ a <= iterations p0).
Proof.
  intros p0 w a v.
  pose proof (iter_inv_reachable _ _
                (Player_init_new clip_fps clip_duration clip_frames
                   clip_chunks tflite model)
                (reachable_steps _ ls)) as (_ & Hat).
  fold p0 w a v in Hat.
  split_and!.
  - intros i n Hpc. rewrite Hpc in Hat. destruct Hat as (? & ? & ? & ?). auto.
  - intros Hpc. rewrite Hpc in Hat. exact Hat.
  - intros e Hpc. rewrite Hpc in Hat. exact Hat.
Qed.

(** * More of the program *)

(** ** How the consumers end *)

Ltac unpack :=
  repeat match goal with
         | H : _ /\ _ |- _ => destruct H
         | H : exists _, _ |- _ => destruct H
         | H : False |- _ => destruct H
         end.

Lemma life_inv_step p0 l w :
  flag_inv w -> pace_inv p0 w -> life_inv p0 w -> life_inv p0 (step lib l w).
Proof.
  unfold flag_inv, pace_inv, life_inv.
  step_cases l w; intros Hflag (Hfps & Htol & _ & _ & Hvt & _) (Ha & Hv);
    unfold audio_life_at, video_life_at, flag_at, pace_at_video in *;
    place w; cbn in *; simplify_eq;
    try (split; assumption);
    try (destruct Hflag as (? & ? & ?); congruence).
  all: try (destruct (main w); cbn in *; unpack; simplify_eq;
            split_and?; try assumption; try exact I; try reflexivity;
            try congruence; try (left; reflexivity); eauto; fail).
  all: try (destruct (audio_thread w); cbn in *; unpack; simplify_eq;
            split_and?; try assumption; try reflexivity; eauto; fail).
  all: try (destruct (video_thread w); cbn in *; unpack; simplify_eq;
            split_and?; try assumption; try reflexivity; eauto; fail).
  - assert (Hneg : interval_negative p0).
    { exists ((a0 - tolerance p0) / 1000)%float. unfold frame_interval.
      rewrite <- Hfps, <- Htol, H0. auto. }
    destruct (main w); cbn in *; unpack; simplify_eq;
      split_and?; try assumption; eauto.
  - exfalso. destruct Hvt as [q Hq]. rewrite <- Hfps in Hq. congruence.
Qed.

Lemma life_inv_reachable p0 w :
  new_player p0 -> reachable lib p0 w -> life_inv p0 w.
Proof.
  intros Hnew Hreach. induction Hreach as [|l w Hw IH].
  - split; reflexivity.
  - apply life_inv_step; [| |exact IH].
    + apply (flag_inv_reachable p0); assumption.
    + apply pace_inv_reachable; assumption.
Qed.

Lemma py_div_value x y q : py_div x y = Ok q -> q = (x / y)%float.
Proof. unfold py_div. destruct (Prim2SF y); congruence. Qed.

Lemma one_frame_step p0 l w :
  (0 <=? (1000 / video_fps p0 - tolerance p0) / 1000)%float = false ->
  pace_inv p0 w ->
  one_frame_at (video_thread w) (length (blits (log (self w)))) ->
  one_frame_at (video_thread (step lib l w))
    (length (blits (log (self (step lib l w))))).
Proof.
  unfold pace_inv. intros Hneg.
  step_cases l w; intros (Hfps & Htol & _) Hone;
    repeat match goal with
           | H : log _ = log _ |- _ => rewrite H in *
           | H : py_div _ _ = Ok _ |- _ => apply py_div_value in H; subst
           end;
    unfold one_frame_at in *; place w; rewrite ?length_app; cbn in *;
    try assumption; try lia;
    try (rewrite Hfps, Htol in *; congruence).
Qed.

Lemma one_frame_reachable p0 w :
  (0 <=? (1000 / video_fps p0 - tolerance p0) / 1000)%float = false ->
  new_player p0 -> reachable lib p0 w ->
  one_frame_at (video_thread w) (length (blits (log (self w)))).
Proof.
  intros Hneg Hnew Hreach. induction Hreach as [|l w Hw IH].
  - destruct Hnew as (Hlog & _). simpl. rewrite Hlog. reflexivity.
  - apply (one_frame_step p0); [assumption| |exact IH].
    apply pace_inv_reachable; assumption.
Qed.

Lemma iter_at_bounds (pc : @producer_pc Frame) total a v :
  iter_at pc total a v -> a <= total /\ v <= total.
Proof. destruct pc; simpl; lia. Qed.

Lemma count_cons_le (g : event' -> bool) ev evs :
  count g evs <= count g (ev :: evs).
Proof. simpl. lia. Qed.

Lemma preceded_by_none (f g : event' -> bool) n (evs : list event') :
  preceded_by f g n evs -> count g evs < n -> count f evs = 0.
Proof.
  induction evs as [|ev evs IH]; [reflexivity|].
  intros [Hev Hrest] Hlt. pose proof (count_cons_le g ev evs).
  simpl. rewrite IH by (assumption || lia).
  destruct (f ev); [|reflexivity]. specialize (Hev eq_refl). lia.
Qed.

Lemma no_drain_no_write (evs : list event') :
  count is_audio_drain evs = 0 -> audio_gets evs = [] /\ stream_writes evs = [].
Proof.
  induction evs as [|ev evs IH]; [auto|].
  destruct ev; simpl; intros H; try discriminate H; auto.
Qed.

Lemma no_drain_no_blit (evs : list event') :
  count is_video_drain evs = 0 -> video_gets evs = [] /\ blits evs = [].
Proof.
  induction evs as [|ev evs IH]; [auto|].
  destruct ev; simpl; intros H; try discriminate H; auto.
Qed.

(** X7. In every session, whatever the interleaving, no consumer leaves
    its [while self.running] loop by the test: the audio consumer ends
    only in the [queue.Empty] of a [get] that timed out, the video
    consumer only in that or in the [ValueError] of a sleep of negative
    length; and [run] returns only after both have ended so. *)
Theorem consumers_end_by_exception clip_fps clip_duration clip_frames
    clip_chunks tflite model ls :
  let w := steps lib ls
             (session (Player_init clip_fps clip_duration clip_frames
                         clip_chunks tflite model)) in
  audio_thread w <> AReturned /\
  video_thread w <> VReturned /\
  (forall e, audio_thread w = ARaised e -> e = QueueEmpty) /\
  (forall e, video_thread w = VRaised e ->
     e = QueueEmpty \/
     e = ValueError /\
     (0 <=? (1000 / clip_fps - 2.25) / 1000)%float = false) /\
  (main w = PReturned ->
     audio_thread w = ARaised QueueEmpty /\ exists e, video_thread w = VRaised e).
Proof.
  intros w.
  pose proof (life_inv_reachable _ _
                (Player_init_new clip_fps clip_duration clip_frames
                   clip_chunks tflite model)
                (reachable_steps _ ls)) as (Ha & Hv).
  fold w in Ha, Hv.
  assert (Hneg : interval_negative
                   (Player_init clip_fps clip_duration clip_frames
                      clip_chunks tflite model) ->
                 (0 <=? (1000 / clip_fps - 2.25) / 1000)%float = false).
  { intros (d & Hd & Hlt). apply frame_interval_value in Hd. subst d.
    exact Hlt. }
  split_and!.
  - intros Hpc. rewrite Hpc in Ha. destruct (main w); simpl in Ha;
      try discriminate Ha; destruct Ha.
  - intros Hpc. rewrite Hpc in Hv. destruct (main w); simpl in Hv;
      unpack; try discriminate; try contradiction.
  - intros e Hpc. rewrite Hpc in Ha. destruct (main w); simpl in Ha;
      congruence.
  - intros e Hpc. rewrite Hpc in Hv. destruct (main w); simpl in Hv;
      unpack; try discriminate;
      match goal with
      | H : _ \/ _ |- _ => destruct H as [?|[? ?]]; [left|right]; auto
      end.
  - intros Hpc. rewrite Hpc in Ha, Hv. simpl in Ha, Hv.
    split; [exact Ha|]. apply Hv.
Qed.

(** X8. A clip of fewer than [BUFFER_SIZE] whole seconds is never played:
    in every session and interleaving both consumers stay in their
    buffering loops, nothing is taken from a queue, written to the stream
    or drawn, and [run] does not return. *)
Theorem short_clip_never_plays clip_fps clip_duration clip_frames clip_chunks
    tflite model ls :
  let p0 := Player_init clip_fps clip_duration clip_frames clip_chunks
              tflite model in
  let w := steps lib ls (session p0) in
  iterations p0 < BUFFER_SIZE ->
  (audio_thread w = ANotStarted \/ audio_thread w = ABuffering) /\
  (video_thread w = VNotStarted \/ video_thread w = VBuffering) /\
  audio_gets (log (self w)) = [] /\
  stream_writes (log (self w)) = [] /\
  video_gets (log (self w)) = [] /\
  blits (log (self w)) = [] /\
  main w <> PReturned.
Proof.
  intros p0 w Hshort.
  pose proof (Player_init_new clip_fps clip_duration clip_frames
                clip_chunks tflite model) as Hnew.
  pose proof (reachable_steps p0 ls) as Hreach. fold p0 in Hnew. fold w in Hreach.
  pose proof (iter_inv_reachable _ _ Hnew Hreach) as (_ & Hit).
  pose proof (gate_inv_reachable _ _ Hnew Hreach)
    as (Hpa & Hpv & _ & _ & Hga & Hgv).
  pose proof (life_inv_reachable _ _ Hnew Hreach) as (Hla & _).
  apply iter_at_bounds in Hit as [Hca Hcv].
  assert (Ha : audio_thread w = ANotStarted \/ audio_thread w = ABuffering).
  { destruct (audio_thread w); simpl in Hga; auto; lia. }
  assert (Hv : video_thread w = VNotStarted \/ video_thread w = VBuffering).
  { destruct (video_thread w); simpl in Hgv; auto; lia. }
  apply preceded_by_none in Hpa; [|lia].
  apply preceded_by_none in Hpv; [|lia].
  apply no_drain_no_write in Hpa as [? ?].
  apply no_drain_no_blit in Hpv as [? ?].
  split_and!; try assumption.
  intros Hpc. rewrite Hpc in Hla. simpl in Hla.
  destruct Ha as [Ha|Ha]; congruence.
Qed.

(** X9. When the interval between two frames is negative (a frame rate
    above 1000 / 2.25) the sleep after the first frame raises
    [ValueError]: in every session at most one frame is ever drawn. *)
Theorem negative_interval_one_frame clip_fps clip_duration clip_frames
    clip_chunks tflite model ls :
  let w := steps lib ls
             (session (Player_init clip_fps clip_duration clip_frames
                         clip_chunks tflite model)) in
  (0 <=? (1000 / clip_fps - 2.25) / 1000)%float = false ->
  length (blits (log (self w))) <= 1 /\
  (forall rest, video_thread w = VPace rest ->
     video_thread (step lib Video w) = VRaised ValueError).
Proof.
  intros w Hneg.
  pose proof (Player_init_new clip_fps clip_duration clip_frames
                clip_chunks tflite model) as Hnew.
  pose proof (reachable_steps
                (Player_init clip_fps clip_duration clip_frames
                   clip_chunks tflite model) ls) as Hreach.
  fold w in Hreach.
  pose proof (one_frame_reachable
                (Player_init clip_fps clip_duration clip_frames
                   clip_chunks tflite model) w Hneg Hnew Hreach) as Hone.
  pose proof (pace_inv_reachable _ _ Hnew Hreach)
    as (Hfps & Htol & _ & _ & Hvt & _).
  split.
  - destruct (video_thread w); simpl in Hone; lia.
  - intros rest Hpc. rewrite Hpc in Hvt. simpl in Hvt.
    destruct Hvt as [q Hq]. simpl in Hfps, Htol.
    simpl. unfold write_video_stream_step, frame_interval, sleep.
    rewrite Hpc, Hfps, Hq, Htol. apply py_div_value in Hq. subst q.
    rewrite Hneg. reflexivity.
Qed.

(** ** From the clip to the sinks *)

Lemma pulls_resolution_fn p p' :
  pulls p p' -> resolution_fn p' = resolution_fn p.
Proof.
  intros (_ & _ & _ & _ & Hsm & _ & _ & _ & _ & Hit).
  unfold resolution_fn. rewrite Hsm.
  destruct (interpreter p), (interpreter p'); simpl in Hit;
    congruence || reflexivity.
Qed.

Lemma video_second_interpreter sched p :
  resolution_fn p = BySavedModel ->
  interpreter (snd (video_second lib sched p)) = interpreter p.
Proof.
  intros Hfn. rewrite video_second_eq, Hfn.
  destruct (py_int (video_fps p)) as [n|e]; [|reflexivity].
  pose proof (fetch_frames_pulls (py_range n) [] p) as (_ & _ & Hint).
  destruct (fetch_frames lib (py_range n) [] p) as [[frames|e] p1];
    [|exact Hint].
  unfold pool_map. cbn [fst snd]. rewrite pool_run_shared_saved_model.
  destruct p1. reflexivity.
Qed.

Lemma video_second_saved_model sched p batch p' :
  resolution_fn p = BySavedModel ->
  video_second lib sched p = (Ok batch, p') ->
  exists frames,
    video_iterator p = frames ++ video_iterator p' /\
    Forall2 (enhanced lib (saved_model p)) batch frames.
Proof.
  intros Hfn Hrun.
  assert (Hn : exists n, py_int (video_fps p) = Ok n).
  { rewrite video_second_eq in Hrun.
    destruct (py_int (video_fps p)); [eauto|discriminate Hrun]. }
  destruct Hn as [n Hn].
  destruct (video_second_frames sched p n batch p' Hn Hrun) as (Hlen & Hle).
  destruct (video_second_enough sched p n Hn Hle) as (p1 & Hrun1 & Hvi).
  rewrite Hrun, Hfn in Hrun1.
  destruct (pool_map lib BySavedModel (saved_model p) sched
              (map (prepared lib) (take (py_range n) (video_iterator p)))
              (interpreter p)) as [r it'] eqn:Hmap.
  cbn [fst] in Hrun1. injection Hrun1 as <- <-.
  apply pool_map_saved_model_order in Hmap as [_ Hnth].
  exists (take (py_range n) (video_iterator p)). split.
  - rewrite Hvi, take_drop. reflexivity.
  - apply Forall2_same_length_lookup_2.
    + rewrite length_take. lia.
    + intros j out frame Hout Hframe.
      destruct (Hnth j (prepared lib frame)) as (y & Hy & Hres).
      { change (map (prepared lib) (take (py_range n) (video_iterator p)))
          with (prepared lib <$> take (py_range n) (video_iterator p)).
        rewrite list_lookup_fmap, Hframe. reflexivity. }
      unfold enhanced. congruence.
Qed.

Lemma fetch_pull_source sched p audio video p' :
  fetch_pull lib sched p = (Ok (audio, video), p') ->
  audio_iterator p = audio :: audio_iterator p' /\
  (resolution_fn p = BySavedModel ->
   interpreter p' = interpreter p /\
   exists frames,
     video_iterator p = frames ++ video_iterator p' /\
     Forall2 (enhanced lib (saved_model p)) video frames).
Proof.
  rewrite fetch_pull_eq. unfold py_next.
  destruct (audio_iterator p) as [|a rest] eqn:Hai; [discriminate|].
  pose proof (video_second_pulls sched (set_audio_iterator rest p)) as [_ Haud].
  pose proof (video_second_interpreter sched (set_audio_iterator rest p)) as Hint.
  pose proof (video_second_saved_model sched (set_audio_iterator rest p)) as Hsm.
  destruct (video_second lib sched (set_audio_iterator rest p))
    as [[v|e] p1]; [|discriminate].
  intros [= <- <- <-]. cbn [snd] in Haud, Hint. split.
  - rewrite Haud. reflexivity.
  - intros Hfn. split; [apply Hint, Hfn|].
    destruct (Hsm v p1 Hfn eq_refl) as (frames & Hvi & Hall). eauto.
Qed.

Lemma fetch_pull_interpreter sched p :
  resolution_fn p = BySavedModel ->
  interpreter (snd (fetch_pull lib sched p)) = interpreter p.
Proof.
  intros Hfn. rewrite fetch_pull_eq. unfold py_next.
  destruct (audio_iterator p) as [|a rest]; [reflexivity|].
  pose proof (video_second_interpreter sched (set_audio_iterator rest p) Hfn)
    as Hint.
  destruct (video_second lib sched (set_audio_iterator rest p)) as [[v|e] p1];
    exact Hint.
Qed.

Lemma resolution_fn_same (p p' : Player') :
  interpreter p' = interpreter p -> saved_model p' = saved_model p ->
  resolution_fn p' = resolution_fn p.
Proof. unfold resolution_fn. intros -> ->. reflexivity. Qed.

Lemma source_inv_step p0 l w : source_inv lib p0 w -> source_inv lib p0 (step lib l w).
Proof.
  unfold source_inv.
  assert (Hres : forall sched,
             resolution_fn (snd (fetch_pull lib sched (self w)))
             = resolution_fn (self w))
    by (intros; apply pulls_resolution_fn, fetch_pull_pulls).
  pose proof (fun sched => fetch_pull_interpreter sched (self w)) as Hint.
  pose proof (fun sched => fetch_pull_source sched (self w)) as Hsrc.
  step_cases l w; intros (Hfn & Hsm & Haud & Hvid);
    try (split_and!;
         [ rewrite <- Hfn;
           first [reflexivity | apply resolution_fn_same; reflexivity]
         | assumption | assumption | assumption ]; fail);
    try (split_and!;
         [ assumption | assumption | eexists; eassumption
         | intros Hp; destruct (Hvid Hp) as (Hi & seen & Hall & Hcl);
           split; [assumption|]; exists seen; split; [assumption|];
           eexists; eassumption ]; fail).
  - specialize (Hres sched). specialize (Hint sched).
    destruct (Hsrc sched a l p Hfetch) as (Hai & Hvi).
    rewrite Hfetch in Hres, Hint. cbn [snd] in Hres, Hint.
    rewrite H7. rewrite app_nil_r in Haud.
    split_and!; [congruence | congruence | |].
    + rewrite Haud, Hai, <- app_assoc. reflexivity.
    + intros Hp. destruct (Hvid Hp) as (Hi & seen & Hall & Hcl).
      rewrite Hfn in Hvi. destruct (Hvi Hp) as (Hi' & frames & Hfr & Hen).
      split; [congruence|]. exists (seen ++ frames). split.
      * rewrite app_nil_r in Hall. apply Forall2_app; [exact Hall|].
        rewrite <- Hsm. exact Hen.
      * rewrite Hcl, Hfr, <- app_assoc. reflexivity.
  - specialize (Hres sched). specialize (Hint sched).
    rewrite Hfetch in Hres, Hint. cbn [snd] in Hres, Hint. rewrite H7.
    split_and!; [congruence | congruence | eexists; eassumption |].
    intros Hp. destruct (Hvid Hp) as (Hi & seen & Hall & Hcl).
    rewrite Hfn in Hint. split; [rewrite (Hint Hp); exact Hi|].
    exists seen. split; [assumption|]. eexists; eassumption.
  - rewrite !app_nil_r in *.
    split_and!; [ rewrite <- Hfn; apply resolution_fn_same; reflexivity
                | assumption | assumption | assumption ].
  - rewrite !app_nil_r in *. rewrite concat_app. simpl. rewrite app_nil_r.
    split_and!; [ rewrite <- Hfn; apply resolution_fn_same; reflexivity
                | assumption | assumption | assumption ].
Qed.

Lemma source_inv_reachable p0 w :
  new_player p0 -> reachable lib p0 w -> source_inv lib p0 w.
Proof.
  intros (Hlog & _) Hreach. induction Hreach as [|l w _ IH].
  - unfold source_inv, pulled. simpl. rewrite Hlog. simpl.
    split_and!; auto. intros _. split; [reflexivity|].
    exists []. split; [constructor | reflexivity].
  - apply source_inv_step, IH.
Qed.

Lemma pulled_prefix {A : Type} (pc : @producer_pc Frame) (clip seen left : list A) :
  pulled pc clip seen left -> seen `prefix_of` clip.
Proof.
  unfold pulled. destruct (raised pc); [auto|]. intros ->. eexists. reflexivity.
Qed.

Lemma prefix_map {A B : Type} (f : A -> B) (l1 l2 : list A) :
  l1 `prefix_of` l2 -> map f l1 `prefix_of` map f l2.
Proof. intros [k ->]. exists (map f k). apply map_app. Qed.

Lemma prefix_is_take {A : Type} (l1 l2 : list A) :
  l1 `prefix_of` l2 -> l1 = take (length l1) l2.
Proof. intros [k ->]. rewrite take_app_length. reflexivity. Qed.

Lemma count_audio_puts (evs : list event') :
  count is_audio_put evs = length (audio_puts evs).
Proof.
  induction evs as [|ev evs IH]; [reflexivity|].
  destruct ev; simpl; rewrite ?length_app; simpl; lia.
Qed.

(** X10. In every session, whatever the interleaving and the path, the
    chunks put on the audio queue are the first chunks of the clip in
    their order, none left out or repeated, and so are the payloads
    written to the stream; when [run] has returned, exactly the first
    [int(duration)] chunks were put. *)
Theorem audio_in_clip_order clip_fps clip_duration clip_frames clip_chunks
    tflite model ls :
  let p0 := Player_init clip_fps clip_duration clip_frames clip_chunks
              tflite model in
  let w := steps lib ls (session p0) in
  audio_puts (log (self w)) `prefix_of` clip_chunks /\
  stream_writes (log (self w)) `prefix_of` map stream_payload clip_chunks /\
  (main w = PReturned ->
   audio_puts (log (self w)) = take (iterations p0) clip_chunks).
Proof.
  intros p0 w.
  pose proof (Player_init_new clip_fps clip_duration clip_frames
                clip_chunks tflite model) as Hnew.
  pose proof (reachable_steps p0 ls) as Hreach. fold p0 in Hnew. fold w in Hreach.
  pose proof (source_inv_reachable _ _ Hnew Hreach) as (_ & _ & Haud & _).
  pose proof (fifo_inv_reachable _ _ Hnew Hreach) as (Hq & _ & Hsa & _).
  pose proof (iter_inv_reachable _ _ Hnew Hreach) as (_ & Hit).
  apply pulled_prefix, prefix_app_l in Haud. simpl in Haud.
  apply audio_sink_prefix in Hsa.
  split_and!.
  - exact Haud.
  - etransitivity; [exact Hsa|]. apply prefix_map.
    etransitivity; [|exact Haud]. rewrite Hq. eexists. reflexivity.
  - intros Hpc. rewrite Hpc in Hit. simpl in Hit. destruct Hit as [Hca _].
    rewrite count_audio_puts in Hca. rewrite <- Hca.
    apply prefix_is_take, Haud.
Qed.

(** X11. On the SavedModel path (a SavedModel is loaded, or no model at
    all), in every session and interleaving: the interpreter is never
    touched; the frames put on the video queue, batch after batch, are
    the first frames of the clip, each resized, expanded and resolved by
    [saved_model_super_resolve], in their order; and the n-th surface
    drawn is the surface of the n-th frame of the clip so enhanced. *)
Theorem frames_in_clip_order clip_fps clip_duration clip_frames clip_chunks
    tflite model ls :
  let p0 := Player_init clip_fps clip_duration clip_frames clip_chunks
              tflite model in
  let w := steps lib ls (session p0) in
  resolution_fn p0 = BySavedModel ->
  interpreter (self w) = tflite /\
  Forall2 (enhanced lib model) (concat (video_puts (log (self w))))
    (take (length (concat (video_puts (log (self w))))) clip_frames) /\
  Forall2 (shown lib model) (blits (log (self w)))
    (take (length (blits (log (self w)))) clip_frames).
Proof.
  intros p0 w Hfn.
  pose proof (Player_init_new clip_fps clip_duration clip_frames
                clip_chunks tflite model) as Hnew.
  pose proof (reachable_steps p0 ls) as Hreach. fold p0 in Hnew. fold w in Hreach.
  pose proof (source_inv_reachable _ _ Hnew Hreach) as (_ & _ & _ & Hvid).
  pose proof (fifo_inv_reachable _ _ Hnew Hreach) as (_ & Hq & _ & Hsv).
  destruct (Hvid Hfn) as (Hint & seen & Hall & Hpulled).
  apply pulled_prefix in Hpulled. simpl in Hpulled.
  apply Forall2_app_inv_l in Hall as (seen1 & seen2 & Hall1 & _ & ->).
  apply prefix_app_l in Hpulled.
  pose proof (Forall2_length _ _ _ Hall1) as Hlen.
  assert (Hputs : Forall2 (enhanced lib model)
                    (concat (video_puts (log (self w))))
                    (take (length (concat (video_puts (log (self w)))))
                       clip_frames)).
  { rewrite Hlen, <- (prefix_is_take _ _ Hpulled). exact Hall1. }
  split_and!; [exact Hint | exact Hputs |].
  apply video_sink_prefix in Hsv.
  assert (Hdrawn : blits (log (self w)) `prefix_of`
                     map (make_surface lib) (concat (video_puts (log (self w))))).
  { etransitivity; [exact Hsv|]. apply prefix_map. rewrite Hq, concat_app.
    eexists. reflexivity. }
  pose proof (prefix_length _ _ Hdrawn) as Hle. rewrite length_map in Hle.
  rewrite (prefix_is_take _ _ Hdrawn) at 1.
  replace (take (length (blits (log (self w)))) clip_frames)
    with (take (length (blits (log (self w))))
            (take (length (concat (video_puts (log (self w))))) clip_frames))
    by (rewrite take_take; f_equal; lia).
  apply Forall2_take.
  change (map (make_surface lib) (concat (video_puts (log (self w)))))
    with (make_surface lib <$> concat (video_puts (log (self w)))).
  apply Forall2_fmap_l.
  eapply Forall2_impl; [exact Hputs|].
  intros out frame Hen. exists out. split; [exact Hen | reflexivity].
Qed.

(** ** The TFLite path *)

Lemma own_batch_start it0 (frames : list Frame) :
  own_batch lib it0 frames (pool_start frames (Some it0)).
Proof.
  unfold own_batch, pool_start. simpl. split_and!.
  - eauto.
  - intros i x. rewrite list_lookup_fmap.
    destruct (frames !! i) as [x'|] eqn:Hx; simpl; [|discriminate].
    intros [= <-]. eapply list_elem_of_lookup_2, Hx.
  - intros [i Hi]. rewrite list_lookup_fmap in Hi.
    destruct (frames !! i); discriminate Hi.
  - intros [i Hi]. rewrite list_lookup_fmap in Hi.
    destruct (frames !! i); discriminate Hi.
  - intros i y Hi. rewrite list_lookup_fmap in Hi.
    destruct (frames !! i); discriminate Hi.
Qed.

Lemma own_batch_step it0 (frames : list Frame) model i s :
  own_batch lib it0 frames s ->
  own_batch lib it0 frames (task_step lib ByTflite model i s).
Proof.
  intros Hown. pose proof Hown as ((it & Hsh & Hmod) & Hpend & Hin & Hout & Hfin).
  unfold task_step.
  destruct (tasks s !! i) as [[x| | |r]|] eqn:Hi; try exact Hown.
  - destruct (in_flight (tasks s) <? POOL_THREADS); [|exact Hown].
    rewrite Hsh. unfold own_batch, move. simpl. split_and!.
    + eauto.
    + intros j x' Hj. apply list_lookup_insert_Some in Hj as [(_ & ? & _)|[_ Hj]];
        [discriminate | eauto].
    + intros _. eexists. split; [reflexivity|]. simpl. eauto.
    + intros [j Hj]. apply list_lookup_insert_Some in Hj as [(_ & ? & _)|[_ Hj]];
        [discriminate|].
      destruct Hout as (it1 & x1 & Hsh1 & Hx1 & Hm1); [eauto|].
      rewrite Hsh in Hsh1. injection Hsh1 as <-.
      eexists _, x1. split_and!; [reflexivity | exact Hx1 | exact Hm1].
    + intros j y Hj. apply list_lookup_insert_Some in Hj as [(_ & ? & _)|[_ Hj]];
        [discriminate | eauto].
  - rewrite Hsh. destruct Hin as (it1 & Hsh1 & Hx1); [eauto|].
    rewrite Hsh in Hsh1. injection Hsh1 as <-.
    unfold invoke. destruct (invoke_model it (input_tensor it)) as [out|e] eqn:Hinv.
    + unfold own_batch, move. simpl. split_and!.
      * eauto.
      * intros j x' Hj.
        apply list_lookup_insert_Some in Hj as [(_ & ? & _)|[_ Hj]];
          [discriminate | eauto].
      * intros _. eexists. split; [reflexivity|]. exact Hx1.
      * intros _. eexists _, (input_tensor it).
        split_and!; [reflexivity | exact Hx1 |]. simpl. congruence.
      * intros j y Hj.
        apply list_lookup_insert_Some in Hj as [(_ & ? & _)|[_ Hj]];
          [discriminate | eauto].
    + unfold own_batch, finish. simpl. split_and!.
      * eauto.
      * intros j x' Hj.
        apply list_lookup_insert_Some in Hj as [(_ & ? & _)|[_ Hj]];
          [discriminate | eauto].
      * intros _. eauto.
      * intros [j Hj].
        apply list_lookup_insert_Some in Hj as [(_ & ? & _)|[_ Hj]];
          [discriminate | eauto].
      * intros j y Hj.
        apply list_lookup_insert_Some in Hj as [(_ & ? & _)|[_ Hj]];
          [discriminate | eauto].
  - rewrite Hsh. destruct Hout as (it1 & x1 & Hsh1 & Hx1 & Hm1); [eauto|].
    rewrite Hsh in Hsh1. injection Hsh1 as <-.
    unfold own_batch, finish. simpl. split_and!.
    + eauto.
    + intros j x' Hj.
      apply list_lookup_insert_Some in Hj as [(_ & ? & _)|[_ Hj]];
        [discriminate | eauto].
    + intros [j Hj].
      apply list_lookup_insert_Some in Hj as [(_ & ? & _)|[_ Hj]];
        [discriminate | eauto].
    + intros [j Hj].
      apply list_lookup_insert_Some in Hj as [(_ & ? & _)|[_ Hj]];
        [discriminate|]. eauto 6.
    + intros j y Hj.
      apply list_lookup_insert_Some in Hj as [(_ & Hy & _)|[_ Hj]]; [|eauto].
      injection Hy as <-. exists x1, (output_tensor it). auto.
Qed.


Lemma tflite_super_resolve_alone x it :
  fst (tflite_super_resolve lib x it) = tflite_result lib it x /\
  invoke_model (snd (tflite_super_resolve lib x it)) = invoke_model it.
Proof.
  unfold tflite_super_resolve, tflite_result, invoke, set_tensor. simpl.
  destruct (invoke_model it x); simpl; auto.
Qed.

Lemma served_quiet it0 (frames : list Frame) k s :
  served lib it0 frames k s -> forall j, quiet s j.
Proof.
  intros (Hlen & _ & Hall) j t Ht.
  destruct (frames !! j) as [x|] eqn:Hx.
  - rewrite (Hall j x Hx) in Ht. injection Ht as <-.
    destruct (j <? k); reflexivity.
  - apply lookup_ge_None in Hx. apply lookup_lt_Some in Ht. lia.
Qed.

Lemma served_step it0 (frames : list Frame) model k s :
  served lib it0 frames k s -> k < length frames ->
  served lib it0 frames (S k) (step3 ByTflite model k s).
Proof.
  intros Hs Hk. pose proof (served_quiet _ _ _ _ Hs) as Hq.
  destruct Hs as (Hlen & (it & Hsh & Hmod) & Hall).
  destruct (lookup_lt_is_Some_2 frames k Hk) as [xk Hxk].
  pose proof (Hall k xk Hxk) as Hpk. rewrite Nat.ltb_irrefl in Hpk.
  destruct (tflite_task_alone model k s xk it Hpk (in_flight_quiet s Hq) Hsh)
    as (Hdone & Hsh').
  destruct (tflite_super_resolve_alone xk it) as (Hres & Hmod').
  split_and!.
  - rewrite step3_length. exact Hlen.
  - eexists. split; [exact Hsh'|]. congruence.
  - intros j x Hx. destruct (decide (j = k)) as [->|Hne].
    + rewrite Hdone, Hres. replace xk with x by congruence.
      rewrite (proj2 (Nat.ltb_lt k (S k))) by lia.
      unfold tflite_result. rewrite Hmod. reflexivity.
    + rewrite step3_other by congruence. rewrite (Hall j x Hx).
      destruct (j <? k) eqn:Hjk.
      * apply Nat.ltb_lt in Hjk. rewrite (proj2 (Nat.ltb_lt j (S k))) by lia.
        reflexivity.
      * apply Nat.ltb_ge in Hjk. rewrite (proj2 (Nat.ltb_ge j (S k))) by lia.
        reflexivity.
Qed.

Lemma served_sweep it0 (frames : list Frame) model m : forall k s,
  served lib it0 frames k s -> k + m = length frames ->
  served lib it0 frames (k + m)
    (fold_left (fun s i => step3 ByTflite model i s) (seq k m) s).
Proof.
  induction m as [|m IH]; intros k s Hs Hkm; simpl.
  - rewrite Nat.add_0_r. exact Hs.
  - replace (k + S m) with (S k + m) by lia.
    apply IH; [|lia]. apply served_step; [exact Hs | lia].
Qed.

Lemma settle_idle fn model s : (forall j, quiet s j) -> settle lib fn model s = s.
Proof.
  unfold settle. generalize (seq 0 (length (tasks s))). intros l Hq.
  induction l as [|i l IH]; simpl; [reflexivity|].
  rewrite (advance_idle fn model i s (Hq i)), (advance_idle fn model i s (Hq i)).
  exact IH.
Qed.

Lemma pool_run_one_at_a_time model (frames : list Frame) it0 :
  served lib it0 frames (length frames)
    (pool_run lib ByTflite model [] frames (Some it0)).
Proof.
  assert (Hstart : served lib it0 frames 0 (pool_start frames (Some it0))).
  { unfold served, pool_start. simpl. split_and!.
    - apply length_fmap.
    - eauto.
    - intros j x Hx. rewrite list_lookup_fmap, Hx. reflexivity. }
  unfold pool_run, pool_join, run_schedule. simpl.
  rewrite settle_idle by apply (served_quiet _ _ _ _ Hstart).
  unfold serve. destruct Hstart as (Hlen & Hrest). rewrite Hlen.
  apply (served_sweep it0 frames model (length frames) 0); [|reflexivity].
  split; assumption.
Qed.

Lemma pool_map_one_at_a_time model (frames : list Frame) it0 ys it' :
  pool_map lib ByTflite model [] frames (Some it0) = (Ok ys, it') ->
  forall j x, frames !! j = Some x ->
    exists out, invoke_model it0 x = Ok out /\
      ys !! j = Some (tf_clip_squeeze lib out).
Proof.
  intros Hmap j x Hx.
  apply pool_map_returns in Hmap as [Hlen Hnth].
  destruct (pool_run_one_at_a_time model frames it0) as (_ & _ & Hall).
  specialize (Hall j x Hx).
  rewrite (proj2 (Nat.ltb_lt j (length frames))) in Hall
    by (eapply lookup_lt_Some, Hx).
  destruct (lookup_lt_is_Some_2 ys j) as [y Hy].
  { rewrite Hlen. eapply lookup_lt_Some, Hx. }
  pose proof (proj1 (Hnth j y) Hy) as Ht. rewrite Hall in Ht.
  unfold tflite_result in Ht.
  destruct (invoke_model it0 x) as [out|e]; [|discriminate Ht].
  exists out. split; [reflexivity|]. congruence.
Qed.

Lemma video_second_tflite sched p it batch p' :
  interpreter p = Some it -> saved_model p = None ->
  video_second lib sched p = (Ok batch, p') ->
  exists n,
    py_int (video_fps p) = Ok n /\
    length batch = py_range n /\
    py_range n <= length (video_iterator p) /\
    fst (pool_map lib ByTflite None sched
           (map (prepared lib) (take (py_range n) (video_iterator p)))
           (Some it)) = Ok batch.
Proof.
  intros Hit Hsm Hrun.
  assert (Hn : exists n, py_int (video_fps p) = Ok n).
  { rewrite video_second_eq in Hrun.
    destruct (py_int (video_fps p)); [eauto|discriminate Hrun]. }
  destruct Hn as [n Hn]. exists n.
  destruct (video_second_frames sched p n batch p' Hn Hrun) as (Hlen & Hle).
  destruct (video_second_enough sched p n Hn Hle) as (p1 & Hrun1 & _).
  rewrite Hrun in Hrun1. unfold resolution_fn in Hrun1.
  rewrite Hit, Hsm in Hrun1. injection Hrun1 as Hb _.
  split_and!; auto.
Qed.


(** X13. On the TFLite path, when the pool runs the tasks of a batch one
    after the other (no task starts before the one before it is done),
    the batch [video_second] returns has, at place [j], what the model
    makes of the [j]-th frame pulled, clipped and squeezed. *)
Theorem tflite_batch_one_at_a_time p it batch p' :
  interpreter p = Some it -> saved_model p = None ->
  video_second lib [] p = (Ok batch, p') ->
  forall j frame, j < length batch -> video_iterator p !! j = Some frame ->
    exists out,
      invoke_model it (prepared lib frame) = Ok out /\
      batch !! j = Some (tf_clip_squeeze lib out).
Proof.
  intros Hit Hsm Hrun j frame Hj Hframe.
  destruct (video_second_tflite [] p it batch p' Hit Hsm Hrun)
    as (n & Hn & Hlen & Hle & Hmap).
  destruct (pool_map lib ByTflite None []
              (map (prepared lib) (take (py_range n) (video_iterator p)))
              (Some it)) as [r it'] eqn:Hpm.
  cbn [fst] in Hmap. subst r.
  apply (pool_map_one_at_a_time _ _ _ _ _ Hpm j (prepared lib frame)).
  change (map (prepared lib) (take (py_range n) (video_iterator p)))
    with (prepared lib <$> take (py_range n) (video_iterator p)).
  rewrite list_lookup_fmap, lookup_take_lt by lia.
  rewrite Hframe. reflexivity.
Qed.

(** ** Edges of a fetch *)

Lemma run_schedule_no_task fn model sched s :
  tasks s = [] -> run_schedule lib fn model sched s = s.
Proof.
  intros Hs. unfold run_schedule. induction sched as [|i sched IH]; [reflexivity|].
  simpl. replace (task_step lib fn model i s) with s; [exact IH|].
  unfold task_step. rewrite Hs. reflexivity.
Qed.

Lemma pool_map_no_frame fn model sched it :
  pool_map lib fn model sched [] it = (Ok [], it).
Proof.
  unfold pool_map, pool_run. rewrite run_schedule_no_task by reflexivity.
  reflexivity.
Qed.

Lemma fetch_frames_exhausts n : forall acc p,
  length (video_iterator p) < n ->
  video_iterator (snd (fetch_frames lib n acc p)) = [].
Proof.
  induction n as [|n IH]; intros acc p Hn; [lia|].
  simpl. unfold bind, next_video_frame.
  destruct (video_iterator p) as [|f rest] eqn:Hit; simpl; [exact Hit|].
  apply IH. simpl in *. lia.
Qed.

(** X14. At a frame rate whose integer part is zero or less,
    [video_second] pulls no frame and returns the empty batch, leaving
    the player as it was. *)
Theorem video_second_low_fps sched (p : Player') n :
  py_int (video_fps p) = Ok n -> (n <= 0)%Z ->
  video_second lib sched p = (Ok [], p).
Proof.
  intros Hn Hle. unfold video_second, bind. rewrite Hn.
  replace (py_range n) with 0 by (unfold py_range; lia).
  simpl.
  pose proof (pool_map_no_frame (resolution_fn p) (saved_model p) sched
                (interpreter p)) as Hmap.
  unfold pool_map in Hmap. injection Hmap as -> ->. destruct p. reflexivity.
Qed.

(** X15. When the clip has a chunk left but fewer than [int(fps)] frames,
    [fetch_video] raises [StopIteration]: the chunk and the frames left
    are consumed, nothing is put on a queue and the model is not
    called. *)
Theorem fetch_video_out_of_frames sched (p : Player') n audio rest :
  audio_iterator p = audio :: rest ->
  py_int (video_fps p) = Ok n ->
  length (video_iterator p) < py_range n ->
  exists p',
    fetch_video lib sched p = (Raise StopIteration, p') /\
    audio_iterator p' = rest /\
    video_iterator p' = [] /\
    audio_queue p' = audio_queue p /\
    video_queue p' = video_queue p /\
    log p' = log p /\
    interpreter p' = interpreter p.
Proof.
  intros Hai Hn Hlt.
  unfold fetch_video, bind, next_audio_chunk. rewrite Hai. simpl.
  set (p1 := set_audio_iterator rest p).
  rewrite video_second_eq. change (video_fps p1) with (video_fps p). rewrite Hn.
  pose proof (fetch_frames_exhausts (py_range n) [] p1 Hlt) as Hex.
  destruct (fetch_frames_short (py_range n) [] p1 Hlt)
    as (p' & Hrun & Hai' & Hint & Hp).
  rewrite Hrun in Hex |- *. exists p'.
  destruct Hp as (_ & _ & _ & _ & _ & _ & Hvq & Haq & Hlog & _).
  split_and!; try assumption; reflexivity.
Qed.

(** ** Calling [run] again *)

(** X16. A player can be run once: on a player whose audio thread was
    started before, [run] takes the lock, finds or sets the flag, releases
    the lock and raises [RuntimeError] at [self.audio_thread.start()],
    before anything is fetched or put. *)
Theorem run_again_raises (w : World') (sa sb sc sd : list nat) :
  audio_thread w <> ANotStarted ->
  lock (self w) = false ->
  let w' := steps lib [Run sa; Run sb; Run sc; Run sd]
              (at_main (self w) PAcquire1 w) in
  main w' = PRaised RuntimeError /\
  running (self w') = true /\
  lock (self w') = false /\
  audio_thread w' = audio_thread w /\
  video_thread w' = video_thread w /\
  audio_queue (self w') = audio_queue (self w) /\
  video_queue (self w') = video_queue (self w) /\
  audio_iterator (self w') = audio_iterator (self w) /\
  video_iterator (self w') = video_iterator (self w).
Proof.
  intros Hstarted Hlock. cbn [steps fold_left].
  assert (H1 : step lib (Run sa) (at_main (self w) PAcquire1 w)
               = at_main (set_lock true (self w)) PGuard1 w).
  { cbn [step]. unfold run_step. cbn [main self at_main]. rewrite Hlock.
    reflexivity. }
  rewrite H1. clear H1.
  set (p1 := start_transition (set_lock true (self w))).
  assert (H2 : step lib (Run sb) (at_main (set_lock true (self w)) PGuard1 w)
               = at_main p1 PRelease1 w) by reflexivity.
  rewrite H2. clear H2.
  assert (H3 : step lib (Run sc) (at_main p1 PRelease1 w)
               = at_main (set_lock false p1) PStartAudio w) by reflexivity.
  rewrite H3. clear H3.
  assert (H4 : step lib (Run sd) (at_main (set_lock false p1) PStartAudio w)
               = at_main (set_lock false p1) (PRaised RuntimeError) w).
  { cbn [step]. unfold run_step. cbn [main self at_main audio_thread].
    destruct (audio_thread w); try contradiction; reflexivity. }
  rewrite H4. clear H4. subst p1. unfold start_transition.
  cbn [running set_lock]. destruct (running (self w)) eqn:Hr;
    cbn -[stream_payload]; rewrite ?Hr; split_and!; reflexivity.
Qed.

(** ** What each thread leaves alone *)

Lemma audio_step_apart (w : World') :
  main (step lib Audio w) = main w /\
  video_thread (step lib Audio w) = video_thread w /\
  video_side (self (step lib Audio w)) = video_side (self w) /\
  producer_side (self (step lib Audio w)) = producer_side (self w) /\
  clip_side (self (step lib Audio w)) = clip_side (self w).
Proof.
  cbn [step]. unfold write_audio_stream_step, audio_side, video_side,
    producer_side, clip_side.
  destruct (audio_thread w); repeat case_match;
    cbn -[stream_payload Nat.ltb];
    try match goal with H : running _ = _ |- _ => rewrite <- H end; auto.
Qed.

Lemma video_step_apart (w : World') :
  main (step lib Video w) = main w /\
  audio_thread (step lib Video w) = audio_thread w /\
  audio_side (self (step lib Video w)) = audio_side (self w) /\
  producer_side (self (step lib Video w)) = producer_side (self w) /\
  clip_side (self (step lib Video w)) = clip_side (self w).
Proof.
  cbn [step]. unfold write_video_stream_step, frame_interval, sleep, present,
    audio_side, video_side, producer_side, clip_side.
  destruct (video_thread w); repeat case_match; simplify_eq;
    cbn -[stream_payload Nat.ltb];
    try match goal with H : running _ = _ |- _ => rewrite <- H end; auto.
Qed.

Lemma clip_side_pulls (p p' : Player') :
  pulls p p' -> screen_size p' = screen_size p -> clip_side p' = clip_side p.
Proof.
  intros (Hf & Hd & Ht & _ & Hs & _) Hsc. unfold clip_side.
  rewrite Hf, Hd, Ht, Hs, Hsc. reflexivity.
Qed.

Lemma fetch_frames_screen n : forall acc (p : Player'),
  screen_size (snd (fetch_frames lib n acc p)) = screen_size p.
Proof.
  induction n as [|n IH]; intros acc p; [reflexivity|].
  simpl. unfold bind, next_video_frame.
  destruct (video_iterator p) as [|f rest]; [reflexivity|]. simpl.
  rewrite IH. reflexivity.
Qed.

Lemma fetch_pull_screen sched (p : Player') :
  screen_size (snd (fetch_pull lib sched p)) = screen_size p.
Proof.
  rewrite fetch_pull_eq. unfold py_next.
  destruct (audio_iterator p) as [|a rest]; [reflexivity|].
  assert (H : screen_size (snd (video_second lib sched (set_audio_iterator rest p)))
              = screen_size p).
  { rewrite video_second_eq.
    destruct (py_int _); [|reflexivity].
    pose proof (fetch_frames_screen (py_range a0) [] (set_audio_iterator rest p))
      as Hs.
    destruct (fetch_frames lib _ _ _) as [[frames|e] p1]; exact Hs. }
  destruct (video_second lib sched (set_audio_iterator rest p)) as [[v|e] p1];
    exact H.
Qed.

Lemma run_step_apart sched (w : World') :
  audio_gets (log (self (step lib (Run sched) w))) = audio_gets (log (self w)) /\
  stream_writes (log (self (step lib (Run sched) w)))
    = stream_writes (log (self w)) /\
  video_gets (log (self (step lib (Run sched) w))) = video_gets (log (self w)) /\
  blits (log (self (step lib (Run sched) w))) = blits (log (self w)) /\
  audio_queue (self w) `prefix_of` audio_queue (self (step lib (Run sched) w)) /\
  video_queue (self w) `prefix_of` video_queue (self (step lib (Run sched) w)) /\
  clip_side (self (step lib (Run sched) w)) = clip_side (self w).
Proof.
  pose proof (fetch_pull_pulls sched (self w)) as Hp.
  pose proof (fetch_pull_screen sched (self w)) as Hsc.
  pose proof (clip_side_pulls _ _ Hp Hsc) as Hclip.
  destruct Hp as (_ & _ & _ & _ & _ & _ & Hvq & Haq & Hlog & _).
  cbn [step]. unfold run_step.
  destruct (main w); try destruct (i <? n);
    try destruct (fetch_pull lib sched (self w)) as [[[a v]|e] p1];
    rewrite ?sleep_producer; unfold start_transition, clip_side in *;
    repeat case_match; cbn -[stream_payload Nat.ltb] in *;
    rewrite ?Hvq, ?Haq, ?Hlog;
    split_and!; try reflexivity; try assumption;
    try (eexists; reflexivity).
Qed.

(** X18. No thread reaches into what is another's: a step of the audio
    consumer leaves [run], the video consumer, the video queue and the
    display, the iterators, the interpreter, the flag and the lock as
    they are; a step of the video consumer does so for the audio queue
    and the stream; a step of [run] takes nothing from a queue, writes
    and draws nothing, and only adds at the end of a queue. *)
Theorem threads_keep_apart (w : World') sched :
  (main (step lib Audio w) = main w /\
   video_thread (step lib Audio w) = video_thread w /\
   video_side (self (step lib Audio w)) = video_side (self w) /\
   producer_side (self (step lib Audio w)) = producer_side (self w) /\
   clip_side (self (step lib Audio w)) = clip_side (self w)) /\
  (main (step lib Video w) = main w /\
   audio_thread (step lib Video w) = audio_thread w /\
   audio_side (self (step lib Video w)) = audio_side (self w) /\
   producer_side (self (step lib Video w)) = producer_side (self w) /\
   clip_side (self (step lib Video w)) = clip_side (self w)) /\
  (audio_gets (log (self (step lib (Run sched) w))) = audio_gets (log (self w)) /\
   stream_writes (log (self (step lib (Run sched) w)))
     = stream_writes (log (self w)) /\
   video_gets (log (self (step lib (Run sched) w))) = video_gets (log (self w)) /\
   blits (log (self (step lib (Run sched) w))) = blits (log (self w)) /\
   audio_queue (self w) `prefix_of` audio_queue (self (step lib (Run sched) w)) /\
   video_queue (self w) `prefix_of` video_queue (self (step lib (Run sched) w)) /\
   clip_side (self (step lib (Run sched) w)) = clip_side (self w)).
Proof.
  exact (conj (audio_step_apart w)
           (conj (video_step_apart w) (run_step_apart sched w))).
Qed.

(** Once the video consumer has raised, nothing more is drawn. *)
Lemma blits_raised_forever more : forall (w : World') e,
  video_thread w = VRaised e ->
  blits (log (self (steps lib more w))) = blits (log (self w)).
Proof.
  induction more as [|l more IH]; intros w e Hr; [reflexivity|].
  change (steps lib (l :: more) w) with (steps lib more (step lib l w)).
  destruct (video_raised_step l w e Hr) as [Hr' _].
  rewrite (IH _ e Hr').
  destruct l as [sched| |].
  - apply (run_step_apart sched w).
  - destruct (audio_step_apart w) as (_ & _ & Hvs & _).
    unfold video_side in Hvs. congruence.
  - cbn [step]. unfold write_video_stream_step. rewrite Hr. reflexivity.
Qed.

(** ** A whole playback *)

Lemma steps_cons l ls (w : World') :
  steps lib (l :: ls) w = steps lib ls (step lib l w).
Proof. reflexivity. Qed.

Lemma at_main_same (w : World') : at_main (self w) (main w) w = w.
Proof. destruct w. reflexivity. Qed.

Lemma audio_steps_apart k : forall w : World',
  main (steps lib (repeat Audio k) w) = main w /\
  video_thread (steps lib (repeat Audio k) w) = video_thread w /\
  video_side (self (steps lib (repeat Audio k) w)) = video_side (self w) /\
  producer_side (self (steps lib (repeat Audio k) w)) = producer_side (self w) /\
  clip_side (self (steps lib (repeat Audio k) w)) = clip_side (self w).
Proof.
  induction k as [|k IH]; intros w; [simpl; auto|].
  cbn [repeat]. rewrite steps_cons.
  destruct (IH (step lib Audio w)) as (? & ? & ? & ? & ?).
  destruct (audio_step_apart w) as (? & ? & ? & ? & ?).
  split_and!; congruence.
Qed.

Lemma video_steps_apart k : forall w : World',
  main (steps lib (repeat Video k) w) = main w /\
  audio_thread (steps lib (repeat Video k) w) = audio_thread w /\
  audio_side (self (steps lib (repeat Video k) w)) = audio_side (self w) /\
  producer_side (self (steps lib (repeat Video k) w)) = producer_side (self w) /\
  clip_side (self (steps lib (repeat Video k) w)) = clip_side (self w).
Proof.
  induction k as [|k IH]; intros w; [simpl; auto|].
  cbn [repeat]. rewrite steps_cons.
  destruct (IH (step lib Video w)) as (? & ? & ? & ? & ?).
  destruct (video_step_apart w) as (? & ? & ? & ? & ?).
  split_and!; congruence.
Qed.

Lemma run_steps_apart k : forall w : World',
  audio_gets (log (self (steps lib (repeat (Run []) k) w)))
    = audio_gets (log (self w)) /\
  stream_writes (log (self (steps lib (repeat (Run []) k) w)))
    = stream_writes (log (self w)) /\
  video_gets (log (self (steps lib (repeat (Run []) k) w)))
    = video_gets (log (self w)) /\
  blits (log (self (steps lib (repeat (Run []) k) w))) = blits (log (self w)).
Proof.
  induction k as [|k IH]; intros w; [simpl; auto|].
  cbn [repeat]. rewrite steps_cons.
  destruct (IH (step lib (Run []) w)) as (? & ? & ? & ?).
  destruct (run_step_apart [] w) as (? & ? & ? & ? & _).
  split_and!; congruence.
Qed.

(** The loop of [run] in the steps of the session. *)
Lemma producer_loop k : forall i (w : World') n p',
  main w = PFetch i n -> i + k <= n ->
  fetch_loop lib k i (fun _ => []) (self w) = (Ok tt, p') ->
  steps lib (repeat (Run []) (4 * k)) w = at_main p' (PFetch (i + k) n) w.
Proof.
  induction k as [|k IH]; intros i w n p' Hm Hle Hloop.
  - simpl in Hloop. injection Hloop as <-. rewrite Nat.add_0_r, <- Hm.
    simpl. symmetry. apply at_main_same.
  - replace (4 * S k) with (S (S (S (S (4 * k))))) by lia.
    cbn [repeat]. rewrite !steps_cons.
    cbn [fetch_loop] in Hloop. unfold bind in Hloop.
    rewrite fetch_video_pull in Hloop.
    destruct (fetch_pull lib [] (self w)) as [[[a v]|e] p1] eqn:Hf;
      [|discriminate Hloop].
    unfold put_video, put_audio, update in Hloop. cbn [snd] in Hloop.
    rewrite sleep_producer in Hloop.
    assert (H1 : step lib (Run []) w = at_main p1 (PPutAudio i n a v) w).
    { cbn [step]. unfold run_step. rewrite Hm. cbv beta iota zeta.
      rewrite (proj2 (Nat.ltb_lt i n)) by lia. rewrite Hf. reflexivity. }
    rewrite H1. clear H1.
    set (p2 := emit (EvAudioPut a) (set_audio_queue (audio_queue p1 ++ [a]) p1))
      in *.
    assert (H2 : step lib (Run []) (at_main p1 (PPutAudio i n a v) w)
                 = at_main p2 (PPutVideo i n v) w) by reflexivity.
    rewrite H2. clear H2.
    set (p3 := emit (EvVideoPut v) (set_video_queue (video_queue p2 ++ [v]) p2))
      in *.
    assert (H3 : step lib (Run []) (at_main p2 (PPutVideo i n v) w)
                 = at_main p3 (PPause i n) w) by reflexivity.
    rewrite H3. clear H3.
    assert (H4 : step lib (Run []) (at_main p3 (PPause i n) w)
                 = at_main (emit (EvSleep Producer FETCH_PAUSE) p3)
                     (PFetch (S i) n) w).
    { cbn [step]. unfold run_step. cbn [main self at_main].
      rewrite sleep_producer. reflexivity. }
    rewrite H4. clear H4.
    rewrite (IH (S i) _ n p'); [| reflexivity | lia | exact Hloop].
    unfold at_main. cbn [audio_thread video_thread].
    replace (S i + k) with (i + S k) by lia. reflexivity.
Qed.

(** From the call of [run] to the head of its loop. *)
Lemma run_prelude (p0 : Player') d :
  lock p0 = false -> running p0 = false ->
  py_int (video_duration p0) = Ok d ->
  steps lib (repeat (Run []) 6) (session p0) =
    {| self := set_lock false (emit EvRunning (set_running true (set_lock true p0)));
       main := PFetch 0 (py_range d);
       audio_thread := ABuffering;
       video_thread := VBuffering |}.
Proof.
  intros Hlock Hrun Hd. cbn [repeat]. rewrite !steps_cons.
  assert (H1 : step lib (Run []) (session p0)
               = at_main (set_lock true p0) PGuard1 (session p0)).
  { cbn [step]. unfold run_step. cbn [main self session]. rewrite Hlock.
    reflexivity. }
  rewrite H1. clear H1.
  assert (H2 : step lib (Run []) (at_main (set_lock true p0) PGuard1 (session p0))
               = at_main (emit EvRunning (set_running true (set_lock true p0)))
                   PRelease1 (session p0)).
  { cbn [step]. unfold run_step, start_transition. cbn [main self at_main].
    cbn [running set_lock]. rewrite Hrun. reflexivity. }
  rewrite H2. clear H2.
  set (p1 := set_lock false (emit EvRunning (set_running true (set_lock true p0)))).
  assert (H6 : py_int (video_duration p1) = Ok d) by exact Hd.
  cbn [step]. unfold run_step at 4. cbn [main self at_main]. fold p1.
  unfold run_step at 3. cbn [main self at_main audio_thread video_thread session].
  unfold run_step at 2. cbn [main self at_main audio_thread video_thread session].
  unfold run_step. cbn [main self at_main audio_thread video_thread session].
  rewrite H6. reflexivity.
Qed.

(** From the end of the loop to the first [join]. *)
Lemma run_epilogue (w : World') n :
  main w = PFetch n n -> lock (self w) = false -> running (self w) = true ->
  steps lib (repeat (Run []) 4) w =
    at_main (set_lock false (set_lock true (self w))) PJoinAudio w.
Proof.
  intros Hm Hlock Hrun. cbn [repeat]. rewrite !steps_cons.
  assert (H1 : step lib (Run []) w = at_main (self w) PAcquire2 w).
  { cbn [step]. unfold run_step. rewrite Hm. cbv beta iota zeta.
    rewrite Nat.ltb_irrefl. reflexivity. }
  rewrite H1. clear H1.
  assert (H2 : step lib (Run []) (at_main (self w) PAcquire2 w)
               = at_main (set_lock true (self w)) PGuard2 w).
  { cbn [step]. unfold run_step. cbn [main self at_main]. rewrite Hlock.
    reflexivity. }
  rewrite H2. clear H2.
  assert (H3 : step lib (Run []) (at_main (set_lock true (self w)) PGuard2 w)
               = at_main (set_lock true (self w)) PRelease2 w).
  { cbn [step]. unfold run_step, start_transition. cbn [main self at_main].
    cbn [running set_lock]. rewrite Hrun. reflexivity. }
  rewrite H3. clear H3. reflexivity.
Qed.

(** The audio consumer takes and writes what is queued. *)
Lemma audio_drains q : forall w : World',
  audio_thread w = ATest -> running (self w) = true ->
  audio_queue (self w) = q ->
  audio_thread (steps lib (repeat Audio (3 * length q)) w) = ATest /\
  audio_queue (self (steps lib (repeat Audio (3 * length q)) w)) = [] /\
  stream_writes (log (self (steps lib (repeat Audio (3 * length q)) w)))
    = stream_writes (log (self w)) ++ map stream_payload q.
Proof.
  induction q as [|a q IH]; intros w Ht Hr Hq.
  - simpl. rewrite app_nil_r. auto.
  - replace (3 * length (a :: q)) with (S (S (S (3 * length q))))
      by (simpl; lia).
    cbn [repeat]. rewrite !steps_cons.
    assert (H1 : step lib Audio w = at_audio (self w) (AGet 0) w).
    { cbn [step]. unfold write_audio_stream_step. rewrite Ht.
      cbv beta iota zeta. rewrite Hr. reflexivity. }
    rewrite H1. clear H1.
    set (p2 := emit (EvAudioGet a) (set_audio_queue q (self w))).
    assert (H2 : step lib Audio (at_audio (self w) (AGet 0) w)
                 = at_audio p2 (AWrite a) w).
    { cbn [step]. unfold write_audio_stream_step.
      cbn [audio_thread at_audio self]. rewrite Hq. reflexivity. }
    rewrite H2. clear H2.
    set (p3 := emit (EvStreamWrite (stream_payload a)) p2).
    assert (H3 : step lib Audio (at_audio p2 (AWrite a) w)
                 = at_audio p3 ATest w) by reflexivity.
    rewrite H3. clear H3.
    destruct (IH (at_audio p3 ATest w)) as (Ht' & Hq' & Hw');
      [reflexivity | exact Hr | reflexivity |].
    split_and!; [exact Ht' | exact Hq' |].
    rewrite Hw'. subst p3 p2. cbn -[stream_payload]. rewrite <- app_assoc.
    reflexivity.
Qed.

(** A [get] on an empty queue ends in [queue.Empty]. *)
Lemma audio_times_out k : forall (w : World') waited,
  waited + k = GET_TIMEOUT ->
  audio_thread w = AGet waited -> audio_queue (self w) = [] ->
  steps lib (repeat Audio (S k)) w = at_audio (self w) (ARaised QueueEmpty) w.
Proof.
  induction k as [|k IH]; intros w waited Hk Ht Hq.
  - cbn [repeat]. rewrite steps_cons. cbn [steps fold_left step].
    unfold write_audio_stream_step. rewrite Ht. cbv beta iota zeta. rewrite Hq.
    rewrite (proj2 (Nat.ltb_ge waited GET_TIMEOUT)) by lia. reflexivity.
  - cbn [repeat]. rewrite steps_cons.
    assert (H1 : step lib Audio w = at_audio (self w) (AGet (S waited)) w).
    { cbn [step]. unfold write_audio_stream_step. rewrite Ht.
      cbv beta iota zeta. rewrite Hq.
      rewrite (proj2 (Nat.ltb_lt waited GET_TIMEOUT)) by lia. reflexivity. }
    rewrite H1. clear H1.
    change (Audio :: repeat Audio k) with (repeat Audio (S k)).
    rewrite (IH _ (S waited)); [reflexivity | lia | reflexivity | exact Hq].
Qed.

Lemma video_times_out k : forall (w : World') waited,
  waited + k = GET_TIMEOUT ->
  video_thread w = VGet waited -> video_queue (self w) = [] ->
  steps lib (repeat Video (S k)) w = at_video (self w) (VRaised QueueEmpty) w.
Proof.
  induction k as [|k IH]; intros w waited Hk Ht Hq.
  - cbn [repeat]. rewrite steps_cons. cbn [steps fold_left step].
    unfold write_video_stream_step. rewrite Ht. cbv beta iota zeta. rewrite Hq.
    rewrite (proj2 (Nat.ltb_ge waited GET_TIMEOUT)) by lia. reflexivity.
  - cbn [repeat]. rewrite steps_cons.
    assert (H1 : step lib Video w = at_video (self w) (VGet (S waited)) w).
    { cbn [step]. unfold write_video_stream_step. rewrite Ht.
      cbv beta iota zeta. rewrite Hq.
      rewrite (proj2 (Nat.ltb_lt waited GET_TIMEOUT)) by lia. reflexivity. }
    rewrite H1. clear H1.
    change (Video :: repeat Video k) with (repeat Video (S k)).
    rewrite (IH _ (S waited)); [reflexivity | lia | reflexivity | exact Hq].
Qed.

Lemma clip_side_interval (p p' : Player') :
  clip_side p' = clip_side p -> frame_interval p' = frame_interval p.
Proof.
  unfold clip_side, frame_interval. intros [= -> _ -> _ _]. reflexivity.
Qed.

Lemma producer_side_eq (p p' : Player') :
  producer_side p' = producer_side p ->
  running p' = running p /\ video_puts (log p') = video_puts (log p).
Proof. unfold producer_side. intros [= _ _ _ -> _ _ ->]. auto. Qed.

Lemma video_side_eq (p p' : Player') :
  video_side p' = video_side p ->
  video_queue p' = video_queue p /\ blits (log p') = blits (log p).
Proof. unfold video_side. intros [= -> _ ->]. auto. Qed.

Lemma audio_side_eq (p p' : Player') :
  audio_side p' = audio_side p ->
  stream_writes (log p') = stream_writes (log p).
Proof. unfold audio_side. intros [= _ _ ->]. auto. Qed.

(** The video consumer shows a batch, frame after frame. *)
Lemma batch_shown b : forall (w : World') d,
  video_thread w = VFrame b ->
  frame_interval (self w) = Ok d -> (0 <=? d)%float = true ->
  video_thread (steps lib (repeat Video (2 * length b + 1)) w) = VTest /\
  video_queue (self (steps lib (repeat Video (2 * length b + 1)) w))
    = video_queue (self w) /\
  blits (log (self (steps lib (repeat Video (2 * length b + 1)) w)))
    = blits (log (self w)) ++ map (make_surface lib) b.
Proof.
  induction b as [|f b IH]; intros w d Ht Hd Hpos.
  - cbn [length Nat.mul Nat.add repeat]. rewrite steps_cons.
    cbn [steps fold_left step]. unfold write_video_stream_step. rewrite Ht.
    cbn [map]. rewrite app_nil_r. auto.
  - replace (2 * length (f :: b) + 1) with (S (S (2 * length b + 1)))
      by (simpl; lia).
    cbn [repeat]. rewrite !steps_cons.
    assert (H1 : step lib Video w = at_video (present lib f (self w)) (VPace b) w).
    { cbn [step]. unfold write_video_stream_step. rewrite Ht. reflexivity. }
    rewrite H1. clear H1.
    set (p1 := present lib f (self w)).
    assert (Hd1 : frame_interval p1 = Ok d) by exact Hd.
    assert (H2 : step lib Video (at_video p1 (VPace b) w)
                 = at_video (emit (EvSleep VideoConsumer d) p1) (VFrame b) w).
    { cbn [step]. unfold write_video_stream_step.
      cbn [video_thread at_video self]. rewrite Hd1. unfold sleep.
      rewrite Hpos. reflexivity. }
    rewrite H2. clear H2.
    destruct (IH (at_video (emit (EvSleep VideoConsumer d) p1) (VFrame b) w) d)
      as (Ht' & Hq' & Hb'); [reflexivity | exact Hd | exact Hpos |].
    split_and!; [exact Ht' | rewrite Hq'; reflexivity |].
    rewrite Hb'. subst p1. unfold present. cbn -[stream_payload].
    rewrite <- app_assoc. reflexivity.
Qed.

(** The video consumer takes and shows what is queued. *)
Lemma video_drains q : forall (w : World') d,
  video_thread w = VTest -> running (self w) = true ->
  video_queue (self w) = q ->
  frame_interval (self w) = Ok d -> (0 <=? d)%float = true ->
  video_thread (steps lib (repeat Video (show_steps q)) w) = VTest /\
  video_queue (self (steps lib (repeat Video (show_steps q)) w)) = [] /\
  blits (log (self (steps lib (repeat Video (show_steps q)) w)))
    = blits (log (self w)) ++ map (make_surface lib) (concat q).
Proof.
  induction q as [|b q IH]; intros w d Ht Hr Hq Hd Hpos.
  - simpl. rewrite app_nil_r. auto.
  - replace (show_steps (b :: q))
      with (S (S ((2 * length b + 1) + show_steps q))) by (simpl; lia).
    cbn [repeat]. rewrite !steps_cons, repeat_app, steps_app.
    assert (H1 : step lib Video w = at_video (self w) (VGet 0) w).
    { cbn [step]. unfold write_video_stream_step. rewrite Ht.
      cbv beta iota zeta. rewrite Hr. reflexivity. }
    rewrite H1. clear H1.
    set (p2 := emit (EvVideoGet b) (set_video_queue q (self w))).
    assert (H2 : step lib Video (at_video (self w) (VGet 0) w)
                 = at_video p2 (VFrame b) w).
    { cbn [step]. unfold write_video_stream_step.
      cbn [video_thread at_video self]. rewrite Hq. reflexivity. }
    rewrite H2. clear H2.
    set (w2 := at_video p2 (VFrame b) w).
    destruct (batch_shown b w2 d) as (Ht3 & Hq3 & Hb3);
      [reflexivity | exact Hd | exact Hpos |].
    destruct (video_steps_apart (2 * length b + 1) w2)
      as (_ & _ & _ & Hps & Hcs).
    apply producer_side_eq in Hps as [Hr3 _].
    apply clip_side_interval in Hcs.
    set (w3 := steps lib (repeat Video (2 * length b + 1)) w2) in *.
    destruct (IH w3 d) as (Ht' & Hq' & Hb').
    + exact Ht3.
    + rewrite Hr3. exact Hr.
    + rewrite Hq3. reflexivity.
    + rewrite Hcs. exact Hd.
    + exact Hpos.
    + split_and!; [exact Ht' | exact Hq' |].
      rewrite Hb', Hb3. subst w2 p2. cbn -[stream_payload].
      rewrite map_app, <- app_assoc. reflexivity.
Qed.

(** X19. A clip of [BUFFER_SIZE] whole seconds or more, with the chunks
    and frames its duration and frame rate promise, a model that does not
    raise and an interval that is not negative, can be played to the end:
    there is a session in which [run] returns, every chunk of the first
    [int(duration)] was written to the stream in its order, every frame
    of every batch put was drawn in its order, and both consumers ended
    in the timeout of their [get]. *)
Theorem playback_completes clip_fps clip_duration clip_frames clip_chunks
    tflite model d n pause :
  let p0 := Player_init clip_fps clip_duration clip_frames clip_chunks
              tflite model in
  never_raises p0 ->
  py_int clip_duration = Ok d ->
  py_int clip_fps = Ok n ->
  BUFFER_SIZE <= py_range d ->
  py_range d <= length clip_chunks ->
  py_range d * py_range n <= length clip_frames ->
  frame_interval p0 = Ok pause ->
  (0 <=? pause)%float = true ->
  exists batches,
    let w := steps lib (whole_playback (py_range d) batches) (session p0) in
    main w = PReturned /\
    audio_thread w = ARaised QueueEmpty /\
    video_thread w = VRaised QueueEmpty /\
    video_puts (log (self w)) = batches /\
    length batches = py_range d /\
    Forall (fun b => length b = py_range n) batches /\
    stream_writes (log (self w))
      = map stream_payload (take (py_range d) clip_chunks) /\
    blits (log (self w)) = map (make_surface lib) (concat batches).
Proof.
  intros p0 Hnr Hd Hn Hbuf Hchunks Hframes Hint Hpos.
  set (N := py_range d) in *.
  (* run, to its first join *)
  pose proof (run_prelude p0 d eq_refl eq_refl Hd) as Hpre. fold N in Hpre.
  set (p1 := set_lock false (emit EvRunning (set_running true (set_lock true p0))))
    in *.
  set (w1 := {| self := p1; main := PFetch 0 N;
                audio_thread := ABuffering; video_thread := VBuffering |}) in *.
  destruct (fetch_loop_ok (fun _ => []) n N 0 p1 Hnr Hn Hchunks Hframes)
    as (batches & p2 & Hloop & Hlen & Hall & Haq & Hvq & _).
  exists batches.
  pose proof (producer_loop N 0 w1 N p2 eq_refl (le_n N) Hloop) as Hmid.
  cbn [Nat.add] in Hmid.
  set (w2 := at_main p2 (PFetch N N) w1) in *.
  assert (Hw2 : steps lib (repeat (Run []) (6 + 4 * N)) (session p0) = w2).
  { rewrite repeat_app, steps_app, Hpre. exact Hmid. }
  pose proof (flag_inv_reachable p0 w2
                (Player_init_new clip_fps clip_duration clip_frames
                   clip_chunks tflite model)) as Hflag.
  rewrite <- Hw2 in Hflag. specialize (Hflag (reachable_steps _ _)).
  rewrite Hw2 in Hflag. unfold flag_inv in Hflag. simpl in Hflag.
  destruct Hflag as (Hrun2 & _ & Hlock2).
  pose proof (run_epilogue w2 N eq_refl Hlock2 Hrun2) as Hepi.
  set (p3 := set_lock false (set_lock true p2)) in *.
  set (w3 := at_main p3 PJoinAudio w2) in *.
  assert (Hw3 : steps lib (repeat (Run []) (6 + 4 * N + 4)) (session p0) = w3).
  { rewrite repeat_app, steps_app, Hw2. exact Hepi. }
  assert (Hreach3 : reachable lib p0 w3)
    by (rewrite <- Hw3; apply reachable_steps).
  pose proof (Player_init_new clip_fps clip_duration clip_frames
                clip_chunks tflite model) as Hnew. fold p0 in Hnew.
  destruct (run_steps_apart (6 + 4 * N + 4) (session p0))
    as (_ & Hsw3 & Hvg3 & Hbl3).
  rewrite Hw3 in Hsw3, Hvg3, Hbl3.
  change (stream_writes (log p3) = []) in Hsw3.
  change (video_gets (log p3) = []) in Hvg3.
  change (blits (log p3) = []) in Hbl3.
  pose proof (fifo_inv_reachable p0 w3 Hnew Hreach3) as (_ & Hfifo & _).
  change (video_puts (log p3) = video_gets (log p3) ++ video_queue p2) in Hfifo.
  rewrite Hvg3, Hvq in Hfifo. change (video_puts (log p3) = batches) in Hfifo.
  pose proof (pace_inv_reachable p0 w3 Hnew Hreach3) as (Hfps3 & Htol3 & _).
  change (video_fps p3 = clip_fps) in Hfps3.
  change (tolerance p3 = 2.25%float) in Htol3.
  assert (Hint3 : frame_interval p3 = Ok pause).
  { unfold frame_interval. rewrite Hfps3, Htol3. exact Hint. }
  set (qa := take N clip_chunks) in *.
  assert (Hqa : audio_queue p3 = qa) by exact Haq.
  assert (Hqv : video_queue p3 = batches) by exact Hvq.
  assert (Hlqa : length qa = N) by (unfold qa; rewrite length_take; lia).
  (* the audio consumer, to its end *)
  set (w3a := at_audio p3 ATest w3).
  assert (Ha1 : step lib Audio w3 = w3a).
  { cbn [step]. unfold write_audio_stream_step.
    cbn [audio_thread at_main w3 w2 w1 self]. rewrite Hqa, Hlqa.
    rewrite (proj2 (Nat.ltb_ge N BUFFER_SIZE)) by exact Hbuf. reflexivity. }
  destruct (audio_drains qa w3a eq_refl Hrun2 Hqa) as (Hta & Hqa' & Hswa).
  destruct (audio_steps_apart (3 * length qa) w3a) as (_ & _ & _ & Hpsa & _).
  apply producer_side_eq in Hpsa as [Hra _].
  set (w3b := steps lib (repeat Audio (3 * length qa)) w3a) in *.
  assert (Ha2 : step lib Audio w3b = at_audio (self w3b) (AGet 0) w3b).
  { cbn [step]. unfold write_audio_stream_step. rewrite Hta.
    cbv beta iota zeta. rewrite Hra. change (running (self w3a)) with (running p2).
    rewrite Hrun2. reflexivity. }
  pose proof (audio_times_out 10 (at_audio (self w3b) (AGet 0) w3b) 0
                eq_refl eq_refl Hqa') as Ha3.
  set (w4 := at_audio (self w3b) (ARaised QueueEmpty) w3b).
  assert (Hw4 : steps lib (repeat Audio (1 + (3 * N + 12))) w3 = w4).
  { cbn [Nat.add repeat]. rewrite steps_cons, Ha1, repeat_app, steps_app.
    rewrite <- Hlqa. fold w3b. cbn [repeat]. rewrite steps_cons, Ha2.
    exact Ha3. }
  destruct (audio_steps_apart (1 + (3 * N + 12)) w3)
    as (Hm4 & Hvt4 & Hvs4 & Hps4 & Hcs4).
  rewrite Hw4 in Hm4, Hvt4, Hvs4, Hps4, Hcs4.
  apply video_side_eq in Hvs4 as [Hqv4 Hbl4].
  apply producer_side_eq in Hps4 as [Hr4 Hvp4].
  apply clip_side_interval in Hcs4.
  change (self w3) with p3 in *.
  assert (Hsw4 : stream_writes (log (self w4)) = map stream_payload qa).
  { change (self w4) with (self w3b). rewrite Hswa.
    change (self w3a) with p3. rewrite Hsw3. reflexivity. }
  (* the video consumer, to its end *)
  set (w4a := at_video (self w4) VTest w4).
  assert (Hv1 : step lib Video w4 = w4a).
  { cbn [step]. unfold write_video_stream_step. rewrite Hvt4.
    cbn [video_thread at_main w3 w2 w1]. cbv beta iota zeta.
    rewrite Hqv4, Hqv, Hlen.
    rewrite (proj2 (Nat.ltb_ge N BUFFER_SIZE)) by exact Hbuf. reflexivity. }
  assert (Hr4' : running (self w4) = true)
    by (rewrite Hr4; exact Hrun2).
  destruct (video_drains batches w4a pause eq_refl Hr4')
    as (Htv & Hqv' & Hblv).
  { change (self w4a) with (self w4). rewrite Hqv4. exact Hqv. }
  { change (self w4a) with (self w4). rewrite Hcs4. exact Hint3. }
  { exact Hpos. }
  destruct (video_steps_apart (show_steps batches) w4a)
    as (_ & _ & _ & Hpsv & _).
  apply producer_side_eq in Hpsv as [Hrv _].
  set (w4b := steps lib (repeat Video (show_steps batches)) w4a) in *.
  assert (Hv2 : step lib Video w4b = at_video (self w4b) (VGet 0) w4b).
  { cbn [step]. unfold write_video_stream_step. rewrite Htv.
    cbv beta iota zeta. rewrite Hrv. change (self w4a) with (self w4).
    rewrite Hr4'. reflexivity. }
  pose proof (video_times_out 10 (at_video (self w4b) (VGet 0) w4b) 0
                eq_refl eq_refl Hqv') as Hv3.
  set (w5 := at_video (self w4b) (VRaised QueueEmpty) w4b).
  assert (Hw5 : steps lib (repeat Video (1 + (show_steps batches + 12))) w4 = w5).
  { cbn [Nat.add repeat]. rewrite steps_cons, Hv1, repeat_app, steps_app.
    fold w4b. cbn [repeat]. rewrite steps_cons, Hv2. exact Hv3. }
  destruct (video_steps_apart (1 + (show_steps batches + 12)) w4)
    as (Hm5 & Hat5 & Has5 & Hps5 & _).
  rewrite Hw5 in Hm5, Hat5, Has5, Hps5.
  apply audio_side_eq in Has5.
  apply producer_side_eq in Hps5 as [_ Hvp5].
  assert (Hbl5 : blits (log (self w5)) = map (make_surface lib) (concat batches)).
  { change (self w5) with (self w4b). rewrite Hblv.
    change (self w4a) with (self w4). rewrite Hbl4, Hbl3. reflexivity. }
  (* the two joins *)
  assert (Hw6 : steps lib [Run []; Run []] w5 = at_main (self w5) PReturned w5).
  { rewrite !steps_cons.
    assert (H1 : step lib (Run []) w5 = at_main (self w5) PJoinVideo w5).
    { cbn [step]. unfold run_step. rewrite Hm5, Hm4.
      change (main w3) with (@PJoinAudio Frame). cbv beta iota zeta.
      rewrite Hat5. reflexivity. }
    rewrite H1. reflexivity. }
  unfold whole_playback. cbv zeta.
  rewrite !steps_app, Hw3, Hw4, Hw5, Hw6.
  cbn [main audio_thread video_thread self at_main].
  split_and!.
  - reflexivity.
  - exact Hat5.
  - reflexivity.
  - rewrite Hvp5, Hvp4. exact Hfifo.
  - exact Hlen.
  - exact Hall.
  - rewrite Has5. exact Hsw4.
  - exact Hbl5.
Qed.

(** ** What is read of the clip *)

Lemma video_second_consumes sched p batch p' :
  video_second lib sched p = (Ok batch, p') ->
  video_iterator p' = drop (frames_per_second p) (video_iterator p).
Proof.
  intros Hrun. unfold frames_per_second.
  assert (Hn : exists n, py_int (video_fps p) = Ok n).
  { rewrite video_second_eq in Hrun.
    destruct (py_int (video_fps p)); [eauto|discriminate Hrun]. }
  destruct Hn as [n Hn]. rewrite Hn.
  destruct (video_second_frames sched p n batch p' Hn Hrun) as (_ & Hle).
  destruct (video_second_enough sched p n Hn Hle) as (p1 & Hrun1 & Hvi).
  rewrite Hrun in Hrun1. injection Hrun1 as _ <-. exact Hvi.
Qed.

Lemma fetch_pull_consumes sched p audio video p' :
  fetch_pull lib sched p = (Ok (audio, video), p') ->
  audio_iterator p = audio :: audio_iterator p' /\
  video_iterator p' = drop (frames_per_second p) (video_iterator p).
Proof.
  intros Hf. split; [apply (fetch_pull_source sched p audio video p' Hf)|].
  rewrite fetch_pull_eq in Hf. unfold py_next in Hf.
  destruct (audio_iterator p) as [|a rest]; [discriminate|].
  destruct (video_second lib sched (set_audio_iterator rest p))
    as [[v|e] p1] eqn:Hv; [|discriminate].
  injection Hf as _ _ <-.
  apply video_second_consumes in Hv. exact Hv.
Qed.

Lemma drop_next {A : Type} (l : list A) i x rest :
  drop i l = x :: rest -> drop (S i) l = rest.
Proof.
  intros H. replace (S i) with (i + 1) by lia.
  rewrite <- drop_drop, H. reflexivity.
Qed.

Lemma cut_inv_step p0 l w :
  iter_inv p0 w -> cut_inv p0 w -> cut_inv p0 (step lib l w).
Proof.
  unfold iter_inv, cut_inv.
  pose proof (fun sched => fetch_pull_consumes sched (self w)) as Hcons.
  step_cases l w; intros (_ & Hit) (Hfps & Hcut);
    unfold raised, fetched, iter_at in *; place w; cbn -[Nat.ltb Nat.mul] in *;
    try (split; [assumption || congruence | assumption]);
    try (split; [assumption || congruence | intros; discriminate]).
  - destruct (Hcons sched a l p Hfetch) as (Hai & Hvi).
    destruct (Hcut eq_refl) as (Ha & Hv).
    split; [congruence|]. intros _. split.
    + rewrite Ha in Hai. apply drop_next in Hai. symmetry. exact Hai.
    + rewrite Hvi, Hv, drop_drop. unfold frames_per_second. rewrite Hfps.
      f_equal. lia.
  - apply Nat.ltb_ge in Heqb. destruct Hit as (-> & Hle & _).
    assert (i = iterations p0) as -> by lia.
    split; [assumption|]. exact Hcut.
Qed.

Lemma cut_inv_reachable p0 w :
  new_player p0 -> reachable lib p0 w -> cut_inv p0 w.
Proof.
  intros Hnew Hreach. induction Hreach as [|l w Hw IH].
  - split; [reflexivity|]. intros _. simpl. auto.
  - apply cut_inv_step; [|exact IH]. apply iter_inv_reachable; assumption.
Qed.

Lemma returned_forever more : forall w : World',
  main w = PReturned -> main (steps lib more w) = PReturned.
Proof.
  induction more as [|l more IH]; intros w Hpc; [exact Hpc|].
  rewrite steps_cons. apply IH.
  destruct l as [sched| |].
  - cbn [step]. unfold run_step. rewrite Hpc. exact Hpc.
  - rewrite (proj1 (audio_step_apart w)). exact Hpc.
  - rewrite (proj1 (video_step_apart w)). exact Hpc.
Qed.

(** X20. In every session and interleaving, on either path: at the head
    of iteration [i] of the loop of [run] the first [i] chunks and the
    first [i * int(fps)] frames of the clip have been read and no more;
    when [run] has returned, the first [int(duration)] chunks and the
    first [int(duration) * int(fps)] frames have been read, and what is
    left of the clip is never read. *)
Theorem clip_cut_to_whole_seconds clip_fps clip_duration clip_frames
    clip_chunks tflite model ls :
  let p0 := Player_init clip_fps clip_duration clip_frames clip_chunks
              tflite model in
  let w := steps lib ls (session p0) in
  (forall i n, main w = PFetch i n ->
     audio_iterator (self w) = drop i clip_chunks /\
     video_iterator (self w) = drop (i * frames_per_second p0) clip_frames) /\
  (main w = PReturned ->
     audio_iterator (self w) = drop (iterations p0) clip_chunks /\
     video_iterator (self w)
       = drop (iterations p0 * frames_per_second p0) clip_frames /\
     forall more,
       audio_iterator (self (steps lib more w)) = audio_iterator (self w) /\
       video_iterator (self (steps lib more w)) = video_iterator (self w)).
Proof.
  intros p0 w.
  pose proof (Player_init_new clip_fps clip_duration clip_frames
                clip_chunks tflite model) as Hnew. fold p0 in Hnew.
  assert (Hcut : forall more,
             cut_inv p0 (steps lib more w)).
  { intros more. apply cut_inv_reachable; [exact Hnew|].
    unfold w. rewrite <- steps_app. apply reachable_steps. }
  pose proof (Hcut []) as [_ Hw]. change (steps lib [] w) with w in Hw.
  split.
  - intros i n Hpc. rewrite Hpc in Hw. exact (Hw eq_refl).
  - intros Hpc. rewrite Hpc in Hw. destruct (Hw eq_refl) as (Ha & Hv).
    split_and!; [exact Ha | exact Hv |].
    intros more.
    pose proof (returned_forever more w Hpc) as Hret.
    destruct (Hcut more) as [_ Hm]. rewrite Hret in Hm.
    destruct (Hm eq_refl) as (Ha' & Hv').
    rewrite Ha', Hv', Ha, Hv. auto.
Qed.

(** ** Where an exception of [video_second] comes from *)

Lemma finish_exn_from_task i r s t :
  tasks s !! i = Some t -> (forall r', t <> Finished r') ->
  exn_from_task s -> exn_from_task (finish i r s).
Proof.
  intros Hi Hnf Hex e. unfold finish. simpl. intros He.
  assert (Hkeep : forall j e', tasks s !! j = Some (Finished (Raise e')) ->
            <[i := Finished r]> (tasks s) !! j = Some (Finished (Raise e'))).
  { intros j e' Hj. apply list_lookup_insert_Some. right. split; [|exact Hj].
    intros ->. rewrite Hi in Hj. injection Hj as ->. exact (Hnf _ eq_refl). }
  destruct (first_exn s) as [e0|] eqn:H0.
  - assert (e = e0) as -> by (destruct r; congruence).
    destruct (Hex e0 H0) as [j Hj]. eauto.
  - destruct r as [y|e1]; [discriminate He|]. injection He as <-.
    exists i. apply list_lookup_insert_Some. left.
    split_and!; auto. eapply lookup_lt_Some, Hi.
Qed.

Lemma move_exn_from_task i t' it s t :
  tasks s !! i = Some t -> (forall r', t <> Finished r') ->
  exn_from_task s -> exn_from_task (move i t' it s).
Proof.
  intros Hi Hnf Hex e. unfold move. simpl. intros He.
  destruct (Hex e He) as [j Hj]. exists j.
  apply list_lookup_insert_Some. right. split; [|exact Hj].
  intros ->. rewrite Hi in Hj. injection Hj as ->. exact (Hnf _ eq_refl).
Qed.

Lemma task_step_exn_from_task fn model i s :
  exn_from_task s -> exn_from_task (task_step lib fn model i s).
Proof.
  intros Hex. unfold task_step.
  destruct (tasks s !! i) as [[x| | |r]|] eqn:Hi; try exact Hex;
    repeat case_match; try exact Hex;
    first [ eapply finish_exn_from_task; [exact Hi | discriminate | exact Hex]
          | eapply move_exn_from_task; [exact Hi | discriminate | exact Hex] ].
Qed.

Lemma pool_run_exn_from_task fn model sched (frames : list Frame) it :
  exn_from_task (pool_run lib fn model sched frames it).
Proof.
  apply (pool_run_ind exn_from_task).
  - intros e He. discriminate He.
  - intros i s. apply task_step_exn_from_task.
Qed.

Lemma tflite_raise_ok_step it0 (frames : list Frame) model i s :
  own_batch lib it0 frames s -> tflite_raise_ok it0 frames s ->
  tflite_raise_ok it0 frames (task_step lib ByTflite model i s).
Proof.
  intros ((it & Hsh & Hmod) & _ & Hin & _ & _) Hok. unfold task_step.
  destruct (tasks s !! i) as [[x| | |r]|] eqn:Hi; try exact Hok.
  - destruct (in_flight (tasks s) <? POOL_THREADS); [|exact Hok].
    rewrite Hsh. intros j e Hj. unfold move in Hj. simpl in Hj.
    apply list_lookup_insert_Some in Hj as [(_ & ? & _)|[_ Hj]];
      [discriminate | eauto].
  - rewrite Hsh. destruct Hin as (it1 & Hsh1 & Hx1); [eauto|].
    rewrite Hsh in Hsh1. injection Hsh1 as <-.
    unfold invoke. destruct (invoke_model it (input_tensor it)) as [out|e'] eqn:Hinv;
      intros j e Hj; simpl in Hj;
      apply list_lookup_insert_Some in Hj as [(_ & Hr & _)|[_ Hj]];
      try discriminate; eauto.
    injection Hr as <-. exists (input_tensor it). split; [exact Hx1|]. congruence.
  - rewrite Hsh. intros j e Hj. simpl in Hj.
    apply list_lookup_insert_Some in Hj as [(_ & ? & _)|[_ Hj]];
      [discriminate | eauto].
Qed.

Lemma pool_map_tflite_raises model sched (frames : list Frame) it0 e it' :
  pool_map lib ByTflite model sched frames (Some it0) = (Raise e, it') ->
  exists x, x ∈ frames /\ invoke_model it0 x = Raise e.
Proof.
  intros Hmap.
  assert (Hinv : own_batch lib it0 frames
                   (pool_run lib ByTflite model sched frames (Some it0)) /\
                 tflite_raise_ok it0 frames
                   (pool_run lib ByTflite model sched frames (Some it0))).
  { apply (pool_run_ind
             (fun s => own_batch lib it0 frames s /\ tflite_raise_ok it0 frames s)).
    - split; [apply own_batch_start|].
      intros j e' Hj. simpl in Hj. rewrite list_lookup_fmap in Hj.
      destruct (frames !! j); discriminate Hj.
    - intros i s [Hown Hok]. split;
        [apply own_batch_step, Hown | apply tflite_raise_ok_step; assumption]. }
  destruct Hinv as [_ Hok].
  pose proof (pool_run_exn_from_task ByTflite model sched frames (Some it0)) as Hex.
  unfold pool_map, collect in Hmap.
  destruct (first_exn (pool_run lib ByTflite model sched frames (Some it0)))
    as [e0|] eqn:H0; [|discriminate Hmap].
  injection Hmap as <- _.
  destruct (Hex e0 H0) as [j Hj]. eauto.
Qed.

Lemma pool_map_saved_model_raises model sched (frames : list Frame) it e it' :
  pool_map lib BySavedModel model sched frames it = (Raise e, it') ->
  exists x, x ∈ frames /\ saved_model_super_resolve lib model x = Raise e.
Proof.
  intros Hmap.
  pose proof (pool_run_one_call model sched frames it) as Hone.
  pose proof (pool_run_exn_from_task BySavedModel model sched frames it) as Hex.
  unfold pool_map, collect in Hmap.
  destruct (first_exn (pool_run lib BySavedModel model sched frames it))
    as [e0|] eqn:H0; [|discriminate Hmap].
  injection Hmap as <- _.
  destruct (Hex e0 H0) as [j Hj].
  destruct (Hone j _ Hj) as (x & Hx & [Hp|Hf]); [discriminate Hp|].
  exists x. split; [eapply list_elem_of_lookup_2, Hx | congruence].
Qed.

(** X21. [video_second] raises only what [int(fps)] raises, or
    [StopIteration] when fewer than [int(fps)] frames are left, or an
    exception the resolution function raised on one of the frames pulled
    for this batch. *)
Theorem video_second_raises_only sched p e p' :
  video_second lib sched p = (Raise e, p') ->
  py_int (video_fps p) = Raise e \/
  (exists n, py_int (video_fps p) = Ok n /\
     length (video_iterator p) < py_range n /\ e = StopIteration) \/
  (exists n frame, py_int (video_fps p) = Ok n /\
     frame ∈ take (py_range n) (video_iterator p) /\
     resolution_raises lib p frame e).
Proof.
  intros Hrun. rewrite video_second_eq in Hrun.
  destruct (py_int (video_fps p)) as [n|e0] eqn:Hn;
    [|left; congruence].
  right.
  destruct (le_lt_dec (py_range n) (length (video_iterator p))) as [Hle|Hlt].
  - right.
    destruct (fetch_frames_enough (py_range n) [] p Hle) as (p1 & Hp1 & _).
    rewrite Hp1, app_nil_l in Hrun.
    destruct (pool_map lib (resolution_fn p) (saved_model p) sched
                (map (prepared lib) (take (py_range n) (video_iterator p)))
                (interpreter p)) as [r it'] eqn:Hmap.
    cbn [fst] in Hrun. injection Hrun as -> _.
    unfold resolution_raises.
    change (map (prepared lib) (take (py_range n) (video_iterator p)))
      with (prepared lib <$> take (py_range n) (video_iterator p)) in Hmap.
    destruct (resolution_fn p) eqn:Hfn.
    + unfold resolution_fn in Hfn.
      destruct (interpreter p) as [it|] eqn:Hit; [|discriminate Hfn].
      destruct (saved_model p) eqn:Hsm; [discriminate Hfn|].
      apply pool_map_tflite_raises in Hmap as (x & Hx & Hraise).
      apply list_elem_of_fmap in Hx as (frame & -> & Hframe).
      exists n, frame. split_and!; eauto.
    + apply pool_map_saved_model_raises in Hmap as (x & Hx & Hraise).
      apply list_elem_of_fmap in Hx as (frame & -> & Hframe).
      exists n, frame. split_and!; eauto.
  - left. exists n.
    destruct (fetch_frames_short (py_range n) [] p Hlt) as (p1 & Hp1 & _).
    rewrite Hp1 in Hrun. injection Hrun as <- _. auto.
Qed.

(** X22. The queues are not bounded by [BUFFER_SIZE]: [run] never waits
    for a consumer. In every session and interleaving a queue holds no
    more than was put, so no more than [int(duration)] items, and there is
    a session in which it holds them all at once. *)
Theorem queues_hold_up_to_duration clip_fps clip_duration clip_frames
    clip_chunks tflite model ls :
  let p0 := Player_init clip_fps clip_duration clip_frames clip_chunks
              tflite model in
  let w := steps lib ls (session p0) in
  length (audio_queue (self w)) <= iterations p0 /\
  length (video_queue (self w)) <= iterations p0 /\
  (forall d n,
     never_raises p0 ->
     py_int clip_duration = Ok d -> py_int clip_fps = Ok n ->
     py_range d <= length clip_chunks ->
     py_range d * py_range n <= length clip_frames ->
     let full := steps lib (repeat (Run []) (6 + 4 * py_range d)) (session p0) in
     audio_queue (self full) = take (py_range d) clip_chunks /\
     length (video_queue (self full)) = py_range d).
Proof.
  intros p0 w.
  pose proof (Player_init_new clip_fps clip_duration clip_frames
                clip_chunks tflite model) as Hnew. fold p0 in Hnew.
  pose proof (reachable_steps p0 ls) as Hreach. fold w in Hreach.
  pose proof (iter_inv_reachable _ _ Hnew Hreach) as (_ & Hit).
  pose proof (gate_inv_reachable _ _ Hnew Hreach) as (_ & _ & Hqa & Hqv & _).
  apply iter_at_bounds in Hit as [Hca Hcv].
  split_and!; [lia | lia |].
  intros d n Hnr Hd Hn Hchunks Hframes.
  pose proof (run_prelude p0 d eq_refl eq_refl Hd) as Hpre.
  set (p1 := set_lock false (emit EvRunning (set_running true (set_lock true p0))))
    in *.
  destruct (fetch_loop_ok (fun _ => []) n (py_range d) 0 p1 Hnr Hn Hchunks Hframes)
    as (batches & p2 & Hloop & Hlen & _ & Haq & Hvq & _).
  set (w1 := {| self := p1; main := PFetch 0 (py_range d);
                audio_thread := ABuffering; video_thread := VBuffering |}) in *.
  cbv zeta. rewrite repeat_app, steps_app, Hpre.
  rewrite (producer_loop (py_range d) 0 w1 (py_range d) p2 eq_refl (le_n _) Hloop).
  cbn [self at_main]. rewrite Haq, Hvq. split; [reflexivity|exact Hlen].
Qed.

(** ** The command line *)

(** X17. Whatever the number of [-v] flags, the main block finds a level
    and no [IndexError]: [FATAL] without a flag, [WARNING] for one,
    [INFO] for two and [DEBUG] for three or more. *)
Theorem verbosity_is_clamped (verbose : Z) :
  (0 <= verbose)%Z ->
  current_log_level verbose =
    Some (if (verbose =? 0)%Z then FATAL
          else if (verbose =? 1)%Z then WARNING
          else if (verbose =? 2)%Z then INFO
          else DEBUG).
Proof.
  intros Hv. unfold current_log_level, py_getitem.
  destruct (Z.lt_ge_cases verbose 3) as [Hlt|Hge].
  - assert (Hc : verbose = 0%Z \/ verbose = 1%Z \/ verbose = 2%Z) by lia.
    destruct Hc as [-> | [-> | ->]]; reflexivity.
  - change (Z.of_nat (length log_levels) - 1)%Z with 3%Z.
    rewrite Z.min_l by lia.
    destruct (Z.eqb_spec verbose 0); [lia|].
    destruct (Z.eqb_spec verbose 1); [lia|].
    destruct (Z.eqb_spec verbose 2); [lia|].
    reflexivity.
Qed.

End Facts.

(** * The claims on the sample sessions *)

(** C1: the loop of [run] on two seconds of two frames. *)
Lemma run_fetch_loop_complete_witness :
  exists batches p',
    run_fetch_loop sample_lib (fun _ => []) doubling_player = (Ok tt, p') /\
    length batches = py_range 2 /\
    Forall (fun b => length b = py_range 2) batches /\
    history p' =
      history doubling_player ++
      flat_map iteration_events
        (combine (take (py_range 2) (audio_iterator doubling_player)) batches) /\
    count is_audio_put (log p') =
      count is_audio_put (log doubling_player) + py_range 2 /\
    count is_video_put (log p') =
      count is_video_put (log doubling_player) + py_range 2 /\
    audio_queue p' =
      audio_queue doubling_player
      ++ take (py_range 2) (audio_iterator doubling_player) /\
    video_queue p' = video_queue doubling_player ++ batches.
Proof.
  apply (run_fetch_loop_complete sample_lib (fun _ => []) doubling_player 2 2).
  - split.
    + intros call x H. injection H as <-. eexists. reflexivity.
    + intros it x H. discriminate H.
  - reflexivity.
  - reflexivity.
  - vm_compute. lia.
  - vm_compute. lia.
Defined.

(** C1 as stated fails: the duration is 2 seconds, but the model raises in
    the second fetch, and [run] has made one iteration (one audio put, one
    video put) when it ends. *)
Lemma run_fetch_loop_counterexample :
  py_int (video_duration failing_player) = Ok 2%Z /\
  fst (run_fetch_loop sample_lib (fun _ => []) failing_player)
    = Raise ModelError /\
  count is_audio_put
    (log (snd (run_fetch_loop sample_lib (fun _ => []) failing_player))) = 1 /\
  count is_video_put
    (log (snd (run_fetch_loop sample_lib (fun _ => []) failing_player))) = 1.
Proof. vm_compute. repeat split. Qed.

(** C2: after nine fetches the audio consumer dequeues; nine audio puts
    are before it. *)
Lemma consumers_wait_for_buffer_witness :
  BUFFER_SIZE = 8 /\
  (is_audio_drain (EvAudioGet (Frame := nat) [0.5%float]) = true ->
   8 <= count is_audio_put
          (skipn 2 (log (self (steps sample_lib (sample_schedule 45 3)
                                 (session plain_player)))))) /\
  (is_video_drain (EvAudioGet (Frame := nat) [0.5%float]) = true ->
   8 <= count is_video_put
          (skipn 2 (log (self (steps sample_lib (sample_schedule 45 3)
                                 (session plain_player)))))).
Proof.
  apply (consumers_wait_for_buffer sample_lib 1 9 [1; 2; 3; 4; 5; 6; 7; 8; 9]
           (repeat [0.5%float] 9) None None (sample_schedule 45 3)
           [EvVideoGet [1]]).
  vm_compute. reflexivity.
Defined.

(** C3 fails on the TFLite path: with the two tasks of a batch interleaved
    so that both call [set_tensor] before either calls [invoke], both
    results are the resolution of the second frame; run one after the
    other they are the resolutions of the first and of the second. *)
Lemma tflite_pool_race :
  resolution_fn tflite_player = ByTflite /\
  fst (video_second sample_lib race_schedule tflite_player) = Ok [102; 102] /\
  fst (video_second sample_lib [] tflite_player) = Ok [101; 102] /\
  fst (tflite_super_resolve sample_lib 1 sample_tflite) = Ok 101.
Proof. vm_compute. repeat split. Qed.

(** C4: a batch of a clip at 2 frames a second. *)
Lemma video_second_batch_size_witness :
  (forall batch p',
     video_second sample_lib [] doubling_player = (Ok batch, p') ->
     length batch = py_range 2 /\
     ((0 <= 2)%Z -> Z.of_nat (length batch) = 2%Z) /\
     py_range 2 <= length (video_iterator doubling_player)) /\
  (length (video_iterator doubling_player) < py_range 2 ->
   exists p',
     video_second sample_lib [] doubling_player = (Raise StopIteration, p')).
Proof.
  apply (video_second_batch_size sample_lib [] doubling_player 2).
  reflexivity.
Defined.

(** C5: the second fetch of the failing session. *)
Lemma failed_batch_never_enqueued_witness :
  let w := steps sample_lib (sample_schedule 10 0) (session failing_player) in
  (exists e p', fetch_video sample_lib [] (self w) = (Raise e, p')) /\
  (exists e, main (step sample_lib (Run []) w) = PRaised e) /\
  video_queue (self (step sample_lib (Run []) w)) = video_queue (self w) /\
  audio_queue (self (step sample_lib (Run []) w)) = audio_queue (self w) /\
  log (self (step sample_lib (Run []) w)) = log (self w) /\
  forall after,
    video_puts
      (log (self (steps sample_lib after (step sample_lib (Run []) w))))
      = video_puts (log (self w)) /\
    count is_video_put
      (log (self (steps sample_lib after (step sample_lib (Run []) w))))
      = count is_video_put (log (self w)) /\
    blits (log (self (steps sample_lib after (step sample_lib (Run []) w))))
      `prefix_of`
      map (make_surface sample_lib) (concat (video_puts (log (self w)))).
Proof.
  apply (failed_batch_never_enqueued sample_lib 2 2 [1; 2; 3; 4]
           [[0.5%float]; [0.25%float]] None (Some failing_model)
           (sample_schedule 10 0) [] 1 2 [0.25%float] [] 2).
  - reflexivity.
  - lia.
  - reflexivity.
  - reflexivity.
  - vm_compute. lia.
  - exists 0, ModelError. vm_compute. reflexivity.
Defined.

(** C6: the first chunk the audio consumer dequeues, and what it has
    written three chunks later. *)
Lemma audio_written_as_float32_witness :
  let w := steps sample_lib (repeat (Run []) 45 ++ [Audio; Audio])
             (session plain_player) in
  (audio_thread (step sample_lib Audio w) = AWrite [0.5%float] /\
   audio_queue (self (step sample_lib Audio w)) = repeat [0.5%float] 8 /\
   log (self (step sample_lib Audio w))
     = EvAudioGet [0.5%float] :: log (self w) /\
   log (self (step sample_lib Audio (step sample_lib Audio w))) =
     EvStreamWrite (stream_payload [0.5%float])
     :: EvAudioGet [0.5%float] :: log (self w) /\
   audio_thread (step sample_lib Audio (step sample_lib Audio w)) = ATest) /\
  stream_payload [0.5%float] = [0; 0; 0; 63]%Z.
Proof.
  split.
  - apply (proj1 (proj2
             (audio_written_as_float32 sample_lib 1 9
                [1; 2; 3; 4; 5; 6; 7; 8; 9] (repeat [0.5%float] 9) None None
                (repeat (Run []) 45 ++ [Audio; Audio]))) 0).
    + reflexivity.
    + reflexivity.
  - reflexivity.
Defined.

(** C6 as stated fails: the chunk received is the float64 array of the
    one sample 0.5, eight bytes; what is written is four bytes, the sample
    in float32. And a sample that float32 cannot hold, as 0.1, is written
    with another value. *)
Lemma audio_written_counterexample :
  log (self (step sample_lib Audio
               {| self := plain_player; main := PJoinAudio;
                  audio_thread := AWrite [0.5%float];
                  video_thread := VNotStarted |}))
    = [EvStreamWrite [0; 0; 0; 63]%Z] /\
  tostring64 [0.5%float] = [0; 0; 0; 0; 0; 0; 224; 63]%Z /\
  stream_payload [0.5%float] <> tostring64 [0.5%float] /\
  samples_written [0x1.999999999999ap-4%float]
    = [0x1.99999ap-4%float] /\
  (0x1.99999ap-4 =? 0x1.999999999999ap-4)%float = false.
Proof.
  vm_compute. split_and!; try reflexivity. intros H. discriminate H.
Qed.

(** X1: the pool finishing the second task first. *)
Lemma saved_model_batch_in_order_witness :
  length [2; 4] = py_range 2 /\
  forall j frame, j < py_range 2 ->
    video_iterator doubling_player !! j = Some frame ->
    exists out, [2; 4] !! j = Some out /\
      saved_model_super_resolve sample_lib (saved_model doubling_player)
        (prepared sample_lib frame) = Ok out.
Proof.
  apply (saved_model_batch_in_order sample_lib [1; 0] doubling_player 2 [2; 4]
           (snd (video_second sample_lib [1; 0] doubling_player))).
  - reflexivity.
  - reflexivity.
  - vm_compute. reflexivity.
Defined.

(** C7: the first frame of the nine-second clip is on the display; the
    sleep that follows is of [(1000 / 1 - 2.25) / 1000] seconds. *)
Lemma video_pacing_witness :
  let w := steps sample_lib (sample_schedule 45 4) (session plain_player) in
  log (self (step sample_lib Video w))
    = EvSleep VideoConsumer ((1000 / 1 - 2.25) / 1000) :: log (self w) /\
  video_thread (step sample_lib Video w)
    = (if (0 <=? (1000 / 1 - 2.25) / 1000)%float then VFrame []
       else VRaised ValueError).
Proof.
  apply (proj1 (proj2 (proj2 (proj2
           (video_pacing sample_lib 1 9 [1; 2; 3; 4; 5; 6; 7; 8; 9]
              (repeat [0.5%float] 9) None None (sample_schedule 45 4)))))).
  reflexivity.
Defined.

(** C7 as stated fails: at 500 frames a second the interval is -0.25 ms.
    The first frame of the first batch is on the display and 499 frames
    of the batch are left; the call of [time.sleep] raises [ValueError],
    the consumer ends, and whatever the other threads do afterwards no
    frame follows: after the frame displayed there is no sleep and no
    next frame. *)
Lemma video_pacing_counterexample :
  (0 <=? (1000 / video_fps fast_player - 2.25) / 1000)%float = false /\
  blits (log (self fast_session)) = [0] /\
  video_thread fast_session = VPace (seq 1 499) /\
  video_thread (step sample_lib Video fast_session) = VRaised ValueError /\
  forall more,
    video_thread (steps sample_lib more (step sample_lib Video fast_session))
      = VRaised ValueError /\
    blits (log (self (steps sample_lib more
                        (step sample_lib Video fast_session)))) = [0].
Proof.
  assert (Hraised : video_thread (step sample_lib Video fast_session)
                    = VRaised ValueError) by (vm_compute; reflexivity).
  split; [vm_compute; reflexivity|].
  split; [vm_compute; reflexivity|].
  split; [vm_compute; reflexivity|].
  split; [exact Hraised|].
  intros more. split; [apply video_raised_forever, Hraised|].
  rewrite (blits_raised_forever sample_lib more _ ValueError Hraised).
  vm_compute. reflexivity.
Qed.

(** C8: the second guarded assignment of the nine-second session. *)
Lemma run_flag_set_once_witness :
  let w := steps sample_lib (repeat (Run []) 44) (session plain_player) in
  lock (self w) = true /\
  forall sched, self (step sample_lib (Run sched) w) = self w.
Proof.
  apply (proj1 (proj2 (proj2 (proj2 (proj2 (proj2
           (run_flag_set_once sample_lib 1 9 [1; 2; 3; 4; 5; 6; 7; 8; 9]
              (repeat [0.5%float] 9) None None (repeat (Run []) 44)))))))).
  reflexivity.
Defined.

(** C9: the audio consumer has written the nine chunks and waits for a
    tenth. *)
Lemma get_timeout_is_fatal_witness :
  let w := steps sample_lib (repeat (Run []) 45 ++ repeat Audio 29)
             (session plain_player) in
  audio_thread (steps sample_lib (repeat Audio 11) w) = ARaised QueueEmpty.
Proof.
  apply (proj1 (proj2 (proj2 (proj2
           (get_timeout_is_fatal sample_lib 1 9 [1; 2; 3; 4; 5; 6; 7; 8; 9]
              (repeat [0.5%float] 9) None None
              (repeat (Run []) 45 ++ repeat Audio 29)))))).
  - reflexivity.
  - reflexivity.
Defined.

(** * More of the program, on the sample sessions *)

(** X8: two seconds of two frames; [run] ends its loop and waits in
    [join], the consumers wait for their queues to fill. *)
Lemma short_clip_never_plays_witness :
  let w := steps sample_lib (sample_schedule 20 5) (session doubling_player) in
  (audio_thread w = ANotStarted \/ audio_thread w = ABuffering) /\
  (video_thread w = VNotStarted \/ video_thread w = VBuffering) /\
  audio_gets (log (self w)) = [] /\
  stream_writes (log (self w)) = [] /\
  video_gets (log (self w)) = [] /\
  blits (log (self w)) = [] /\
  main w <> PReturned.
Proof.
  apply (short_clip_never_plays sample_lib 2 2 [1; 2; 3; 4]
           [[0.5%float]; [0.25%float]] None (Some (fun x => Ok (2 * x)))
           (sample_schedule 20 5)).
  vm_compute. lia.
Defined.

(** X9: the video consumer has drawn the first frame. *)
Lemma negative_interval_one_frame_witness :
  let w := steps sample_lib (sample_schedule 45 4) (session fast_player) in
  length (blits (log (self w))) <= 1 /\
  (forall rest, video_thread w = VPace rest ->
     video_thread (step sample_lib Video w) = VRaised ValueError).
Proof.
  apply (negative_interval_one_frame sample_lib 500 9 (seq 0 4500)
           (repeat [0.5%float] 9) None None (sample_schedule 45 4)).
  reflexivity.
Defined.

(** X11: the session of the SavedModel that doubles a frame. *)
Lemma frames_in_clip_order_witness :
  let w := steps sample_lib (sample_schedule 20 5) (session doubling_player) in
  interpreter (self w) = None /\
  Forall2 (enhanced sample_lib (Some (fun x => Ok (2 * x))))
    (concat (video_puts (log (self w))))
    (take (length (concat (video_puts (log (self w))))) [1; 2; 3; 4]) /\
  Forall2 (shown sample_lib (Some (fun x => Ok (2 * x))))
    (blits (log (self w)))
    (take (length (blits (log (self w)))) [1; 2; 3; 4]).
Proof.
  apply (frames_in_clip_order sample_lib 2 2 [1; 2; 3; 4]
           [[0.5%float]; [0.25%float]] None (Some (fun x => Ok (2 * x)))
           (sample_schedule 20 5)).
  reflexivity.
Defined.


(** X13: the same second with the tasks one after the other. *)
Lemma tflite_batch_one_at_a_time_witness :
  fst (video_second sample_lib [] tflite_player) = Ok [101; 102] /\
  forall j frame, j < length [101; 102] ->
    video_iterator tflite_player !! j = Some frame ->
    exists out,
      invoke_model sample_tflite (prepared sample_lib frame) = Ok out /\
      [101; 102] !! j = Some (tf_clip_squeeze sample_lib out).
Proof.
  split; [vm_compute; reflexivity|].
  apply (tflite_batch_one_at_a_time sample_lib tflite_player sample_tflite
           [101; 102] (snd (video_second sample_lib [] tflite_player))).
  - reflexivity.
  - reflexivity.
  - vm_compute. reflexivity.
Defined.

(** X14: [int(0.5)] is 0. *)
Lemma video_second_low_fps_witness :
  video_second sample_lib [] slow_player = (Ok [], slow_player).
Proof.
  apply (video_second_low_fps sample_lib [] slow_player 0).
  - reflexivity.
  - lia.
Defined.

(** X15: the chunk and the frame are consumed, nothing is put. *)
Lemma fetch_video_out_of_frames_witness :
  exists p',
    fetch_video sample_lib [] cut_player = (Raise StopIteration, p') /\
    audio_iterator p' = [] /\
    video_iterator p' = [] /\
    audio_queue p' = audio_queue cut_player /\
    video_queue p' = video_queue cut_player /\
    log p' = log cut_player /\
    interpreter p' = interpreter cut_player.
Proof.
  apply (fetch_video_out_of_frames sample_lib [] cut_player 2 [0.5%float] []).
  - reflexivity.
  - reflexivity.
  - vm_compute. lia.
Defined.

(** X16: [run] called again while its first call is at the head of the
    loop. *)
Lemma run_again_raises_witness :
  let w := steps sample_lib (sample_schedule 6 0) (session doubling_player) in
  let w' := steps sample_lib [Run []; Run []; Run []; Run []]
              (at_main (self w) PAcquire1 w) in
  main w' = PRaised RuntimeError /\
  running (self w') = true /\
  lock (self w') = false /\
  audio_thread w' = audio_thread w /\
  video_thread w' = video_thread w /\
  audio_queue (self w') = audio_queue (self w) /\
  video_queue (self w') = video_queue (self w) /\
  audio_iterator (self w') = audio_iterator (self w) /\
  video_iterator (self w') = video_iterator (self w).
Proof.
  apply (run_again_raises sample_lib
           (steps sample_lib (sample_schedule 6 0) (session doubling_player))
           [] [] [] []).
  - vm_compute. discriminate.
  - reflexivity.
Defined.

(** X17: five [-v] flags. *)
Lemma verbosity_is_clamped_witness : current_log_level 5 = Some DEBUG.
Proof. apply (verbosity_is_clamped 5). lia. Defined.

(** X19: the nine seconds of [plain_player], played to the end. *)
Lemma playback_completes_witness :
  exists batches,
    let w := steps sample_lib (whole_playback (py_range 9) batches)
               (session plain_player) in
    main w = PReturned /\
    audio_thread w = ARaised QueueEmpty /\
    video_thread w = VRaised QueueEmpty /\
    video_puts (log (self w)) = batches /\
    length batches = py_range 9 /\
    Forall (fun b => length b = py_range 1) batches /\
    stream_writes (log (self w))
      = map stream_payload (take (py_range 9) (repeat [0.5%float] 9)) /\
    blits (log (self w)) = map (make_surface sample_lib) (concat batches).
Proof.
  apply (playback_completes sample_lib 1 9 [1; 2; 3; 4; 5; 6; 7; 8; 9]
           (repeat [0.5%float] 9) None None 9 1
           ((1000 / 1 - 2.25) / 1000)%float).
  - split; intros ? ? H; discriminate H.
  - reflexivity.
  - reflexivity.
  - vm_compute. lia.
  - vm_compute. lia.
  - vm_compute. lia.
  - reflexivity.
  - reflexivity.
Defined.

(** X21: the model raises on frame 3. *)
Lemma video_second_raises_only_witness :
  py_int (video_fps raising_player) = Raise ModelError \/
  (exists n, py_int (video_fps raising_player) = Ok n /\
     length (video_iterator raising_player) < py_range n /\
     ModelError = StopIteration) \/
  (exists n frame, py_int (video_fps raising_player) = Ok n /\
     frame ∈ take (py_range n) (video_iterator raising_player) /\
     resolution_raises sample_lib raising_player frame ModelError).
Proof.
  apply (video_second_raises_only sample_lib [] raising_player ModelError
           (snd (video_second sample_lib [] raising_player))).
  vm_compute. reflexivity.
Defined.
